(** * The cached, rate-limited, retrying API clients of the lead-enrichment scripts

    A shallow embedding of
      - [src/try/enhanced_client.py]   ([RateLimiter], [EnhancedCoreSignalClient]),
      - [src/core_sig/client.py]       ([_sanitize], [CoreSignalClient]),
      - [src/coresignal_client.py]     ([CoreSignalClient], requests based),
    with the properties of the specification stated and settled on it.

    Conventions.  Wall-clock time ([time.time()], file mtimes, [timedelta]) is
    an integer number of microseconds, the resolution of [datetime].  A Python
    [str] is a [string] whose characters are code points below 256.  A Python
    [dict] is an association list in insertion order. *)

From Stdlib Require Import ZArith String Ascii List Lia Bool.
From Stdlib Require Import DecimalString.
From Stdlib Require DecimalFacts DecimalPos.
From stdpp Require Import base option list sorting gmap strings.

Local Open Scope Z_scope.

(** ** Time *)

Definition second : Z := 1000000.
Definition seconds (n : Z) : Z := n * second.
Definition days (n : Z) : Z := n * 86400 * second.

(** * [RateLimiter] (src/try/enhanced_client.py, lines 20-39) *)

Module RateLimiter.

Record t := mk {
  max_requests : Z;
  time_window : Z;
  requests : list Z;
  (** [asyncio.Lock]: [true] while some coroutine is inside [async with]. *)
  _lock : bool
}.

Definition __init__ (max_requests time_window : Z) : t :=
  {| max_requests := max_requests; time_window := time_window;
     requests := []; _lock := false |}.

Definition set_requests (l : list Z) (self : t) : t :=
  {| max_requests := max_requests self; time_window := time_window self;
     requests := l; _lock := _lock self |}.

Definition set_lock (b : bool) (self : t) : t :=
  {| max_requests := max_requests self; time_window := time_window self;
     requests := requests self; _lock := b |}.

Inductive error := IndexError | RuntimeError.

(** What one call of [acquire] comes to.  [Blocked]: the coroutine waits on
    [self._lock] and nothing can ever release it, so the call never returns.
    A critical section without the sleep has no suspension point and runs
    atomically under [asyncio]; the only section that suspends is the one
    that sleeps and then calls [acquire] again, and its holder waits for the
    lock it holds itself.  A lock that is seen held is therefore held for
    good. *)
Inductive outcome :=
| Acquired (self : t)
| Blocked (self : t)
| Raised (e : error) (self : t)
| OutOfFuel.

(** [t for t in self.requests if now - t < self.time_window] *)
Definition prune (self : t) (now : Z) : list Z :=
  filter (λ t, now - t < time_window self) (requests self).

(** Leaving [async with self._lock]: [Lock.release] raises [RuntimeError]
    on a lock that is not held. *)
Definition release (self : t) : outcome :=
  if _lock self then Acquired (set_lock false self)
  else Raised RuntimeError self.

(** [now] is what [time.time()] returns inside the critical section;
    [asyncio.sleep(d)] lets [d] pass before the recursive call reads the
    clock again. *)
Fixpoint acquire (fuel : nat) (self : t) (now : Z) : outcome :=
  match fuel with
  | O => OutOfFuel
  | S fuel' =>
    if _lock self then Blocked self
    else
      let self := set_lock true self in
      let self := set_requests (prune self now) self in
      let grant := Acquired (set_lock false
                     (set_requests (requests self ++ [now]) self)) in
      if Z.of_nat (length (requests self)) >=? max_requests self then
        match requests self with
        | [] => Raised IndexError (set_lock false self)
        | t0 :: _ =>
          let sleep_time := time_window self - (now - t0) in
          if sleep_time >? 0 then
            match acquire fuel' self (now + sleep_time) with
            | Acquired self' => release self'
            | Raised e self' => Raised e (set_lock false self')
            | r => r
            end
          else grant
        end
      else grant
  end.

(** The limiter shared by all logical operations of one client: the
    coroutines enter the critical section one after the other, each reading
    the clock there; [run] feeds the clock readings of the successive
    attempts to the limiter and collects the timestamps of the attempts
    that were let through to the network. *)
Fixpoint run (fuel : nat) (self : t) (times : list Z) : t * list Z :=
  match times with
  | [] => (self, [])
  | now :: times' =>
    match acquire fuel self now with
    | Acquired self' =>
      let '(final, sent) := run fuel self' times' in (final, now :: sent)
    | Blocked self' | Raised _ self' => run fuel self' times'
    | OutOfFuel => (self, [])
    end
  end.

(** Number of timestamps of [l] in the window [[s, s + T)]. *)
Definition in_window (s T : Z) (l : list Z) : nat :=
  length (filter (λ d, s <= d < s + T) l).


Definition fresh (T now : Z) (x : Z) : Prop := now - x < T.

#[global] Instance fresh_dec T now x : Decision (fresh T now x).
Proof. unfold fresh. apply _. Defined.

(** What holds between the limiter [self], the timestamps [H] of the calls
    let through so far and the latest clock reading [last]. *)
Record consistent (N T : Z) (self : t) (H : list Z) (last : Z) : Prop := {
  c_max : max_requests self = N;
  c_window : time_window self = T;
  c_length : Z.of_nat (length (requests self)) <= N;
  c_fresh : ∀ now, last <= now →
    filter (fresh T now) (requests self) = filter (fresh T now) H;
  c_bound : ∀ s, Z.of_nat (in_window s T H) <= N
}.

(** Room for [k] more calls, whatever the clock reads: the lock is free and
    [k] more timestamps fit under [max_requests]. *)
Definition room (k : nat) (self : t) : Prop :=
  _lock self = false
  ∧ Z.of_nat (length (requests self)) + Z.of_nat k <= max_requests self.

End RateLimiter.

(** * [hashlib.md5] and [str.encode]

    The cache key of [EnhancedCoreSignalClient] is an MD5 hex digest
    (RFC 1321).  Words are integers below [2^32], bytes integers below 256. *)

Module Md5.

Definition w32 (x : Z) : Z := Z.land x 0xffffffff.
Definition rotl (x c : Z) : Z :=
  w32 (Z.lor (Z.shiftl x c) (Z.shiftr x (32 - c))).
Definition not32 (x : Z) : Z := Z.lxor x 0xffffffff.

Definition K : list Z :=
  [ 0xd76aa478; 0xe8c7b756; 0x242070db; 0xc1bdceee;
    0xf57c0faf; 0x4787c62a; 0xa8304613; 0xfd469501;
    0x698098d8; 0x8b44f7af; 0xffff5bb1; 0x895cd7be;
    0x6b901122; 0xfd987193; 0xa679438e; 0x49b40821;
    0xf61e2562; 0xc040b340; 0x265e5a51; 0xe9b6c7aa;
    0xd62f105d; 0x02441453; 0xd8a1e681; 0xe7d3fbc8;
    0x21e1cde6; 0xc33707d6; 0xf4d50d87; 0x455a14ed;
    0xa9e3e905; 0xfcefa3f8; 0x676f02d9; 0x8d2a4c8a;
    0xfffa3942; 0x8771f681; 0x6d9d6122; 0xfde5380c;
    0xa4beea44; 0x4bdecfa9; 0xf6bb4b60; 0xbebfbc70;
    0x289b7ec6; 0xeaa127fa; 0xd4ef3085; 0x04881d05;
    0xd9d4d039; 0xe6db99e5; 0x1fa27cf8; 0xc4ac5665;
    0xf4292244; 0x432aff97; 0xab9423a7; 0xfc93a039;
    0x655b59c3; 0x8f0ccc92; 0xffeff47d; 0x85845dd1;
    0x6fa87e4f; 0xfe2ce6e0; 0xa3014314; 0x4e0811a1;
    0xf7537e82; 0xbd3af235; 0x2ad7d2bb; 0xeb86d391 ].

Definition shifts : list Z :=
  [ 7; 12; 17; 22; 7; 12; 17; 22; 7; 12; 17; 22; 7; 12; 17; 22;
    5; 9; 14; 20; 5; 9; 14; 20; 5; 9; 14; 20; 5; 9; 14; 20;
    4; 11; 16; 23; 4; 11; 16; 23; 4; 11; 16; 23; 4; 11; 16; 23;
    6; 10; 15; 21; 6; 10; 15; 21; 6; 10; 15; 21; 6; 10; 15; 21 ].

(** Little-endian bytes of a word and back. *)
Fixpoint le_bytes (n : nat) (x : Z) : list Z :=
  match n with
  | O => []
  | S n' => Z.land x 0xff :: le_bytes n' (Z.shiftr x 8)
  end.

Fixpoint le_word (bs : list Z) : Z :=
  match bs with
  | [] => 0
  | b :: bs' => Z.lor b (Z.shiftl (le_word bs') 8)
  end.

(** Message padding: a [0x80] byte, zeros up to 56 modulo 64, then the
    length in bits as a 64-bit little-endian integer. *)
Definition pad (msg : list Z) : list Z :=
  let len := Z.of_nat (length msg) in
  let zeros := Z.to_nat ((55 - len) mod 64) in
  msg ++ [0x80] ++ repeat 0 zeros ++ le_bytes 8 (8 * len).

Fixpoint words (n : nat) (bs : list Z) : list Z :=
  match n with
  | O => []
  | S n' => le_word (take 4 bs) :: words n' (drop 4 bs)
  end.

Definition state : Type := Z * Z * Z * Z.

Definition round (M : list Z) (st : state) (i : Z) : state :=
  let '(A, B, C, D) := st in
  let '(F, g) :=
    if i <? 16 then (Z.lor (Z.land B C) (Z.land (not32 B) D), i)
    else if i <? 32 then
      (Z.lor (Z.land D B) (Z.land (not32 D) C), (5 * i + 1) mod 16)
    else if i <? 48 then (Z.lxor B (Z.lxor C D), (3 * i + 5) mod 16)
    else (Z.lxor C (Z.lor B (not32 D)), (7 * i) mod 16) in
  let F := w32 (F + A + nth (Z.to_nat i) K 0 + nth (Z.to_nat g) M 0) in
  (D, w32 (B + rotl F (nth (Z.to_nat i) shifts 0)), B, C).

Definition block (st : state) (chunk : list Z) : state :=
  let M := words 16 chunk in
  let '(a0, b0, c0, d0) := st in
  let '(A, B, C, D) :=
    fold_left (round M) (map Z.of_nat (seq 0 64)) st in
  (w32 (a0 + A), w32 (b0 + B), w32 (c0 + C), w32 (d0 + D)).

Fixpoint blocks (n : nat) (st : state) (bs : list Z) : state :=
  match n with
  | O => st
  | S n' => blocks n' (block st (take 64 bs)) (drop 64 bs)
  end.

Definition digest (msg : list Z) : list Z :=
  let p := pad msg in
  let '(a, b, c, d) :=
    blocks (length p / 64)
      (0x67452301, 0xefcdab89, 0x98badcfe, 0x10325476) p in
  le_bytes 4 a ++ le_bytes 4 b ++ le_bytes 4 c ++ le_bytes 4 d.

Definition hex_digit (x : Z) : ascii :=
  ascii_of_nat (Z.to_nat (if x <? 10 then 48 + x else 87 + x)).

Fixpoint hex (bs : list Z) : string :=
  match bs with
  | [] => EmptyString
  | b :: bs' =>
    String (hex_digit (Z.shiftr b 4)) (String (hex_digit (Z.land b 15)) (hex bs'))
  end.

(** [s.encode()]: UTF-8 of the code points of [s]. *)
Fixpoint encode (s : string) : list Z :=
  match s with
  | EmptyString => []
  | String c s' =>
    let n := Z.of_nat (nat_of_ascii c) in
    if n <? 128 then n :: encode s'
    else Z.lor 0xc0 (Z.shiftr n 6) :: Z.lor 0x80 (Z.land n 0x3f) :: encode s'
  end.

(** [hashlib.md5(s.encode()).hexdigest()] *)
Definition hexdigest (s : string) : string := hex (digest (encode s)).

End Md5.


(** * JSON values, [json.dumps] and [json.loads]

    Numbers are integers: literals with a fraction or an exponent are outside
    this model and [loads] rejects them.  Object keys are strings. *)

Module Json.

#[warnings="-register-all"]
Inductive json :=
| JNull
| JBool (b : bool)
| JInt (n : Z)
| JStr (s : string)
| JList (l : list json)
| JDict (d : list (string * json)).

(** Truth value of a parsed JSON value in [if data:]. *)
Definition truthy (j : json) : bool :=
  match j with
  | JNull => false
  | JBool b => b
  | JInt n => negb (n =? 0)
  | JStr s => negb (String.eqb s "")
  | JList l => negb (Nat.eqb (length l) 0)
  | JDict d => negb (Nat.eqb (length d) 0)
  end.

(** [d[k] = v] on a dict: an existing key keeps its position. *)
Fixpoint dict_set (k : string) (v : json) (d : list (string * json))
  : list (string * json) :=
  match d with
  | [] => [(k, v)]
  | (k', v') :: d' =>
    if String.eqb k k' then (k, v) :: d' else (k', v') :: dict_set k v d'
  end.

(** ** Canonical form: [sort_keys=True]

    [sorted(dct.items())] orders the items of every object by key;
    [str] compares code point by code point. *)
Definition key_le (x y : string * json) : Prop :=
  String.le (fst x) (fst y).

#[global] Instance key_le_dec x y : Decision (key_le x y).
Proof. unfold key_le. apply _. Defined.

Fixpoint sort_keys (j : json) : json :=
  match j with
  | JList l => JList (map sort_keys l)
  | JDict d =>
    JDict (merge_sort key_le (map (λ kv, (fst kv, sort_keys (snd kv))) d))
  | _ => j
  end.

(** Equal as Python values: lists item by item, dicts as maps from keys to
    values, whatever the insertion order. *)
#[warnings="-register-all"]
Inductive same_map : json → json → Prop :=
| same_refl j : same_map j j
| same_list l1 l2 : Forall2 same_map l1 l2 → same_map (JList l1) (JList l2)
| same_dict d1 d d2 :
    Forall2 (λ a b, a.1 = b.1 ∧ same_map a.2 b.2) d1 d →
    d ≡ₚ d2 → NoDup d1.*1 →
    same_map (JDict d1) (JDict d2).

(** ** Encoder *)

Definition dquote : ascii := "034"%char.
Definition backslash : ascii := "092"%char.

Definition hex4 (n : Z) : string :=
  String (Md5.hex_digit (Z.shiftr n 12 mod 16))
    (String (Md5.hex_digit (Z.shiftr n 8 mod 16))
       (String (Md5.hex_digit (Z.shiftr n 4 mod 16))
          (String (Md5.hex_digit (n mod 16)) ""))).

(** [ESCAPE_ASCII]: everything outside the printable ASCII range is
    written as [\uXXXX]. *)
Definition escape_char (c : ascii) : string :=
  let n := Z.of_nat (nat_of_ascii c) in
  if n =? 34 then String backslash (String dquote "")
  else if n =? 92 then String backslash (String backslash "")
  else if n =? 10 then String backslash "n"
  else if n =? 13 then String backslash "r"
  else if n =? 9 then String backslash "t"
  else if n =? 8 then String backslash "b"
  else if n =? 12 then String backslash "f"
  else if (n <? 32) || (126 <? n) then String backslash ("u" +:+ hex4 n)
  else String c "".

Fixpoint escape (s : string) : string :=
  match s with
  | EmptyString => ""
  | String c s' => escape_char c +:+ escape s'
  end.

Definition encode_str (s : string) : string :=
  String dquote (escape s +:+ String dquote "").

Definition encode_int (n : Z) : string :=
  NilZero.string_of_int (Z.to_int n).

Fixpoint spaces (n : nat) : string :=
  match n with O => "" | S n' => String " " (spaces n') end.

(** Newline and indentation at nesting depth [lvl]; nothing without
    [indent]. *)
Definition newline (indent : option nat) (lvl : nat) : string :=
  match indent with
  | None => ""
  | Some w => String "010" (spaces (w * lvl))
  end.

Definition item_separator (indent : option nat) (lvl : nat) : string :=
  match indent with
  | None => ", "
  | Some _ => "," +:+ newline indent lvl
  end.

Fixpoint join (sep : string) (l : list string) : string :=
  match l with
  | [] => ""
  | [x] => x
  | x :: l' => x +:+ sep +:+ join sep l'
  end.

Fixpoint encode (indent : option nat) (lvl : nat) (j : json) : string :=
  match j with
  | JNull => "null"
  | JBool true => "true"
  | JBool false => "false"
  | JInt n => encode_int n
  | JStr s => encode_str s
  | JList [] => "[]"
  | JList l =>
    "[" +:+ newline indent (S lvl)
        +:+ join (item_separator indent (S lvl)) (map (encode indent (S lvl)) l)
        +:+ newline indent lvl +:+ "]"
  | JDict [] => "{}"
  | JDict d =>
    "{" +:+ newline indent (S lvl)
        +:+ join (item_separator indent (S lvl))
             (map (λ kv, encode_str (fst kv) +:+ ": "
                           +:+ encode indent (S lvl) (snd kv)) d)
        +:+ newline indent lvl +:+ "}"
  end.

(** [json.dumps(j)], [json.dumps(j, sort_keys=True)],
    [json.dumps(j, indent=w)] *)
Definition dumps (j : json) : string := encode None 0 j.
Definition dumps_sorted (j : json) : string := encode None 0 (sort_keys j).
Definition dumps_indent (w : nat) (j : json) : string := encode (Some w) 0 j.

(** ** Decoder ([json.loads], strict mode) *)

Definition is_ws (c : ascii) : bool :=
  let n := Z.of_nat (nat_of_ascii c) in
  (n =? 32) || (n =? 9) || (n =? 10) || (n =? 13).

Fixpoint skip_ws (s : string) : string :=
  match s with
  | String c s' => if is_ws c then skip_ws s' else s
  | EmptyString => s
  end.

Definition digit_val (c : ascii) : option Z :=
  let n := Z.of_nat (nat_of_ascii c) in
  if (48 <=? n) && (n <=? 57) then Some (n - 48) else None.

Definition hex_val (c : ascii) : option Z :=
  let n := Z.of_nat (nat_of_ascii c) in
  if (48 <=? n) && (n <=? 57) then Some (n - 48)
  else if (97 <=? n) && (n <=? 102) then Some (n - 87)
  else if (65 <=? n) && (n <=? 70) then Some (n - 55)
  else None.

(** The character an escape letter stands for ([BACKSLASH] table). *)
Definition unescape (e : ascii) : option ascii :=
  if Ascii.eqb e dquote then Some dquote
  else if Ascii.eqb e backslash then Some backslash
  else if Ascii.eqb e "/" then Some "/"%char
  else if Ascii.eqb e "b" then Some "008"%char
  else if Ascii.eqb e "f" then Some "012"%char
  else if Ascii.eqb e "n" then Some "010"%char
  else if Ascii.eqb e "r" then Some "013"%char
  else if Ascii.eqb e "t" then Some "009"%char
  else None.

Definition code_point (h1 h2 h3 h4 : ascii) : option Z :=
  a ← hex_val h1; b ← hex_val h2; c ← hex_val h3; d ← hex_val h4;
  Some (((a * 16 + b) * 16 + c) * 16 + d).

(** [scanstring], from behind the opening quote: the decoded string and
    the text after the closing quote.  Code points from 256 on are outside
    the model of [str]. *)
Fixpoint scan_string (s : string) : option (string * string) :=
  match s with
  | EmptyString => None
  | String c r =>
    if Ascii.eqb c dquote then Some (EmptyString, r)
    else if Ascii.eqb c backslash then
      match r with
      | EmptyString => None
      | String e r' =>
        match unescape e with
        | Some c' =>
          '(str, rest) ← scan_string r'; Some (String c' str, rest)
        | None =>
          if Ascii.eqb e "u" then
            match r' with
            | String h1 (String h2 (String h3 (String h4 r''))) =>
              n ← code_point h1 h2 h3 h4;
              if n <? 256 then
                '(str, rest) ← scan_string r'';
                Some (String (ascii_of_nat (Z.to_nat n)) str, rest)
              else None
            | _ => None
            end
          else None
        end
      end
    else if Z.of_nat (nat_of_ascii c) <? 32 then None
    else '(str, rest) ← scan_string r; Some (String c str, rest)
  end.

Fixpoint scan_digits (s : string) (acc : Z) : Z * string :=
  match s with
  | EmptyString => (acc, s)
  | String c r =>
    match digit_val c with
    | Some d => scan_digits r (10 * acc + d)
    | None => (acc, s)
    end
  end.

(** [NUMBER_RE] without fraction and exponent: [0|[1-9][0-9]*]. *)
Definition scan_nat (s : string) : option (Z * string) :=
  match s with
  | EmptyString => None
  | String c r =>
    match digit_val c with
    | Some 0 => Some (0, r)
    | Some _ => Some (scan_digits s 0)
    | None => None
    end
  end.

Definition float_ahead (s : string) : bool :=
  match s with
  | String c _ => Ascii.eqb c "." || Ascii.eqb c "e" || Ascii.eqb c "E"
  | EmptyString => false
  end.

Definition scan_number (s : string) : option (json * string) :=
  '(n, rest) ←
    match s with
    | String "-" r => '(n, rest) ← scan_nat r; Some (- n, rest)
    | _ => scan_nat s
    end;
  if float_ahead rest then None else Some (JInt n, rest).

Definition literal (word : string) (v : json) (s : string)
  : option (json * string) :=
  if String.prefix word s
  then Some (v, String.substring (String.length word)
                  (String.length s - String.length word) s)
  else None.

Fixpoint value (fuel : nat) (s : string) : option (json * string) :=
  match fuel with
  | O => None
  | S fuel' =>
    match skip_ws s with
    | EmptyString => None
    | String c r =>
      if Ascii.eqb c dquote then
        '(str, rest) ← scan_string r; Some (JStr str, rest)
      else if Ascii.eqb c "[" then
        match skip_ws r with
        | String "]" rest => Some (JList [], rest)
        | r1 => elements fuel' r1 []
        end
      else if Ascii.eqb c "{" then
        match skip_ws r with
        | String "}" rest => Some (JDict [], rest)
        | r1 => members fuel' r1 []
        end
      else if Ascii.eqb c "n" then literal "null" JNull (String c r)
      else if Ascii.eqb c "t" then literal "true" (JBool true) (String c r)
      else if Ascii.eqb c "f" then literal "false" (JBool false) (String c r)
      else scan_number (String c r)
    end
  end
with elements (fuel : nat) (s : string) (acc : list json)
  : option (json * string) :=
  match fuel with
  | O => None
  | S fuel' =>
    '(v, r) ← value fuel' s;
    match skip_ws r with
    | String "," rest => elements fuel' rest (v :: acc)
    | String "]" rest => Some (JList (rev (v :: acc)), rest)
    | _ => None
    end
  end
with members (fuel : nat) (s : string) (acc : list (string * json))
  : option (json * string) :=
  match fuel with
  | O => None
  | S fuel' =>
    match skip_ws s with
    | String q r =>
      if Ascii.eqb q dquote then
        '(k, r1) ← scan_string r;
        match skip_ws r1 with
        | String ":" r2 =>
          '(v, r3) ← value fuel' r2;
          match skip_ws r3 with
          | String "," rest => members fuel' rest (dict_set k v acc)
          | String "}" rest => Some (JDict (dict_set k v acc), rest)
          | _ => None
          end
        | _ => None
        end
      else None
    | EmptyString => None
    end
  end.

(** [json.loads(s)]; [None] stands for [JSONDecodeError]. *)
Definition loads (s : string) : option json :=
  '(j, rest) ← value (2 * String.length s + 2) s;
  match skip_ws rest with
  | EmptyString => Some j
  | _ => None
  end.

End Json.

(** * [pathlib] paths and [_sanitize] (src/core_sig/client.py, lines 26-28) *)

Module PathLib.

(** A pure POSIX path is the list of its parts; an absolute path starts with
    the part ["/"]. *)
Definition Path := list string.

Fixpoint split_slash (s cur : string) : list string :=
  match s with
  | EmptyString => [cur]
  | String c r =>
    if Ascii.eqb c "/" then cur :: split_slash r ""
    else split_slash r (cur +:+ String c "")
  end.

(** Parsing drops empty parts and ["."]; [".."] is kept. *)
Definition parts (s : string) : Path :=
  filter (λ p, p ≠ ""%string ∧ p ≠ "."%string) (split_slash s "").

Definition is_absolute (s : string) : bool := String.prefix "/" s.

(** [p / s] *)
Definition joinpath (p : Path) (s : string) : Path :=
  if is_absolute s then "/"%string :: parts s else p ++ parts s.

(** [Path(s)] *)
Definition of_string (s : string) : Path := joinpath [] s.

(** [p.parent], for a path with at least one part. *)
Definition parent (p : Path) : Path := removelast p.

End PathLib.

Notation "p // s" := (PathLib.joinpath p s) (at level 40, left associativity).

Definition map_string (f : ascii → ascii) : string → string :=
  fix go s :=
    match s with
    | EmptyString => EmptyString
    | String c r => String (f c) (go r)
    end.

Definition in_range (lo hi : Z) (c : ascii) : bool :=
  let n := Z.of_nat (nat_of_ascii c) in (lo <=? n) && (n <=? hi).

Fixpoint string_forall (P : ascii → bool) (s : string) : bool :=
  match s with
  | EmptyString => true
  | String c r => P c && string_forall P r
  end.

Definition not_slash (c : ascii) : bool := negb (Ascii.eqb c "/").

(** The characters of a hex digest. *)
Definition hex_char (c : ascii) : bool := in_range 48 57 c || in_range 97 102 c.

(** The character class [[A-Za-z0-9_.-]]. *)
Definition safe_char (c : ascii) : bool :=
  in_range 65 90 c || in_range 97 122 c || in_range 48 57 c
  || Ascii.eqb c "_" || Ascii.eqb c "." || Ascii.eqb c "-".

(** [re.sub(r'[^A-Za-z0-9_.-]', '_', s)] *)
Definition _sanitize (s : string) : string :=
  map_string (λ c, if safe_char c then c else "_"%char) s.

(** [s.lstrip("/")], [s.rstrip("/")], [s.strip("/")], [s.replace("/", "_")] *)
Fixpoint lstrip_slash (s : string) : string :=
  match s with
  | String c r => if Ascii.eqb c "/" then lstrip_slash r else s
  | EmptyString => s
  end.

Fixpoint rstrip_slash (s : string) : string :=
  match s with
  | String c r =>
    let r' := rstrip_slash r in
    if Ascii.eqb c "/" && String.eqb r' "" then EmptyString else String c r'
  | EmptyString => s
  end.

Definition strip_slash (s : string) : string := rstrip_slash (lstrip_slash s).

Definition replace_slash (s : string) : string :=
  map_string (λ c, if Ascii.eqb c "/" then "_"%char else c) s.

(** * The world the clients run in

    The clock, the files of the cache directory, the upstream API and a log
    of what the client did to them. *)

Record file := mkfile {
  st_mtime : Z;
  content : string
}.

(** What the upstream API answers to one HTTP call: a response, or no
    response at all (timeout, connection reset: [httpx.RequestError],
    [requests.exceptions.RequestException]). *)
Inductive reply :=
| Response (status_code : Z) (headers : list (string * string)) (text : string)
| NoResponse.

Inductive event :=
| Slept (d : Z)
| Sent (method url : string)
| Wrote (path : PathLib.Path).

Record world := mkworld {
  (** [time.time()] / [datetime.now()] *)
  clock : Z;
  files : gmap (list string) file;
  (** Paths [open(path, "w")] succeeds on. *)
  writable : list string → bool;
  (** The answer to the k-th HTTP call of this run. *)
  upstream : nat → reply;
  (** Number of HTTP calls sent so far. *)
  calls : nat;
  trace : list event
}.

Inductive exn :=
| HTTPStatusError (code : Z)
| RequestError
| JSONDecodeError
| RetryError (last : exn)
| ValueError
| IndexError
| RuntimeError.

(** A call returns, raises, or never returns. *)
Inductive result (A : Type) :=
| Ok (a : A)
| Raise (e : exn)
| Hang.
Arguments Ok {A} a.
Arguments Raise {A} e.
Arguments Hang {A}.

Definition M (St A : Type) : Type := St → result A * St.

#[global] Instance M_ret {St} : MRet (M St) := λ A a s, (Ok a, s).

#[global] Instance M_bind {St} : MBind (M St) := λ A B k m s,
  match m s with
  | (Ok a, s') => k a s'
  | (Raise e, s') => (Raise e, s')
  | (Hang, s') => (Hang, s')
  end.

Definition raise {St A} (e : exn) : M St A := λ s, (Raise e, s).
Definition hang {St A} : M St A := λ s, (Hang, s).

(** [try: m  except <matching e>: h e] *)
Definition catch {St A} (m : M St A) (h : exn → M St A) : M St A :=
  λ s, match m s with
       | (Raise e, s') => h e s'
       | r => r
       end.

Definition gets {St A} (f : St → A) : M St A := λ s, (Ok (f s), s).
Definition modify {St} (f : St → St) : M St unit := λ s, (Ok tt, f s).

(** ** Primitive effects on the world *)

Definition set_clock (t : Z) (w : world) : world :=
  mkworld t (files w) (writable w) (upstream w) (calls w) (trace w).
Definition set_files (fs : gmap (list string) file) (w : world) : world :=
  mkworld (clock w) fs (writable w) (upstream w) (calls w) (trace w).
Definition log_event (e : event) (w : world) : world :=
  mkworld (clock w) (files w) (writable w) (upstream w) (calls w) (trace w ++ [e]).
Definition count_call (w : world) : world :=
  mkworld (clock w) (files w) (writable w) (upstream w) (S (calls w)) (trace w).

(** [time.sleep(d)] / [await asyncio.sleep(d)] *)
Definition sleep (d : Z) : M world unit :=
  modify (λ w, log_event (Slept d) (set_clock (clock w + d) w)).

(** One HTTP call: the next answer of the upstream API. *)
Definition send (method url : string) : M world reply :=
  λ w, (Ok (upstream w (calls w)), log_event (Sent method url) (count_call w)).

(** [open(path, "w").write(text)]: [false] when the file cannot be opened. *)
Definition write_text (path : PathLib.Path) (text : string) : M world bool :=
  λ w, if writable w path
       then (Ok true,
             log_event (Wrote path)
               (set_files (<[path := mkfile (clock w) text]> (files w)) w))
       else (Ok false, w).

(** ** [tenacity.retry]

    [wait_exponential(multiplier=1, min=1, max=10)] after the attempt with
    number [n]: [max(max(0, min), min(multiplier * 2 ** (n - 1), max))]
    seconds. *)
Definition wait_exponential (multiplier lo hi : Z) (attempt_number : Z) : Z :=
  Z.max (Z.max 0 lo) (Z.min (multiplier * 2 ^ (attempt_number - 1)) hi).

(** [@retry(stop=stop_after_attempt(n), wait=..., retry=retry_if_exception_type(..))]:
    an attempt that raises a matching exception is repeated after the wait,
    the n-th such failure raises [RetryError]; anything else passes through. *)
Fixpoint retrying {St A} (zoom : M world unit → M St unit)
    (remaining : nat) (attempt_number : Z)
    (retry_if : exn → bool) (wait : Z → Z) (body : M St A) : M St A :=
  catch body (λ e,
    if retry_if e then
      match remaining with
      | O => raise (RetryError e)
      | S remaining' =>
        zoom (sleep (seconds (wait attempt_number)));;
        retrying zoom remaining' (attempt_number + 1) retry_if wait body
      end
    else raise e).

Definition retry {St A} (zoom : M world unit → M St unit)
    (stop_after_attempt : nat)
    (retry_if : exn → bool) (wait : Z → Z) (body : M St A) : M St A :=
  retrying zoom (stop_after_attempt - 1) 1 retry_if wait body.

(** [200 <= status_code <= 299]: [Response.is_success], the responses
    [raise_for_status()] lets through. *)
Definition is_success (code : Z) : bool := (200 <=? code) && (code <=? 299).

(** * Python built-ins the clients use on parsed JSON and on strings *)

Module Builtins.
Import Json.

(** [d.get(key)]; [key in d] is [dict_get key d ≠ None]. *)
Fixpoint dict_get (key : string) (d : list (string * json)) : option json :=
  match d with
  | [] => None
  | (k, v) :: d' => if String.eqb k key then Some v else dict_get key d'
  end.

(** [isinstance(x, dict)] *)
Definition is_dict (x : json) : bool :=
  match x with JDict _ => true | _ => false end.

(** [x[:n]] followed by iteration: the first [n] items of a list, the first
    [n] characters of a [str], each a [str] of its own; [None] stands for the
    [TypeError] (or [KeyError]) slicing anything else raises. *)
Definition slice_to (n : nat) (x : json) : option (list json) :=
  match x with
  | JList l => Some (take n l)
  | JStr s => Some (map (λ c, JStr (String c "")) (take n (list_ascii_of_string s)))
  | _ => None
  end.

(** [x[0]] on a truthy value: the first item of a list, the first character
    of a [str]; a [dict] read from JSON has no key [0] ([KeyError]), and a
    number cannot be indexed ([TypeError]). *)
Inductive index_error := KeyError | TypeError.

Definition first_item (x : json) : index_error + json :=
  match x with
  | JList (item :: _) => inr item
  | JStr (String c _) => inr (JStr (String c ""))
  | JDict _ => inl KeyError
  | _ => inl TypeError
  end.

(** [str.isspace] on one character below 256. *)
Definition isspace (c : ascii) : bool :=
  let n := Z.of_nat (nat_of_ascii c) in
  ((9 <=? n) && (n <=? 13)) || ((28 <=? n) && (n <=? 32))
  || (n =? 133) || (n =? 160).

Fixpoint lstrip (s : string) : string :=
  match s with
  | String c r => if isspace c then lstrip r else s
  | EmptyString => s
  end.

Fixpoint rstrip (s : string) : string :=
  match s with
  | String c r =>
    let r' := rstrip r in
    if isspace c && String.eqb r' "" then EmptyString else String c r'
  | EmptyString => s
  end.

(** [s.strip()] *)
Definition strip (s : string) : string := rstrip (lstrip s).

End Builtins.

(** * [EnhancedCoreSignalClient] (src/try/enhanced_client.py, lines 42-168) *)

Module EnhancedCoreSignalClient.
Import Json.

(** src/try/config.py *)
Definition API_BASE_URL : string := "https://api.coresignal.com".

Record t := mk {
  api_key : string;
  cache_dir : PathLib.Path;
  cache_ttl : Z;
  rate_limiter : RateLimiter.t;
  (** [client_config]: timeout, connection limit, headers *)
  timeout : Z;
  max_connections : Z;
  headers : list (string * string)
}.

(** [cache_dir.mkdir(exist_ok=True, parents=True)] leaves the files of the
    cache alone; directories are implicit in [files]. *)
Definition __init__ (api_key : string) (cache_dir : PathLib.Path)
    (cache_ttl_days : Z) (max_concurrent : Z) : t :=
  {| api_key := api_key;
     cache_dir := cache_dir;
     cache_ttl := days cache_ttl_days;
     rate_limiter := RateLimiter.__init__ max_concurrent (seconds 1);
     timeout := seconds 30;
     max_connections := max_concurrent;
     headers := [("Authorization", "Bearer " +:+ api_key)]%string |}.

(** The client object and the world it acts on. *)
Record state := mkstate {
  client : t;
  env : world
}.

Definition set_rate_limiter (rl : RateLimiter.t) (s : state) : state :=
  let c := client s in
  mkstate (mk (api_key c) (cache_dir c) (cache_ttl c) rl
              (timeout c) (max_connections c) (headers c)) (env s).

Definition lift {A} (m : M world A) : M state A :=
  λ s, let '(r, w') := m (env s) in (r, mkstate (client s) w').

Definition _get_cache_key (endpoint : string) (params : json) : string :=
  let key_data := endpoint +:+ ":" +:+ dumps_sorted params in
  Md5.hexdigest key_data.

Definition _get_cache_path (self : t) (cache_key : string) : PathLib.Path :=
  cache_dir self // (cache_key +:+ ".json").

Definition _is_cache_valid (cache_path : PathLib.Path) : M state bool :=
  self ← gets client;
  w ← gets env;
  match files w !! cache_path with
  | None => mret false
  | Some f => mret (bool_decide (clock w - st_mtime f < cache_ttl self))
  end.

(** [None], Python's value for JSON [null], is also what a failed read
    returns. *)
Definition _load_from_cache (cache_path : PathLib.Path) : M state json :=
  w ← gets env;
  match files w !! cache_path with
  | Some f =>
    match loads (content f) with
    | Some data => mret data
    | None => mret JNull
    end
  | None => mret JNull
  end.

Definition _save_to_cache (cache_path : PathLib.Path) (data : json)
  : M state unit :=
  lift (write_text cache_path (dumps_indent 2 data));; mret tt.

(** [await self.rate_limiter.acquire()]; the recursion of [acquire] is one
    level deep at most. *)
Definition acquire : M state unit :=
  λ s,
    match RateLimiter.acquire 2 (rate_limiter (client s)) (clock (env s)) with
    | RateLimiter.Acquired rl => (Ok tt, set_rate_limiter rl s)
    | RateLimiter.Blocked rl => (Hang, set_rate_limiter rl s)
    | RateLimiter.Raised RateLimiter.IndexError rl =>
      (Raise IndexError, set_rate_limiter rl s)
    | RateLimiter.Raised RateLimiter.RuntimeError rl =>
      (Raise RuntimeError, set_rate_limiter rl s)
    | RateLimiter.OutOfFuel => (Hang, s)
    end.

(** [except httpx.HTTPStatusError as e] *)
Definition on_status_error (code : Z) : M state json :=
  if (code =? 401) || (code =? 403) then mret JNull
  else if code =? 404 then mret JNull
  else raise (HTTPStatusError code).

(** The body of [_make_request]: one attempt. *)
Definition attempt (method endpoint : string) : M state json :=
  acquire;;
  let url := API_BASE_URL +:+ endpoint in
  r ← lift (send method url);
  match r with
  | NoResponse => raise RequestError
  | Response code _ body =>
    if code =? 404 then mret JNull
    else if code =? 429 then
      lift (sleep (seconds 60));; on_status_error code
    else if is_success code then
      match loads body with
      | Some data => mret data
      | None => raise JSONDecodeError
      end
    else on_status_error code
  end.

Definition retry_if (e : exn) : bool :=
  match e with
  | RequestError | HTTPStatusError _ => true
  | _ => false
  end.

Definition _make_request (method endpoint : string) : M state json :=
  retry lift 3 retry_if (wait_exponential 1 1 10) (attempt method endpoint).

(** The network path of [get] and [post]: ask the API and keep a truthy
    answer. *)
Definition fetch (method endpoint : string) (cache_path : PathLib.Path)
  : M state json :=
  data ← _make_request method endpoint;
  if truthy data
  then _save_to_cache cache_path data;; mret data
  else mret data.

(** The body [get] and [post] share: look in the cache, else take the
    network path. *)
Definition cached (method endpoint : string) (params : json) : M state json :=
  self ← gets client;
  let cache_key := _get_cache_key endpoint params in
  let cache_path := _get_cache_path self cache_key in
  valid ← _is_cache_valid cache_path;
  if (valid : bool) then
    data ← _load_from_cache cache_path;
    if truthy data then mret data else fetch method endpoint cache_path
  else fetch method endpoint cache_path.

(** [params or {}] *)
Definition params_or_empty (params : option json) : json :=
  match params with
  | Some p => if truthy p then p else JDict []
  | None => JDict []
  end.

Definition get (endpoint : string) (params : option json) : M state json :=
  let params := params_or_empty params in
  cached "get" endpoint params.

Definition post (endpoint : string) (json_data : json) : M state json :=
  cached "post" endpoint json_data.

(** A logical call of the client, as the search methods issue them. *)
Inductive call :=
| Get (endpoint : string) (params : option json)
| Post (endpoint : string) (json_data : json).

Definition perform (c : call) : M state json :=
  match c with
  | Get endpoint params => get endpoint params
  | Post endpoint json_data => post endpoint json_data
  end.

Definition method_of (c : call) : string :=
  match c with Get _ _ => "get" | Post _ _ => "post" end.

Definition endpoint_of (c : call) : string :=
  match c with Get endpoint _ | Post endpoint _ => endpoint end.

(** The parameters that go into the cache key. *)
Definition params_of (c : call) : json :=
  match c with
  | Get _ params => params_or_empty params
  | Post _ json_data => json_data
  end.

(** The cache file of a call. *)
Definition cache_path_of (self : t) (c : call) : PathLib.Path :=
  _get_cache_path self (_get_cache_key (endpoint_of c) (params_of c)).

(** The state an HTTP call leaves. *)
Definition sent_state (method url : string) (s : state) : state :=
  mkstate (client s) (log_event (Sent method url) (count_call (env s))).

(** What no step of the client changes, except the cache write at the end
    of a call. *)
Record frame (s s' : state) : Prop := {
  f_dir : cache_dir (client s') = cache_dir (client s);
  f_ttl : cache_ttl (client s') = cache_ttl (client s);
  f_files : files (env s') = files (env s);
  f_writable : writable (env s') = writable (env s);
  f_upstream : upstream (env s') = upstream (env s);
  f_calls : (calls (env s) ≤ calls (env s'))%nat
}.

(** The limiter lets the next call through. *)
Definition granted (s : state) (rl : RateLimiter.t) : Prop :=
  RateLimiter.acquire 2 (rate_limiter (client s)) (clock (env s))
  = RateLimiter.Acquired rl.

(** ** The search methods (lines 171-197)

    [ENDPOINTS[name].format(...)] fills the one replacement field of the
    template, which ends it. *)

(** The exception [result.get] raises on a value that is not a [dict]. *)
Inductive search_error := AttributeError.

(** [result.get("results", []) if result else []] *)
Definition results_of (result : json) : search_error + json :=
  if truthy result then
    match result with
    | JDict d => inr (default (JList []) (Builtins.dict_get "results" d))
    | _ => inl AttributeError
    end
  else inr (JList []).

Definition search_person_by_email (email : string)
  : M state (search_error + json) :=
  let endpoint := "/v1/people/search?email=" +:+ email in
  result ← get endpoint None;
  result ← (if truthy result then mret result
            else post "/v2/person/search" (JDict [("email", JStr email)]%string));
  mret (results_of result).

Definition search_person_by_linkedin_url (linkedin_url : string)
  : M state (search_error + json) :=
  let endpoint := "/v1/people/search?url=" +:+ linkedin_url in
  result ← get endpoint None;
  mret (results_of result).

Definition search_person_by_shorthand (shorthand : string)
  : M state (search_error + json) :=
  let endpoint := "/v1/people/search?shorthand_name=" +:+ shorthand in
  result ← get endpoint None;
  mret (results_of result).

Definition search_company_by_name (company_name : string)
  : M state (search_error + json) :=
  result ← get "/v1/organizations/search"
             (Some (JDict [("name", JStr company_name)]%string));
  result ← (if truthy result then mret result
            else post "/v2/company/search"
                   (JDict [("name", JStr company_name)]%string));
  mret (results_of result).

Definition search_company_by_domain (domain : string)
  : M state (search_error + json) :=
  let endpoint := "/v1/organizations/search?domain=" +:+ domain in
  result ← get endpoint None;
  mret (results_of result).


(** The five searches, the [get] each starts with and the [post] two of them
    fall back on. *)
Inductive query :=
| PersonByEmail (email : string)
| PersonByLinkedinUrl (linkedin_url : string)
| PersonByShorthand (shorthand : string)
| CompanyByName (company_name : string)
| CompanyByDomain (domain : string).

Definition run_query (q : query) : M state (search_error + json) :=
  match q with
  | PersonByEmail email => search_person_by_email email
  | PersonByLinkedinUrl linkedin_url => search_person_by_linkedin_url linkedin_url
  | PersonByShorthand shorthand => search_person_by_shorthand shorthand
  | CompanyByName company_name => search_company_by_name company_name
  | CompanyByDomain domain => search_company_by_domain domain
  end.

Definition first_call (q : query) : call :=
  match q with
  | PersonByEmail email => Get ("/v1/people/search?email=" +:+ email) None
  | PersonByLinkedinUrl linkedin_url =>
    Get ("/v1/people/search?url=" +:+ linkedin_url) None
  | PersonByShorthand shorthand =>
    Get ("/v1/people/search?shorthand_name=" +:+ shorthand) None
  | CompanyByName company_name =>
    Get "/v1/organizations/search"
      (Some (JDict [("name", JStr company_name)]%string))
  | CompanyByDomain domain =>
    Get ("/v1/organizations/search?domain=" +:+ domain) None
  end.

Definition fallback (q : query) : option call :=
  match q with
  | PersonByEmail email =>
    Some (Post "/v2/person/search" (JDict [("email", JStr email)]%string))
  | CompanyByName company_name =>
    Some (Post "/v2/company/search" (JDict [("name", JStr company_name)]%string))
  | _ => None
  end.

(** The exception one attempt turns an answer into and the decorator repeats
    at once: no response, or an error status other than 404, 401, 403 (which
    return [None]) and 429 (which sleeps first). *)
Definition transient (r : reply) : option exn :=
  match r with
  | NoResponse => Some RequestError
  | Response code _ _ =>
    if is_success code || (code =? 404) || (code =? 401) || (code =? 403)
       || (code =? 429)
    then None
    else Some (HTTPStatusError code)
  end.

(** An answer that makes a call return [None]. *)
Definition refusal (r : reply) : bool :=
  match r with
  | Response code _ _ => (code =? 404) || (code =? 401) || (code =? 403)
  | NoResponse => false
  end.

(** The calls a search can issue, in order. *)
Definition calls_of (q : query) : list call :=
  first_call q :: match fallback q with Some c => [c] | None => [] end.

End EnhancedCoreSignalClient.

(** * [CoreSignalClient] of src/core_sig/client.py (httpx, file cache) *)

Module core_sig_client.
Import Json.

Record t := mk {
  (** [None] when neither the argument nor the environment gives a key. *)
  api_key : option string;
  cache_dir : PathLib.Path;
  cache_ttl : Z;
  headers : list (string * string)
}.

Definition or_else (a b : option string) : option string :=
  match a with
  | Some s => if String.eqb s "" then b else a
  | None => b
  end.

Definition format_key (k : option string) : string :=
  match k with Some s => s | None => "None" end.

(** [API_KEY] is [os.getenv('CORESIGNAL_API_KEY')] of src/stuff/config.py. *)
Definition __init__ (API_KEY : option string) (api_key : option string)
    (cache_dir : string) (cache_ttl_days : Z) : t :=
  let key := or_else api_key API_KEY in
  {| api_key := key;
     cache_dir := PathLib.of_string cache_dir;
     cache_ttl := days cache_ttl_days;
     headers := [("Authorization", "Token " +:+ format_key key)]%string |}.

Definition _cache_path (self : t) (endpoint cache_key : string)
  : PathLib.Path :=
  let safe_ep := _sanitize (replace_slash (strip_slash endpoint)) in
  let safe_key := _sanitize cache_key in
  cache_dir self // safe_ep // (safe_key +:+ ".json").

Definition _is_fresh (self : t) (path : PathLib.Path) : M world bool :=
  w ← gets id;
  match files w !! path with
  | None => mret false
  | Some f => mret (bool_decide (clock w - st_mtime f < cache_ttl self))
  end.

(** [json.load(f)] under [try]: [None] when reading or parsing fails. *)
Definition read_cache (path : PathLib.Path) : M world (option json) :=
  w ← gets id;
  mret (f ← files w !! path; loads (content f)).

(** The network path of [get] and [post]: [raise_for_status()], parse, write
    the cache file if it can be written. *)
Definition fetch (method endpoint : string) (cache_path : PathLib.Path)
  : M world json :=
  r ← send method ("https://api.coresignal.com" +:+ endpoint);
  match r with
  | NoResponse => raise RequestError
  | Response code _ body =>
    if is_success code then
      match loads body with
      | Some data => write_text cache_path (dumps data);; mret data
      | None => raise JSONDecodeError
      end
    else raise (HTTPStatusError code)
  end.

(** The body [get] and [post] share, before the retry decorator. *)
Definition request_once (self : t) (method endpoint cache_key : string)
  : M world json :=
  let cache_path := _cache_path self endpoint cache_key in
  fresh ← _is_fresh self cache_path;
  if (fresh : bool) then
    hit ← read_cache cache_path;
    match hit with
    | Some data => mret data
    | None => fetch method endpoint cache_path
    end
  else fetch method endpoint cache_path.

Definition retry_if (e : exn) : bool :=
  match e with
  | RequestError => true
  | _ => false
  end.

Definition api_url (endpoint : string) : string :=
  "https://api.coresignal.com" +:+ endpoint.

(** The world an HTTP call leaves, and the world a cache write leaves. *)
Definition sent_world (method url : string) (w : world) : world :=
  log_event (Sent method url) (count_call w).

Definition written (path : PathLib.Path) (text : string) (w : world) : world :=
  if writable w path
  then log_event (Wrote path)
         (set_files (<[path := mkfile (clock w) text]> (files w)) w)
  else w.

Definition get (self : t) (endpoint cache_key : string) : M world json :=
  retry id 4 retry_if (wait_exponential 1 1 10)
    (request_once self "get" endpoint cache_key).

Definition post (self : t) (endpoint : string) (json_body : json)
    (cache_key : string) : M world json :=
  retry id 4 retry_if (wait_exponential 1 1 10)
    (request_once self "post" endpoint cache_key).

(** ** Endpoint wrappers (lines 102-133) and [collect_company] (151-158) *)

Definition person_by_email (self : t) (email : string) : M world json :=
  get self ("/v1/people/search?email=" +:+ email) email.

Definition person_profile (self : t) (profile_id : string) : M world json :=
  get self ("/v1/people/" +:+ profile_id) profile_id.

Definition person_skills (self : t) (profile_id : string) : M world json :=
  get self ("/v1/people/" +:+ profile_id +:+ "/skills") ("skills_" +:+ profile_id).

Definition org_core (self : t) (org_id : string) : M world json :=
  get self ("/v1/organizations/" +:+ org_id) ("org_" +:+ org_id).

Definition org_headcount (self : t) (org_id : string) : M world json :=
  get self ("/v1/organizations/" +:+ org_id +:+ "/headcount_monthly")
    ("head_" +:+ org_id).

Definition org_funding (self : t) (org_id : string) : M world json :=
  get self ("/v1/funding_rounds?org_id=" +:+ org_id +:+ "&order=date_desc&limit=1")
    ("fund_" +:+ org_id).

Definition org_tech (self : t) (org_id : string) : M world json :=
  get self ("/v1/organizations/" +:+ org_id +:+ "/technologies")
    ("tech_" +:+ org_id).

Definition org_traffic (self : t) (org_id : string) : M world json :=
  get self ("/v1/organizations/" +:+ org_id +:+ "/web_traffic_monthly")
    ("traffic_" +:+ org_id).

Definition org_jobs (self : t) (org_id date_from : string) : M world json :=
  get self
    ("/v1/organizations/" +:+ org_id +:+ "/job_postings?date_from=" +:+ date_from)
    ("jobs_" +:+ org_id +:+ "_" +:+ date_from).

Definition person_search_v2 (self : t) (email : string) : M world json :=
  post self "/cdapi/v2/member/search/filter"
    (JDict [("email", JStr email)]%string) ("v2_" +:+ email).

(** [asyncio.run(self.org_core(company_id))] under [try]; [except Exception]
    answers every exception, [RetryError] included, with [{}].  The wrapper
    is synchronous: it is called outside a running event loop. *)
Definition collect_company (self : t) (company_id : string) : M world json :=
  catch (org_core self company_id) (λ _, mret (JDict [])).

(** The endpoint wrappers, by the endpoint and the cache key each passes
    on. *)
Inductive wrapper :=
| PersonByEmail (email : string)
| PersonProfile (profile_id : string)
| PersonSkills (profile_id : string)
| OrgCore (org_id : string)
| OrgHeadcount (org_id : string)
| OrgFunding (org_id : string)
| OrgTech (org_id : string)
| OrgTraffic (org_id : string)
| OrgJobs (org_id date_from : string)
| PersonSearchV2 (email : string).

Definition run (self : t) (c : wrapper) : M world json :=
  match c with
  | PersonByEmail email => person_by_email self email
  | PersonProfile profile_id => person_profile self profile_id
  | PersonSkills profile_id => person_skills self profile_id
  | OrgCore org_id => org_core self org_id
  | OrgHeadcount org_id => org_headcount self org_id
  | OrgFunding org_id => org_funding self org_id
  | OrgTech org_id => org_tech self org_id
  | OrgTraffic org_id => org_traffic self org_id
  | OrgJobs org_id date_from => org_jobs self org_id date_from
  | PersonSearchV2 email => person_search_v2 self email
  end.

Definition method_of (c : wrapper) : string :=
  match c with PersonSearchV2 _ => "post" | _ => "get" end.

Definition endpoint_of (c : wrapper) : string :=
  match c with
  | PersonByEmail email => "/v1/people/search?email=" +:+ email
  | PersonProfile profile_id => "/v1/people/" +:+ profile_id
  | PersonSkills profile_id => "/v1/people/" +:+ profile_id +:+ "/skills"
  | OrgCore org_id => "/v1/organizations/" +:+ org_id
  | OrgHeadcount org_id =>
    "/v1/organizations/" +:+ org_id +:+ "/headcount_monthly"
  | OrgFunding org_id =>
    "/v1/funding_rounds?org_id=" +:+ org_id +:+ "&order=date_desc&limit=1"
  | OrgTech org_id => "/v1/organizations/" +:+ org_id +:+ "/technologies"
  | OrgTraffic org_id =>
    "/v1/organizations/" +:+ org_id +:+ "/web_traffic_monthly"
  | OrgJobs org_id date_from =>
    "/v1/organizations/" +:+ org_id +:+ "/job_postings?date_from=" +:+ date_from
  | PersonSearchV2 _ => "/cdapi/v2/member/search/filter"
  end.

Definition cache_key_of (c : wrapper) : string :=
  match c with
  | PersonByEmail email => email
  | PersonProfile profile_id => profile_id
  | PersonSkills profile_id => "skills_" +:+ profile_id
  | OrgCore org_id => "org_" +:+ org_id
  | OrgHeadcount org_id => "head_" +:+ org_id
  | OrgFunding org_id => "fund_" +:+ org_id
  | OrgTech org_id => "tech_" +:+ org_id
  | OrgTraffic org_id => "traffic_" +:+ org_id
  | OrgJobs org_id date_from => "jobs_" +:+ org_id +:+ "_" +:+ date_from
  | PersonSearchV2 email => "v2_" +:+ email
  end.

(** A name of one directory entry that stays where it is put: characters of
    [[A-Za-z0-9_.-]] only, and neither empty nor a dot entry. *)
Definition plain_name (s : string) : Prop :=
  string_forall safe_char s = true
  ∧ s ≠ ""%string ∧ s ≠ "."%string ∧ s ≠ ".."%string.

End core_sig_client.

(** * [CoreSignalClient] of src/coresignal_client.py (requests) *)

Module coresignal_client.

(** src/config.py *)
Record config := mkconfig {
  CORESIGNAL_BASE_URL : string;
  (** [os.getenv("CORESIGNAL_API_KEY", "")] *)
  CORESIGNAL_API_KEY : string;
  RATE_LIMIT_DELAY : Z;
  MAX_RETRIES : nat;
  REQUEST_TIMEOUT : Z
}.

Definition default_config (env_key : string) : config :=
  {| CORESIGNAL_BASE_URL := "https://api.coresignal.com/cdapi/v2";
     CORESIGNAL_API_KEY := env_key;
     RATE_LIMIT_DELAY := seconds 1;
     MAX_RETRIES := 3;
     REQUEST_TIMEOUT := seconds 30 |}.

Record APIStats := mkstats {
  total_calls : Z;
  company_searches : Z;
  company_collects : Z;
  member_searches : Z;
  member_collects : Z;
  cache_hits : Z;
  errors : Z
}.

Record t := mk {
  api_key : string;
  base_url : string;
  session_headers : list (string * string);
  stats : APIStats;
  company_cache : gmap string Json.json;
  member_cache : gmap string Json.json;
  last_request_time : Z
}.

(** [api_key or CORESIGNAL_API_KEY], then [if not self.api_key: raise]. *)
Definition __init__ (cfg : config) (api_key : option string) : exn + t :=
  let key :=
    match api_key with
    | Some s => if String.eqb s "" then CORESIGNAL_API_KEY cfg else s
    | None => CORESIGNAL_API_KEY cfg
    end in
  if String.eqb key "" then inl ValueError
  else inr {| api_key := key;
              base_url := CORESIGNAL_BASE_URL cfg;
              session_headers :=
                [("apikey", key); ("Content-Type", "application/json");
                 ("Accept", "application/json")]%string;
              stats := mkstats 0 0 0 0 0 0 0;
              company_cache := ∅;
              member_cache := ∅;
              last_request_time := 0 |}.

Record state := mkstate {
  client : t;
  env : world
}.

Definition lift {A} (m : M world A) : M state A :=
  λ s, let '(r, w') := m (env s) in (r, mkstate (client s) w').

Definition set_last_request_time (x : Z) (s : state) : state :=
  let c := client s in
  mkstate (mk (api_key c) (base_url c) (session_headers c) (stats c)
              (company_cache c) (member_cache c) x) (env s).

Definition set_stats (st : APIStats) (s : state) : state :=
  let c := client s in
  mkstate (mk (api_key c) (base_url c) (session_headers c) st
              (company_cache c) (member_cache c) (last_request_time c)) (env s).

Definition count_total_call (st : APIStats) : APIStats :=
  mkstats (total_calls st + 1) (company_searches st) (company_collects st)
          (member_searches st) (member_collects st) (cache_hits st) (errors st).

Definition count_error (st : APIStats) : APIStats :=
  mkstats (total_calls st) (company_searches st) (company_collects st)
          (member_searches st) (member_collects st) (cache_hits st)
          (errors st + 1).

Definition _rate_limit (cfg : config) : M state unit :=
  s ← gets id;
  let elapsed := clock (env s) - last_request_time (client s) in
  (if elapsed <? RATE_LIMIT_DELAY cfg
   then lift (sleep (RATE_LIMIT_DELAY cfg - elapsed))
   else mret tt);;
  now ← gets (λ s, clock (env s));
  modify (set_last_request_time now).

(** What [_make_request] hands back: the response received, or the empty
    [requests.Response()] whose [status_code] is [None]. *)
Inductive requests_Response :=
| Received (status_code : Z) (headers : list (string * string)) (text : string)
| Empty.

Definition lower (s : string) : string :=
  map_string (λ c, if in_range 65 90 c
                   then ascii_of_nat (nat_of_ascii c + 32) else c) s.

(** [response.headers.get(name)]: header names compare without case. *)
Fixpoint header (name : string) (hs : list (string * string)) : option string :=
  match hs with
  | [] => None
  | (k, v) :: hs' =>
    if String.eqb (lower k) (lower name) then Some v else header name hs'
  end.

(** [int(s)] on a header value: optional blanks, an optional sign, decimal
    digits; [None] stands for [ValueError]. *)
Definition all_digits (s : string) : bool :=
  negb (String.eqb s "")
  && forallb (λ c, in_range 48 57 c) (list_ascii_of_string s).

Fixpoint rstrip_ws (s : string) : string :=
  match s with
  | String c r =>
    let r' := rstrip_ws r in
    if Json.is_ws c && String.eqb r' "" then EmptyString else String c r'
  | EmptyString => s
  end.

Definition int (s : string) : option Z :=
  let s := rstrip_ws (Json.skip_ws s) in
  match s with
  | String "-" r =>
    if all_digits r then Some (- fst (Json.scan_digits r 0)) else None
  | String "+" r =>
    if all_digits r then Some (fst (Json.scan_digits r 0)) else None
  | _ => if all_digits s then Some (fst (Json.scan_digits s 0)) else None
  end.

(** [time.sleep(n)] for [n] seconds read from outside: a negative length
    raises [ValueError]. *)
Definition time_sleep (n : Z) : M state unit :=
  if n <? 0 then raise ValueError else lift (sleep (seconds n)).

(** Past the loop: [self.stats.errors += 1; return requests.Response()]. *)
Definition fail_request : M state requests_Response :=
  modify (λ s, set_stats (count_error (stats (client s))) s);;
  mret Empty.

(** [for attempt in range(MAX_RETRIES)], from iteration [attempt] on with
    [remaining] iterations to go.  [continue] is the recursive call,
    [break] is [fail_request]. *)
Fixpoint attempts (cfg : config) (method url : string)
    (remaining : nat) (attempt : Z) : M state requests_Response :=
  match remaining with
  | O => fail_request
  | S remaining' =>
    let continue := attempts cfg method url remaining' (attempt + 1) in
    let backoff : M state requests_Response :=
      if attempt <? Z.of_nat (MAX_RETRIES cfg) - 1
      then lift (sleep (seconds (2 ^ attempt)));; continue
      else fail_request in
    _rate_limit cfg;;
    r ← lift (send method url);
    match r with
    | NoResponse => backoff
    | Response code hs text =>
      modify (λ s, set_stats (count_total_call (stats (client s))) s);;
      if code =? 200 then mret (Received code hs text)
      else if code =? 422 then fail_request
      else if code =? 429 then
        match header "Retry-After" hs with
        | Some v =>
          match int v with
          | Some retry_after => time_sleep retry_after;; continue
          | None => raise ValueError
          end
        | None => time_sleep 60;; continue
        end
      else if code =? 401 then fail_request
      else backoff
    end
  end.

Definition _make_request (cfg : config) (method endpoint : string)
  : M state requests_Response :=
  self ← gets client;
  let url := base_url self +:+ endpoint in
  attempts cfg method url (MAX_RETRIES cfg) 0.

(** The states the steps of the loop leave: after [_rate_limit], after a
    sleep, after the HTTP call, after counting the call, after counting an
    error. *)
Definition rate_limited (cfg : config) (s : state) : state :=
  let elapsed := clock (env s) - last_request_time (client s) in
  let w :=
    if elapsed <? RATE_LIMIT_DELAY cfg
    then log_event (Slept (RATE_LIMIT_DELAY cfg - elapsed))
           (set_clock (clock (env s) + (RATE_LIMIT_DELAY cfg - elapsed)) (env s))
    else env s in
  set_last_request_time (clock w) (mkstate (client s) w).

Definition slept (d : Z) (s : state) : state :=
  mkstate (client s) (log_event (Slept d) (set_clock (clock (env s) + d) (env s))).

Definition requested (method url : string) (s : state) : state :=
  mkstate (client s) (log_event (Sent method url) (count_call (env s))).

Definition counted (s : state) : state :=
  set_stats (count_total_call (stats (client s))) s.

Definition failed (s : state) : state :=
  set_stats (count_error (stats (client s))) s.

(** [continue] or [break] after the waiting time of iteration [attempt]. *)
Definition backoff (cfg : config) (method url : string) (remaining : nat)
    (attempt : Z) (s : state) : result requests_Response * state :=
  if attempt <? Z.of_nat (MAX_RETRIES cfg) - 1
  then attempts cfg method url remaining (attempt + 1)
         (slept (seconds (2 ^ attempt)) s)
  else (Ok Empty, failed s).

(** ** Searches and details (lines 114-279)

    The company and the member methods are the same code over their own
    cache, counters, endpoints and file names. *)

Import Json.

Inductive kind := Company | Member.

(** src/config.py, [ENDPOINTS] *)
Definition search_endpoint (k : kind) : string :=
  match k with
  | Company => "/company_base/search/filter"
  | Member => "/member/search/filter"
  end.

Definition collect_endpoint (k : kind) : string :=
  match k with
  | Company => "/company_base/collect"
  | Member => "/member/collect"
  end.

(** [f"company_{company_id}.json"], [f"member_{member_id}.json"] *)
Definition details_file (k : kind) (id : string) : PathLib.Path :=
  PathLib.of_string
    (match k with Company => "company_" | Member => "member_" end
     +:+ id +:+ ".json").

Definition cache_of (k : kind) (self : t) : gmap string json :=
  match k with
  | Company => company_cache self
  | Member => member_cache self
  end.

(** [self.company_cache[key] = v], [self.member_cache[key] = v] *)
Definition cache_insert (k : kind) (key : string) (v : json) (s : state) : state :=
  let c := client s in
  match k with
  | Company =>
    mkstate (mk (api_key c) (base_url c) (session_headers c) (stats c)
                (<[key := v]> (company_cache c)) (member_cache c)
                (last_request_time c)) (env s)
  | Member =>
    mkstate (mk (api_key c) (base_url c) (session_headers c) (stats c)
                (company_cache c) (<[key := v]> (member_cache c))
                (last_request_time c)) (env s)
  end.

Definition count_cache_hit (st : APIStats) : APIStats :=
  mkstats (total_calls st) (company_searches st) (company_collects st)
          (member_searches st) (member_collects st) (cache_hits st + 1)
          (errors st).

Definition count_search (k : kind) (st : APIStats) : APIStats :=
  match k with
  | Company =>
    mkstats (total_calls st) (company_searches st + 1) (company_collects st)
            (member_searches st) (member_collects st) (cache_hits st) (errors st)
  | Member =>
    mkstats (total_calls st) (company_searches st) (company_collects st)
            (member_searches st + 1) (member_collects st) (cache_hits st) (errors st)
  end.

Definition count_collect (k : kind) (st : APIStats) : APIStats :=
  match k with
  | Company =>
    mkstats (total_calls st) (company_searches st) (company_collects st + 1)
            (member_searches st) (member_collects st) (cache_hits st) (errors st)
  | Member =>
    mkstats (total_calls st) (company_searches st) (company_collects st)
            (member_searches st) (member_collects st + 1) (cache_hits st) (errors st)
  end.

Definition with_stats (f : APIStats → APIStats) (s : state) : state :=
  set_stats (f (stats (client s))) s.

(** A [Union[str, int]] argument; [bool] is a subclass of [int]. *)
Inductive ident := Int (n : Z) | Bool (b : bool) | Str (s : string).

(** [not company_id] *)
Definition ident_falsy (id : ident) : bool :=
  match id with
  | Int n => n =? 0
  | Bool b => negb b
  | Str s => String.eqb s ""
  end.

(** [str(company_id)] *)
Definition str (id : ident) : string :=
  match id with
  | Int n => encode_int n
  | Bool true => "True"
  | Bool false => "False"
  | Str s => s
  end.

(** [response.status_code == 200] *)
Definition is_200 (response : requests_Response) : bool :=
  match response with
  | Received code _ _ => code =? 200
  | Empty => false
  end.

(** [response.json()]; [None] when it raises. *)
Definition response_json (response : requests_Response) : option json :=
  match response with
  | Received _ _ text => loads text
  | Empty => None
  end.

(** [get_company_details], [get_member_details].  [None], Python's value for
    JSON [null], is what every failure returns; an exception of
    [_make_request] passes through. *)
Definition get_details (k : kind) (cfg : config) (id : ident) : M state json :=
  if ident_falsy id then mret JNull
  else
    let id := str id in
    self ← gets client;
    match cache_of k self !! id with
    | Some v => modify (with_stats count_cache_hit);; mret v
    | None =>
      let endpoint := collect_endpoint k +:+ "/" +:+ id in
      response ← _make_request cfg "GET" endpoint;
      modify (with_stats (count_collect k));;
      if is_200 response then
        match response_json response with
        | Some data =>
          ok ← lift (write_text (details_file k id) (dumps_indent 2 data));
          if (ok : bool)
          then modify (cache_insert k id data);; mret data
          else mret JNull
        | None => mret JNull
        end
      else mret JNull
    end.

Definition get_company_details := get_details Company.
Definition get_member_details := get_details Member.

(** [collect_company], [collect_person]: aliases. *)
Definition collect_company (cfg : config) (company_id : string) : M state json :=
  get_company_details cfg (Str company_id).
Definition collect_person (cfg : config) (person_id : string) : M state json :=
  get_member_details cfg (Str person_id).

(** [for entry in raw_results]: an [int] is looked up and kept when the
    answer is a [dict], a [dict] is kept, anything else is dropped. *)
Fixpoint resolve (k : kind) (cfg : config) (raw_results results : list json)
  : M state (list json) :=
  match raw_results with
  | [] => mret results
  | entry :: rest =>
    match entry with
    | JInt n =>
      detailed ← get_details k cfg (Int n);
      resolve k cfg rest
        (if Builtins.is_dict detailed then results ++ [detailed] else results)
    | JBool b =>
      detailed ← get_details k cfg (Bool b);
      resolve k cfg rest
        (if Builtins.is_dict detailed then results ++ [detailed] else results)
    | JDict _ => resolve k cfg rest (results ++ [entry])
    | _ => resolve k cfg rest results
    end
  end.

(** [data[:10]] of a list, [data['hits'][:10]] of a dict with that key,
    [[]] otherwise; [None] when the slice raises. *)
Definition raw_results (data : json) : option (list json) :=
  match data with
  | JList l => Some (take 10 l)
  | JDict d =>
    match Builtins.dict_get "hits" d with
    | Some hits => Builtins.slice_to 10 hits
    | None => Some []
    end
  | _ => Some []
  end.

(** The part [search_companies] and [search_members] share, from the cache
    lookup on.  [except Exception] answers what [response.json()], the slice
    and the look-ups raise with [[]]; an exception of the search request
    itself passes through. *)
Definition search (k : kind) (cfg : config) (cache_key : string) : M state json :=
  self ← gets client;
  match cache_of k self !! cache_key with
  | Some v => modify (with_stats count_cache_hit);; mret v
  | None =>
    response ← _make_request cfg "POST" (search_endpoint k);
    modify (with_stats (count_search k));;
    if is_200 response then
      catch
        (match response_json response with
         | Some data =>
           match raw_results data with
           | Some raw =>
             results ← resolve k cfg raw [];
             modify (cache_insert k cache_key (JList results));;
             mret (JList results)
           | None => mret (JList [])
           end
         | None => mret (JList [])
         end)
        (λ _, mret (JList []))
    else mret (JList [])
  end.

(** [search_companies] keys its memory by [f"{name}|{website}"], the arguments
    as given; the payload with the stripped values goes to the API only. *)
Definition search_companies (cfg : config) (name website : string) : M state json :=
  if String.eqb name "" && String.eqb website "" then mret (JList [])
  else search Company cfg (name +:+ "|" +:+ website).

(** The payload of [search_members]; [title] and [location] are not used. *)
Definition members_payload (name experience_company_name : string)
  : list (string * json) :=
  (if String.eqb name "" then []
   else [("name", JStr (Builtins.strip name))]%string)
  ++ (if String.eqb experience_company_name "" then []
      else [("experience_company_name",
             JStr (Builtins.strip experience_company_name))]%string).

Definition search_members (cfg : config)
    (name experience_company_name title location : string) : M state json :=
  let payload := members_payload name experience_company_name in
  let cache_key := dumps_sorted (JDict payload) in
  if truthy (JDict payload) then search Member cfg cache_key
  else mret (JList []).

(** The state a cache hit leaves. *)
Definition hit (s : state) : state := with_stats count_cache_hit s.

(** What [_make_request] leaves alone: the caches, the files, the counters of
    the searches and of the cache hits. *)
Record untouched (s s' : state) : Prop := {
  u_base_url : base_url (client s') = base_url (client s);
  u_company_cache : company_cache (client s') = company_cache (client s);
  u_member_cache : member_cache (client s') = member_cache (client s);
  u_files : files (env s') = files (env s);
  u_writable : writable (env s') = writable (env s);
  u_upstream : upstream (env s') = upstream (env s);
  u_company_searches :
    company_searches (stats (client s')) = company_searches (stats (client s));
  u_company_collects :
    company_collects (stats (client s')) = company_collects (stats (client s));
  u_member_searches :
    member_searches (stats (client s')) = member_searches (stats (client s));
  u_member_collects :
    member_collects (stats (client s')) = member_collects (stats (client s));
  u_cache_hits : cache_hits (stats (client s')) = cache_hits (stats (client s))
}.

(** An answer the loop counts as a failure worth another try: no response,
    or a status other than 200, 422, 429 and 401. *)
Definition retried (r : reply) : bool :=
  match r with
  | NoResponse => true
  | Response code _ _ =>
    negb ((code =? 200) || (code =? 422) || (code =? 429) || (code =? 401))
  end.

(** The state a written file leaves. *)
Definition wrote (path : PathLib.Path) (text : string) (s : state) : state :=
  mkstate (client s)
    (log_event (Wrote path)
       (set_files (<[path := mkfile (clock (env s)) text]> (files (env s)))
          (env s))).

(** [search_company] (lines 158-165) and [search_person] (242-249): the
    first result, or [None]. *)
Definition first_result (results : json) : Builtins.index_error + json :=
  if truthy results then Builtins.first_item results else inr JNull.


Definition search_person (cfg : config) (name experience_company_name : string)
  : M state (Builtins.index_error + json) :=
  results ← search_members cfg name experience_company_name "" "";
  mret (first_result results).

(** What one pass through the loop does before it reads the answer. *)
Record stepped (s s' : state) : Prop := {
  st_untouched : untouched s s';
  st_calls : calls (env s') = S (calls (env s));
  st_clock : clock (env s) <= clock (env s');
  st_errors : errors (stats (client s')) = errors (stats (client s));
  st_total : total_calls (stats (client s')) = total_calls (stats (client s))
}.

End coresignal_client.

(** * [find_best_employee_match] of src/main.py (lines 260-280)

    A caller of the requests client: it tries the name with the company,
    then the name alone, and takes the first search that finds someone. *)

Module main.
Import Json coresignal_client.

(** [search_attempts] *)
Definition search_attempts (full_name company_name : string)
  : list (string * string) :=
  (if negb (String.eqb full_name "") && negb (String.eqb company_name "")
   then [(full_name, company_name)] else [])
  ++ (if negb (String.eqb full_name "") then [(full_name, ""%string)] else []).

(** One pass of the loop body under [try]: the truthy result that ends the
    loop, or [None] to go on; [except Exception] answers every exception by
    going on. *)
Definition try_search (cfg : config) (name company : string)
  : M state (option json) :=
  catch
    (result ← search_person cfg name company;
     match result with
     | inr result => if truthy result then mret (Some result) else mret None
     | inl _ => mret None
     end)
    (λ _, mret None).

Fixpoint first_match (cfg : config) (attempts : list (string * string))
  : M state json :=
  match attempts with
  | [] => mret JNull
  | (name, company) :: rest =>
    found ← try_search cfg name company;
    match found with
    | Some result => mret result
    | None => first_match cfg rest
    end
  end.

Definition find_best_employee_match (cfg : config)
    (full_name company_name : string) : M state json :=
  first_match cfg (search_attempts full_name company_name).

End main.

(** * JSON documents

    The measures the facts about [json.loads(json.dumps(j))] are stated
    with: the size of a document, which bounds the decoder's recursion, and
    the documents whose objects have no key twice, the only ones a Python
    [dict] can hold. *)

Module JsonDocument.
Import Json.

(** The number of values in a document; [json.loads] needs one unit of
    fuel for each. *)
Fixpoint size (j : json) : nat :=
  match j with
  | JList l => S (foldr (λ x n, S (size x) + n)%nat 0%nat l)
  | JDict d => S (foldr (λ kv n, S (size kv.2) + n)%nat 0%nat d)
  | _ => 1
  end.

Definition lsize (l : list json) : nat :=
  foldr (λ x n, S (size x) + n)%nat 0%nat l.

Definition dsize (d : list (string * json)) : nat :=
  foldr (λ kv n, S (size kv.2) + n)%nat 0%nat d.

(** Object keys are unique, at every depth. *)
Fixpoint unique_keys (j : json) : Prop :=
  match j with
  | JList l => foldr (λ x P, unique_keys x ∧ P) True l
  | JDict d => NoDup d.*1 ∧ foldr (λ kv P, unique_keys kv.2 ∧ P) True d
  | _ => True
  end.

(** Text made of white space only. *)
Definition blank (s : string) : Prop := string_forall is_ws s = true.

(** The text after an integer neither continues it nor turns it into a
    float. *)
Definition no_digit_ahead (s : string) : Prop :=
  match s with
  | String c _ => digit_val c = None
  | EmptyString => True
  end.

Definition ok_after_number (rest : string) : Prop :=
  no_digit_ahead rest ∧ float_ahead rest = false.

(** What an encoded value starts with: neither white space nor a closer or
    separator. *)
Definition opener (c : ascii) : Prop :=
  is_ws c = false ∧ c ≠ "]"%char ∧ c ≠ "}"%char ∧ c ≠ ","%char ∧ c ≠ ":"%char.

Definition number_head (c : ascii) : Prop := digit_val c ≠ None ∨ c = "-"%char.

(** [json.loads] reads [x] back from its encoding, whatever follows it. *)
Definition parses_back (indent : option nat) (lvl : nat) (x : json) : Prop :=
  ∀ rest fuel, (size x ≤ fuel)%nat → ok_after_number rest →
    value fuel (encode indent lvl x +:+ rest) = Some (x, rest).

End JsonDocument.

(** * Sample worlds and clients *)

Definition example_world (replies : nat → reply) : world :=
  mkworld 0 ∅ (λ _, true) replies 0 [].

Definition example_client : EnhancedCoreSignalClient.state :=
  EnhancedCoreSignalClient.mkstate
    (EnhancedCoreSignalClient.__init__ "key" ["cache"%string] 7 5)
    (example_world (λ _, NoResponse)).

Definition with_replies (replies : nat → reply) (s : EnhancedCoreSignalClient.state)
  : EnhancedCoreSignalClient.state :=
  let w := EnhancedCoreSignalClient.env s in
  EnhancedCoreSignalClient.mkstate (EnhancedCoreSignalClient.client s)
    (mkworld (clock w) (files w) (writable w) replies (calls w) (trace w)).

Definition with_file (path : PathLib.Path) (f : file)
    (s : EnhancedCoreSignalClient.state) : EnhancedCoreSignalClient.state :=
  let w := EnhancedCoreSignalClient.env s in
  EnhancedCoreSignalClient.mkstate (EnhancedCoreSignalClient.client s)
    (set_files (<[path := f]> (files w)) w).

Definition corrupt_file : file := mkfile 0 "{not json".


Definition sample_body : string :=
  Json.dumps (Json.JDict [("id", Json.JInt 1)]%string).

Definition requests_client : coresignal_client.state :=
  coresignal_client.mkstate
    (coresignal_client.mk "key" "https://api.coresignal.com/cdapi/v2" []
       (coresignal_client.mkstats 0 0 0 0 0 0 0) ∅ ∅ 0)
    (example_world (λ _, NoResponse)).

Definition requests_with_replies (replies : nat → reply)
    (s : coresignal_client.state) : coresignal_client.state :=
  let w := coresignal_client.env s in
  coresignal_client.mkstate (coresignal_client.client s)
    (mkworld (clock w) (files w) (writable w) replies (calls w) (trace w)).

(** * Properties *)

(** ** The rate limiter *)

Section RateLimiterFacts.
Import RateLimiter.

Lemma prune_fresh self now x : x ∈ prune self now → now - x < time_window self.
Proof. unfold prune. rewrite list_elem_of_filter. tauto. Qed.


(** One level of recursion is all [acquire] ever uses: with the lock free
    it prunes, then lets the caller through when there is room, and
    otherwise sleeps and stops for good on its own lock. *)
Lemma acquire_unlocked fuel self now :
  _lock self = false →
  acquire (S (S fuel)) self now =
    let pruned := prune self now in
    if Z.of_nat (length pruned) >=? max_requests self then
      match pruned with
      | [] => Raised IndexError (mk (max_requests self) (time_window self) [] false)
      | _ => Blocked (mk (max_requests self) (time_window self) pruned true)
      end
    else Acquired (mk (max_requests self) (time_window self) (pruned ++ [now]) false).
Proof.
  intros Hl. cbn -[Z.geb Z.gtb prune]. rewrite Hl.
  cbn -[Z.geb Z.gtb prune].
  replace (prune (set_lock true self) now) with (prune self now) by done.
  destruct (Z.of_nat (length (prune self now)) >=? max_requests self); [|done].
  destruct (prune self now) as [|t0 l] eqn:Hp; [done|].
  assert (now - t0 < time_window self) as Hf.
  { apply prune_fresh. rewrite Hp. left. }
  destruct (time_window self - (now - t0) >? 0) eqn:Hs; [done|].
  rewrite Z.gtb_ltb in Hs. apply Z.ltb_ge in Hs. lia.
Qed.

Lemma consistent_later N T self H last last' :
  last <= last' → consistent N T self H last → consistent N T self H last'.
Proof.
  intros Hle [? ? ? Hf ?]. split; try done.
  intros now Hn. apply Hf. lia.
Qed.






End RateLimiterFacts.



(** When the pruned window is full, [acquire] sleeps and then waits for the
    lock it holds: it does not return. *)
Lemma acquire_full_blocks fuel self now :
  RateLimiter._lock self = false →
  RateLimiter.prune self now ≠ [] →
  RateLimiter.max_requests self <= Z.of_nat (length (RateLimiter.prune self now)) →
  RateLimiter.acquire (S (S fuel)) self now =
    RateLimiter.Blocked
      (RateLimiter.mk (RateLimiter.max_requests self) (RateLimiter.time_window self)
         (RateLimiter.prune self now) true).
Proof.
  intros Hl Hne Hfull. rewrite acquire_unlocked by done. cbn zeta.
  destruct (Z.of_nat _ >=? _) eqn:Hg.
  - by destruct (RateLimiter.prune self now).
  - rewrite Z.geb_leb in Hg. apply Z.leb_gt in Hg. lia.
Qed.

(** C3.  [acquire] on a limiter for one request per second that let a call
    through half a second ago: whatever the recursion depth allowed, the call
    is never let through; it ends waiting for [self._lock], which it holds
    itself. *)
Theorem acquire_full_window_never_returns :
  let full := RateLimiter.mk 1 (seconds 1) [0] false in
  (∀ fuel, RateLimiter.acquire (S (S fuel)) full 500000
           = RateLimiter.Blocked (RateLimiter.mk 1 (seconds 1) [0] true))
  ∧ (∀ fuel self', RateLimiter.acquire fuel full 500000
                   ≠ RateLimiter.Acquired self').
Proof.
  split.
  - intros fuel. by rewrite acquire_full_blocks.
  - intros [|[|fuel]] self'; [done|done|].
    by rewrite acquire_full_blocks.
Qed.

(** The scenario of the specification, [max_requests=2, window=1s] and five
    calls at once: two are let through, the third takes the lock for good. *)
Example five_concurrent_calls :
  RateLimiter.run 2 (RateLimiter.__init__ 2 (seconds 1)) [0; 0; 0; 0; 0]
  = (RateLimiter.mk 2 (seconds 1) [0; 0] true, [0; 0]).
Proof. reflexivity. Qed.

(** ** Cache keys and cache paths *)

#[local] Instance key_le_trans : Transitive Json.key_le.
Proof. intros x y z. unfold Json.key_le. apply transitivity. Qed.

#[local] Instance key_le_total : Total Json.key_le.
Proof. intros x y. unfold Json.key_le. apply total, _. Qed.

Lemma sort_items_perm (l l' : list (string * Json.json)) :
  NoDup l.*1 → l ≡ₚ l' → merge_sort Json.key_le l = merge_sort Json.key_le l'.
Proof.
  intros Hnd Hp.
  apply (Sorted_unique_strong Json.key_le).
  - intros x1 x2 H1 H2 Hle1 Hle2.
    rewrite merge_sort_Permutation in H1, H2. rewrite <- Hp in H2.
    assert (x1.1 = x2.1) as Hk by (by apply (anti_symm String.le)).
    destruct x1 as [k1 v1], x2 as [k2 v2]. simpl in Hk. subst k2. f_equal.
    clear -Hnd H1 H2. induction l as [|[k v] l IH]; [by apply elem_of_nil in H1|].
    apply NoDup_cons in Hnd as [Hk Hnd].
    apply elem_of_cons in H1 as [H1|H1], H2 as [H2|H2]; simplify_eq; auto.
    + exfalso. apply Hk. apply (list_elem_of_fmap_2 fst) in H2. done.
    + exfalso. apply Hk. apply (list_elem_of_fmap_2 fst) in H1. done.
  - apply Sorted_merge_sort, _.
  - apply Sorted_merge_sort, _.
  - by rewrite !merge_sort_Permutation.
Qed.

Lemma sort_keys_same_map : ∀ j1 j2, Json.same_map j1 j2 → Json.sort_keys j1 = Json.sort_keys j2.
Proof.
  fix IH 3. intros j1 j2 [j|l1 l2 HF|d1 d d2 HF Hp Hnd].
  - done.
  - simpl. f_equal. revert l1 l2 HF. fix IHl 3.
    intros l1 l2 [|x y l1' l2' Hxy HF]; simpl; [done|].
    f_equal; [by apply IH|by apply IHl].
  - simpl. f_equal.
    assert (map (λ kv, (kv.1, Json.sort_keys kv.2)) d1
            = map (λ kv, (kv.1, Json.sort_keys kv.2)) d) as Hm.
    { clear Hp Hnd. revert d1 d HF. fix IHl 3.
      intros d1 d [|x y l1' l2' [Hk Hv] HF]; simpl; [done|].
      f_equal; [|by apply IHl].
      rewrite Hk. f_equal. by apply IH. }
    rewrite Hm. apply sort_items_perm.
    + rewrite <- Hm. rewrite <- list_fmap_compose. done. 
    + by apply fmap_Permutation.
Qed.

Lemma append_cons c s1 s2 : String c s1 +:+ s2 = String c (s1 +:+ s2).
Proof. reflexivity. Qed.

Lemma append_nil_l s : "" +:+ s = s.
Proof. reflexivity. Qed.

Lemma append_nil_r s : s +:+ "" = s.
Proof. induction s as [|c s IH]; [done|]. by rewrite append_cons, IH. Qed.

Lemma string_forall_app P s1 s2 :
  string_forall P (s1 +:+ s2) = string_forall P s1 && string_forall P s2.
Proof.
  induction s1 as [|c s1 IH]; [done|].
  rewrite append_cons. simpl. by rewrite IH, andb_assoc.
Qed.

Lemma string_forall_impl (P Q : ascii → bool) s :
  (∀ c, P c = true → Q c = true) → string_forall P s = true → string_forall Q s = true.
Proof.
  intros HPQ. induction s as [|c s IH]; simpl; [done|].
  rewrite !andb_true_iff. intros [? ?]. auto.
Qed.

Lemma append_assoc s1 s2 s3 : (s1 +:+ s2) +:+ s3 = s1 +:+ (s2 +:+ s3).
Proof. induction s1 as [|a s1 IH]; [done|]. by rewrite !append_cons, IH. Qed.

Lemma split_no_slash s : ∀ cur,
  string_forall not_slash s = true → PathLib.split_slash s cur = [cur +:+ s].
Proof.
  induction s as [|c s IH]; intros cur; simpl.
  - intros _. by rewrite append_nil_r.
  - rewrite andb_true_iff. intros [Hc Hs]. unfold not_slash in Hc.
    apply negb_true_iff in Hc. rewrite Hc. rewrite IH by done.
    by rewrite append_assoc.
Qed.

Lemma joinpath_part (p : PathLib.Path) s :
  string_forall not_slash s = true → s ≠ ""%string → s ≠ "."%string →
  p // s = p ++ [s].
Proof.
  intros Hs Hne Hdot. unfold PathLib.joinpath, PathLib.is_absolute.
  assert (String.prefix "/" s = false) as ->.
  { destruct s as [|c s]; [done|]. cbn [string_forall] in Hs.
    apply andb_true_iff in Hs as [Hc _]. cbn [String.prefix].
    destruct (ascii_dec "/" c) as [<-|]; [by vm_compute in Hc|done]. }
  f_equal. unfold PathLib.parts. rewrite split_no_slash by done. simpl.
  rewrite filter_cons, filter_nil. by rewrite decide_True.
Qed.

Lemma joinpath_skip (p : PathLib.Path) s :
  s = ""%string ∨ s = "."%string → p // s = p.
Proof. intros [-> | ->]; unfold PathLib.joinpath; simpl; by rewrite app_nil_r. Qed.

Lemma safe_not_slash c : safe_char c = true → not_slash c = true.
Proof.
  unfold not_slash. destruct (Ascii.eqb_spec c "/") as [->|]; [|done].
  by vm_compute.
Qed.

Lemma sanitize_safe s : string_forall safe_char (_sanitize s) = true.
Proof.
  induction s as [|c s IH]; simpl; [done|].
  rewrite IH, andb_true_r. by destruct (safe_char c) eqn:Hc.
Qed.

Lemma sanitize_length s : String.length (_sanitize s) = String.length s.
Proof. induction s; simpl; congruence. Qed.

Lemma sanitize_get s : ∀ i c,
  String.get i s = Some c →
  String.get i (_sanitize s) = Some (if safe_char c then c else "_"%char).
Proof.
  induction s as [|a s IH]; intros [|i] c; simpl; try done.
  - by intros [= ->].
  - apply IH.
Qed.

Lemma le_bytes_range n : ∀ x, Forall (λ b, 0 <= b < 256) (Md5.le_bytes n x).
Proof.
  induction n as [|n IH]; intros x; simpl; constructor; [|apply IH].
  change 255 with (Z.ones 8). rewrite Z.land_ones by lia.
  apply Z.mod_pos_bound. lia.
Qed.

Lemma hex_digit_char x : 0 <= x < 16 → hex_char (Md5.hex_digit x) = true.
Proof.
  intros Hx.
  assert (x ∈ [0;1;2;3;4;5;6;7;8;9;10;11;12;13;14;15]) as Hin.
  { rewrite !elem_of_cons. lia. }
  rewrite !elem_of_cons, elem_of_nil in Hin.
  repeat (destruct Hin as [-> | Hin]; [by vm_compute|]). done.
Qed.

Lemma hex_chars bs :
  Forall (λ b, 0 <= b < 256) bs → string_forall hex_char (Md5.hex bs) = true.
Proof.
  induction 1 as [|b bs Hb _ IH]; simpl; [done|].
  rewrite IH, andb_true_r, andb_true_iff. split; apply hex_digit_char.
  - rewrite Z.shiftr_div_pow2 by lia. change (2 ^ 4) with 16.
    split; [apply Z.div_pos; lia|apply Z.div_lt_upper_bound; lia].
  - change 15 with (Z.ones 4). rewrite Z.land_ones by lia.
    apply Z.mod_pos_bound. lia.
Qed.

Lemma digest_range msg : Forall (λ b, 0 <= b < 256) (Md5.digest msg).
Proof.
  unfold Md5.digest. destruct (Md5.blocks _ _ _) as [[[a b] c] d].
  rewrite !Forall_app. repeat split; apply le_bytes_range.
Qed.

Lemma hexdigest_chars s : string_forall hex_char (Md5.hexdigest s) = true.
Proof. apply hex_chars, digest_range. Qed.

Lemma hex_not_slash c : hex_char c = true → not_slash c = true.
Proof.
  unfold not_slash. destruct (Ascii.eqb_spec c "/") as [->|]; [|done].
  by vm_compute.
Qed.

Lemma enhanced_cache_path self key :
  string_forall hex_char key = true →
  EnhancedCoreSignalClient._get_cache_path self key
  = EnhancedCoreSignalClient.cache_dir self ++ [key +:+ ".json"].
Proof.
  intros Hk. unfold EnhancedCoreSignalClient._get_cache_path.
  apply joinpath_part.
  - rewrite string_forall_app, andb_true_iff. split; [|done].
    eapply string_forall_impl; [apply hex_not_slash|done].
  - destruct key; done.
  - destruct key as [|? [|? ?]]; done.
Qed.

Lemma sanitize_part (p : PathLib.Path) s :
  p // (_sanitize s +:+ ".json") = p ++ [_sanitize s +:+ ".json"].
Proof.
  apply joinpath_part.
  - rewrite string_forall_app, andb_true_iff. split; [|done].
    eapply string_forall_impl; [apply safe_not_slash|apply sanitize_safe].
  - destruct (_sanitize s); done.
  - destruct (_sanitize s) as [|? [|? ?]]; done.
Qed.

Lemma core_sig_cache_path self endpoint cache_key :
  let safe_ep := _sanitize (replace_slash (strip_slash endpoint)) in
  core_sig_client._cache_path self endpoint cache_key
  = core_sig_client.cache_dir self
      ++ (if decide (safe_ep = ""%string ∨ safe_ep = "."%string)
          then [] else [safe_ep])
      ++ [_sanitize cache_key +:+ ".json"].
Proof.
  intros safe_ep. unfold core_sig_client._cache_path. fold safe_ep.
  rewrite sanitize_part. rewrite app_assoc. f_equal.
  destruct (decide _) as [Hs|Hs].
  - rewrite joinpath_skip by done. by rewrite app_nil_r.
  - rewrite joinpath_part; [done| |tauto|tauto].
    eapply string_forall_impl; [apply safe_not_slash|apply sanitize_safe].
Qed.

(** C9, as the code has it.  [EnhancedCoreSignalClient] hashes the endpoint
    and the parameters in [sort_keys] form: parameters that are equal as maps,
    whatever their insertion order at any depth, get the same key and the
    same file, and that file lies in the cache directory itself, named by the
    digest, with no directory per endpoint.  The client of core_sig does not
    hash: its file is named by the caller's key, [_sanitize] keeps the
    characters of [[A-Za-z0-9_.-]] and turns every other one into [_], and the
    file lies in the directory named by the sanitized endpoint (in the cache
    directory itself when that name is empty or a dot). *)
Theorem cache_key_derivation :
  (∀ self endpoint p1 p2,
     Json.same_map p1 p2 →
     EnhancedCoreSignalClient._get_cache_key endpoint p1
     = EnhancedCoreSignalClient._get_cache_key endpoint p2
     ∧ EnhancedCoreSignalClient._get_cache_path self
         (EnhancedCoreSignalClient._get_cache_key endpoint p1)
       = EnhancedCoreSignalClient._get_cache_path self
           (EnhancedCoreSignalClient._get_cache_key endpoint p2))
  ∧ (∀ self endpoint params,
       EnhancedCoreSignalClient._get_cache_path self
         (EnhancedCoreSignalClient._get_cache_key endpoint params)
       = EnhancedCoreSignalClient.cache_dir self
           ++ [Md5.hexdigest (endpoint +:+ ":" +:+ Json.dumps_sorted params)
               +:+ ".json"])
  ∧ (∀ s, String.length (_sanitize s) = String.length s)
  ∧ (∀ s i c, String.get i s = Some c →
       String.get i (_sanitize s) = Some (if safe_char c then c else "_"%char))
  ∧ (∀ self endpoint cache_key,
       let safe_ep := _sanitize (replace_slash (strip_slash endpoint)) in
       core_sig_client._cache_path self endpoint cache_key
       = core_sig_client.cache_dir self
           ++ (if decide (safe_ep = ""%string ∨ safe_ep = "."%string)
               then [] else [safe_ep])
           ++ [_sanitize cache_key +:+ ".json"]).
Proof.
  split; [|split; [|split; [|split]]].
  - intros self endpoint p1 p2 Hs.
    assert (EnhancedCoreSignalClient._get_cache_key endpoint p1
            = EnhancedCoreSignalClient._get_cache_key endpoint p2) as Hk.
    { unfold EnhancedCoreSignalClient._get_cache_key, Json.dumps_sorted.
      by rewrite (sort_keys_same_map p1 p2 Hs). }
    split; [done|by rewrite Hk].
  - intros self endpoint params. apply enhanced_cache_path, hexdigest_chars.
  - apply sanitize_length.
  - apply sanitize_get.
  - apply core_sig_cache_path.
Qed.

Lemma cache_key_derivation_witness :
  let p1 := Json.JDict [("name", Json.JStr "Acme"); ("website", Json.JStr "acme.com")]%string in
  let p2 := Json.JDict [("website", Json.JStr "acme.com"); ("name", Json.JStr "Acme")]%string in
  Json.same_map p1 p2
  ∧ String.get 1 "a@b" = Some "@"%char
  ∧ EnhancedCoreSignalClient._get_cache_key "/v1/organizations/search" p1
    = EnhancedCoreSignalClient._get_cache_key "/v1/organizations/search" p2
  ∧ String.get 1 (_sanitize "a@b") = Some "_"%char.
Proof.
  intros p1 p2.
  assert (Json.same_map p1 p2) as Hs.
  { eapply Json.same_dict.
    - repeat constructor.
    - apply Permutation_swap.
    - simpl. apply NoDup_cons. split; [|apply NoDup_singleton].
      rewrite list_elem_of_singleton. discriminate. }
  split; [exact Hs|]. split; [reflexivity|]. split.
  - apply (proj1 cache_key_derivation
             (EnhancedCoreSignalClient.__init__ "k" ["cache"%string] 7 5)
             "/v1/organizations/search"%string p1 p2 Hs).
  - apply (proj1 (proj2 (proj2 (proj2 cache_key_derivation))) "a@b"%string 1%nat "@"%char).
    reflexivity.
Defined.

(** The cache file of the hashing client has no directory of its endpoint:
    the files of two endpoints lie side by side in the cache directory. *)
Lemma enhanced_cache_file_not_under_endpoint :
  let self := EnhancedCoreSignalClient.__init__ "k" ["cache"%string] 7 5 in
  let params := Json.JDict [("name", Json.JStr "Acme")]%string in
  let path1 := EnhancedCoreSignalClient._get_cache_path self
      (EnhancedCoreSignalClient._get_cache_key "/v1/organizations/search" params) in
  let path2 := EnhancedCoreSignalClient._get_cache_path self
      (EnhancedCoreSignalClient._get_cache_key "/v2/company/search" params) in
  path1 = ["cache"; "97fc3756f88724b7ff44939e9033ee59.json"]%string
  ∧ PathLib.parent path1 = ["cache"%string]
  ∧ PathLib.parent path2 = ["cache"%string]
  ∧ path1 ≠ path2.
Proof. vm_compute. repeat split; congruence. Qed.

(** ** [json.loads] reads back what [json.dumps] writes *)

Section JsonFacts.
Import Json JsonDocument.

(** *** Strings and integers *)

(** [scan_string] undoes [escape], one character at a time. *)
Lemma scan_escape_char c r :
  scan_string (escape_char c +:+ r)
  = '(str, rest) ← scan_string r; Some (String c str, rest).
Proof.
  destruct c as [[] [] [] [] [] [] [] []]; reflexivity.
Qed.

Lemma scan_escape s : ∀ rest,
  scan_string (escape s +:+ String dquote rest) = Some (s, rest).
Proof.
  induction s as [|c s IH]; intros rest; [reflexivity|].
  cbn [escape]. rewrite append_assoc, scan_escape_char, IH. reflexivity.
Qed.

Lemma value_str fuel s rest :
  value (S fuel) (encode_str s +:+ rest) = Some (JStr s, rest).
Proof.
  unfold encode_str. rewrite append_cons, append_assoc, append_cons, append_nil_l.
  cbn [value skip_ws]. change (is_ws dquote) with false. cbn match.
  change (Ascii.eqb dquote dquote) with true. cbn match.
  by rewrite scan_escape.
Qed.

Lemma scan_digits_stop s acc : no_digit_ahead s → scan_digits s acc = (acc, s).
Proof. destruct s as [|c s]; [done|]. simpl. by intros ->. Qed.

Lemma scan_digits_uint d : ∀ acc rest,
  no_digit_ahead rest →
  scan_digits (NilEmpty.string_of_uint d +:+ rest) (Z.pos acc)
  = (Z.pos (Pos.of_uint_acc d acc), rest).
Proof.
  induction d; intros acc rest Hr; cbn [NilEmpty.string_of_uint Pos.of_uint_acc];
    [by rewrite append_nil_l, scan_digits_stop|..];
    rewrite append_cons; cbn [scan_digits];
    match goal with |- context [digit_val ?c] =>
      let v := eval vm_compute in (digit_val c) in change (digit_val c) with v end;
    cbn match;
    match goal with |- scan_digits _ ?a = _ =>
      match goal with |- _ = (Z.pos (Pos.of_uint_acc _ ?b), _) =>
        replace a with (Z.pos b) by lia end end;
    by apply IHd.
Qed.

Lemma nzhead_not_D0 d d' : Decimal.nzhead d ≠ Decimal.D0 d'.
Proof. induction d; simpl; congruence. Qed.

Lemma to_uint_head p : ∃ d, Pos.to_uint p = d ∧ d ≠ Decimal.Nil ∧ ∀ l, d ≠ Decimal.D0 l.
Proof.
  exists (Pos.to_uint p). split; [done|]. split; [apply DecimalPos.Unsigned.to_uint_nonnil|].
  intros l Hd.
  pose proof (DecimalPos.Unsigned.to_of (Pos.to_uint p)) as Hn.
  rewrite DecimalPos.Unsigned.of_to in Hn. simpl in Hn. rewrite Hd in Hn.
  unfold Decimal.unorm in Hn. simpl in Hn.
  destruct (Decimal.nzhead l) eqn:Hz; try congruence.
  - injection Hn as ->. by apply (DecimalPos.Unsigned.to_uint_nonzero p).
  - apply (nzhead_not_D0 l u). congruence.
Qed.

Lemma scan_nat_pos p rest :
  no_digit_ahead rest →
  scan_nat (NilZero.string_of_uint (Pos.to_uint p) +:+ rest) = Some (Z.pos p, rest)
  ∧ ∃ c s, NilZero.string_of_uint (Pos.to_uint p) = String c s
           ∧ c ≠ "-"%char ∧ is_ws c = false ∧ digit_val c ≠ None.
Proof.
  intros Hr. destruct (to_uint_head p) as (d & Hd & Hnil & Hz).
  pose proof (DecimalPos.Unsigned.of_to p) as Hof. rewrite Hd in *.
  destruct d; try done; try (by destruct (Hz d));
    cbn [NilZero.string_of_uint NilEmpty.string_of_uint];
    (split; [|eexists _, _; split; [reflexivity|by vm_compute]]);
    rewrite append_cons; cbn [scan_nat];
    match goal with |- context [digit_val ?c] =>
      let v := eval vm_compute in (digit_val c) in change (digit_val c) with v end;
    cbn match; cbn [scan_digits];
    match goal with |- context [digit_val ?c] =>
      let v := eval vm_compute in (digit_val c) in change (digit_val c) with v end;
    cbn match; simpl in Hof; injection Hof as <-;
    rewrite <- scan_digits_uint by done; f_equal.
Qed.

Lemma scan_number_int n rest :
  ok_after_number rest →
  scan_number (encode_int n +:+ rest) = Some (JInt n, rest).
Proof.
  intros [Hd Hf]. unfold encode_int, scan_number. destruct n as [|p|p]; simpl Z.to_int.
  - change (NilZero.string_of_int (Decimal.Pos Decimal.zero) +:+ rest)
      with (String "0" rest).
    cbn [scan_nat]. change (digit_val "0") with (Some 0). cbn. by rewrite Hf.
  - destruct (scan_nat_pos p rest Hd) as (Hs & c & s & Hc & Hm & _).
    cbn [NilZero.string_of_int].
    assert (match NilZero.string_of_uint (Pos.to_uint p) +:+ rest with
            | String "-" r => '(n, rest0) ← scan_nat r; Some (- n, rest0)
            | _ => scan_nat (NilZero.string_of_uint (Pos.to_uint p) +:+ rest)
            end = scan_nat (NilZero.string_of_uint (Pos.to_uint p) +:+ rest)) as ->.
    { rewrite Hc, append_cons.
      destruct c as [[] [] [] [] [] [] [] []]; try done. }
    rewrite Hs. simpl. by rewrite Hf.
  - destruct (scan_nat_pos p rest Hd) as (Hs & _).
    cbn [NilZero.string_of_int]. rewrite append_cons.
    rewrite Hs. simpl. by rewrite Hf.
Qed.

(** *** Documents *)

(** Induction on documents, with the hypothesis for every element. *)
Lemma json_ind' (P : json → Prop) :
  P JNull → (∀ b, P (JBool b)) → (∀ n, P (JInt n)) → (∀ s, P (JStr s)) →
  (∀ l, Forall P l → P (JList l)) →
  (∀ d, Forall (λ kv, P kv.2) d → P (JDict d)) →
  ∀ j, P j.
Proof.
  intros Hn Hb Hi Hs Hl Hd. fix IH 1. intros [|b|n|s|l|d].
  - exact Hn.
  - apply Hb.
  - apply Hi.
  - apply Hs.
  - apply Hl. induction l as [|x l IHl]; constructor; [apply IH|exact IHl].
  - apply Hd. induction d as [|[k v] d IHd]; constructor; [apply IH|exact IHd].
Qed.

Lemma unique_keys_list l : unique_keys (JList l) ↔ Forall unique_keys l.
Proof.
  simpl. induction l as [|x l IH]; simpl; [by split; [constructor|]|].
  rewrite Forall_cons, IH. done.
Qed.

Lemma unique_keys_dict d :
  unique_keys (JDict d) ↔ NoDup d.*1 ∧ Forall (λ kv, unique_keys kv.2) d.
Proof.
  simpl. apply and_iff_compat_l.
  induction d as [|x d IH]; simpl; [by split; [constructor|]|].
  rewrite Forall_cons, IH. done.
Qed.

Lemma skip_ws_blank pre s : blank pre → skip_ws (pre +:+ s) = skip_ws s.
Proof.
  unfold blank. induction pre as [|c pre IH]; [done|].
  cbn [string_forall]. rewrite andb_true_iff. intros [Hc Hp].
  rewrite append_cons. cbn [skip_ws]. rewrite Hc. auto.
Qed.

Lemma skip_ws_stop c s : is_ws c = false → skip_ws (String c s) = String c s.
Proof. intros H. cbn [skip_ws]. by rewrite H. Qed.

Lemma value_skip_ws fuel s : value fuel (skip_ws s) = value fuel s.
Proof.
  destruct fuel; [done|]. cbn [value].
  assert (skip_ws (skip_ws s) = skip_ws s) as ->; [|done].
  induction s as [|c s IH]; [done|]. cbn [skip_ws].
  destruct (is_ws c) eqn:Hc; [done|]. cbn [skip_ws]. by rewrite Hc.
Qed.

Lemma value_blank fuel pre s : blank pre → value fuel (pre +:+ s) = value fuel s.
Proof.
  intros Hb. rewrite <- value_skip_ws, skip_ws_blank by done. apply value_skip_ws.
Qed.

Lemma blank_spaces n : blank (spaces n).
Proof. induction n; [done|]. unfold blank in *. simpl. done. Qed.

Lemma blank_newline indent lvl : blank (newline indent lvl).
Proof.
  destruct indent as [w|]; [|done]. unfold blank. simpl.
  apply blank_spaces.
Qed.

(** The separator is a comma and blanks. *)
Lemma item_separator_eq indent lvl :
  ∃ pre, blank pre ∧ item_separator indent lvl = String "," pre.
Proof.
  destruct indent as [w|].
  - exists (newline (Some w) lvl). split; [apply blank_newline|done].
  - by exists " "%string.
Qed.

Lemma encode_int_head n : ∃ c s, encode_int n = String c s ∧ opener c.
Proof.
  unfold encode_int. destruct n as [|p|p]; simpl Z.to_int.
  - eexists _, _. split; [reflexivity|]. by vm_compute.
  - cbn [NilZero.string_of_int].
    destruct (scan_nat_pos p "" I) as (_ & c & s & -> & Hc & Hw & Hd).
    exists c, s. split; [done|].
    split; [done|]. repeat split; intros ->; by vm_compute in Hd.
  - cbn [NilZero.string_of_int]. eexists _, _. split; [reflexivity|]. by vm_compute.
Qed.

Lemma encode_head indent lvl j :
  ∃ c s, encode indent lvl j = String c s ∧ opener c.
Proof.
  destruct j as [|[]|n|str|[|x l]|[|kv d]]; cbn [encode];
    try (eexists _, _; split; [reflexivity|by vm_compute]).
  apply encode_int_head.
Qed.

Ltac norm_app :=
  repeat (rewrite append_assoc || rewrite append_cons || rewrite append_nil_l).

Lemma value_open_list f r :
  value (S f) (String "[" r)
  = match skip_ws r with
    | String "]" rest => Some (JList [], rest)
    | r1 => elements f r1 []
    end.
Proof. reflexivity. Qed.

Lemma value_open_dict f r :
  value (S f) (String "{" r)
  = match skip_ws r with
    | String "}" rest => Some (JDict [], rest)
    | r1 => members f r1 []
    end.
Proof. reflexivity. Qed.

Lemma substring_all s : String.substring 0 (String.length s) s = s.
Proof. induction s as [|c s IH]; [done|]. simpl. by rewrite IH. Qed.

Lemma literal_eval word v rest : literal word v (word +:+ rest) = Some (v, rest).
Proof.
  unfold literal.
  assert (String.prefix word (word +:+ rest) = true) as ->.
  { induction word as [|c w IH]; [by destruct rest|].
    rewrite append_cons. cbn [String.prefix].
    destruct (ascii_dec c c); done. }
  do 2 f_equal.
  induction word as [|c w IH].
  - rewrite append_nil_l. simpl. by rewrite Nat.sub_0_r, substring_all.
  - rewrite append_cons. simpl. done.
Qed.

Lemma value_null f rest : value (S f) ("null" +:+ rest) = Some (JNull, rest).
Proof. rewrite <- (literal_eval "null" JNull rest). reflexivity. Qed.

Lemma value_true f rest : value (S f) ("true" +:+ rest) = Some (JBool true, rest).
Proof. rewrite <- (literal_eval "true" (JBool true) rest). reflexivity. Qed.

Lemma value_false f rest : value (S f) ("false" +:+ rest) = Some (JBool false, rest).
Proof. rewrite <- (literal_eval "false" (JBool false) rest). reflexivity. Qed.

Lemma value_number f c r :
  number_head c → value (S f) (String c r) = scan_number (String c r).
Proof.
  intros Hc.
  destruct c as [[] [] [] [] [] [] [] []]; try reflexivity;
    exfalso; destruct Hc as [Hc|Hc]; by vm_compute in Hc.
Qed.

Lemma encode_int_number_head n : ∃ c s, encode_int n = String c s ∧ number_head c.
Proof.
  unfold encode_int. destruct n as [|p|p]; simpl Z.to_int.
  - eexists _, _. split; [reflexivity|]. left. by vm_compute.
  - cbn [NilZero.string_of_int].
    destruct (scan_nat_pos p "" I) as (_ & c & s & -> & Hc & Hw & Hd).
    exists c, s. split; [done|]. by left.
  - cbn [NilZero.string_of_int]. eexists _, _. split; [reflexivity|]. by right.
Qed.

Lemma value_int f n rest :
  ok_after_number rest → value (S f) (encode_int n +:+ rest) = Some (JInt n, rest).
Proof.
  intros Hr. rewrite <- (scan_number_int n rest Hr).
  destruct (encode_int_number_head n) as (c & s & -> & Hc).
  rewrite append_cons. by apply value_number.
Qed.

Lemma ok_after_closer indent lvl c rest :
  c = "]"%char ∨ c = "}"%char ∨ c = ","%char →
  ok_after_number (newline indent lvl +:+ String c rest)
  ∧ ok_after_number (String c rest).
Proof.
  intros Hc. assert (ok_after_number (String c rest)) as Hs.
  { destruct Hc as [-> | [-> | ->]]; by vm_compute. }
  split; [|done]. destruct indent as [w|]; [by vm_compute|done].
Qed.

Lemma skip_ws_closer indent lvl c rest :
  is_ws c = false →
  skip_ws (newline indent lvl +:+ String c rest) = String c rest.
Proof.
  intros Hc. rewrite skip_ws_blank by apply blank_newline. by apply skip_ws_stop.
Qed.

Lemma value_space fuel s : value fuel (String " " s) = value fuel s.
Proof. by apply (value_blank fuel " " s). Qed.

Lemma join_cons sep x y l : join sep (x :: y :: l) = x +:+ sep +:+ join sep (y :: l).
Proof. reflexivity. Qed.

Lemma elements_encode indent lvl (l : list json) :
  Forall (parses_back indent (S lvl)) l → l ≠ [] →
  ∀ pre acc rest fuel, blank pre → (lsize l ≤ fuel)%nat →
    elements fuel
      (pre +:+ join (item_separator indent (S lvl)) (map (encode indent (S lvl)) l)
           +:+ newline indent lvl +:+ String "]" rest) acc
    = Some (JList (rev acc ++ l), rest).
Proof.
  induction 1 as [|x l Hx Hl IH]; [done|]. intros _ pre acc rest fuel Hpre Hfuel.
  destruct fuel as [|fuel]; [simpl in Hfuel; lia|]. cbn [elements].
  destruct (item_separator_eq indent (S lvl)) as (sp & Hsp & Hsep).
  destruct l as [|y l].
  - cbn [map join]. rewrite value_blank by done.
    rewrite Hx; [|simpl in Hfuel; lia|by apply ok_after_closer; left].
    cbn -[skip_ws]. by rewrite skip_ws_closer.
  - cbn [map]. rewrite join_cons, Hsep. norm_app. rewrite value_blank by done.
    rewrite Hx; [|simpl in Hfuel; lia|by vm_compute].
    cbn -[skip_ws elements join]. rewrite skip_ws_stop by done.
    specialize (IH ltac:(done) sp (x :: acc) rest fuel Hsp).
    cbn [map] in IH. rewrite Hsep in IH. rewrite IH; [|simpl in *; lia].
    simpl. by rewrite <- app_assoc.
Qed.

Lemma dict_set_fresh k v acc :
  k ∉ acc.*1 → dict_set k v acc = acc ++ [(k, v)].
Proof.
  induction acc as [|[k' v'] acc IH]; [done|]. simpl.
  rewrite not_elem_of_cons. intros [Hne Hk].
  destruct (String.eqb_spec k k'); [done|]. by rewrite IH.
Qed.

Lemma members_encode indent lvl (d : list (string * json)) :
  Forall (λ kv, parses_back indent (S lvl) kv.2) d → d ≠ [] →
  ∀ pre acc rest fuel, blank pre → (dsize d ≤ fuel)%nat →
    NoDup (acc ++ d).*1 →
    members fuel
      (pre +:+ join (item_separator indent (S lvl))
                 (map (λ kv, encode_str kv.1 +:+ ": "
                               +:+ encode indent (S lvl) kv.2) d)
           +:+ newline indent lvl +:+ String "}" rest) acc
    = Some (JDict (acc ++ d), rest).
Proof.
  induction 1 as [|[k v] d Hx Hd IH]; [done|].
  intros _ pre acc rest fuel Hpre Hfuel Hnd.
  destruct fuel as [|fuel]; [simpl in Hfuel; lia|]. cbn [members].
  destruct (item_separator_eq indent (S lvl)) as (sp & Hsp & Hsep).
  assert (k ∉ acc.*1) as Hk.
  { rewrite fmap_app, fmap_cons in Hnd. apply NoDup_app in Hnd as (_ & Hnd & _).
    intros Hin. apply (Hnd k Hin). left. }
  rewrite skip_ws_blank by done.
  destruct d as [|y d].
  - cbn [map join fst snd]. unfold encode_str at 1. norm_app.
    rewrite skip_ws_stop by done.
    change (Ascii.eqb dquote dquote) with true. cbn match.
    rewrite scan_escape. cbn -[skip_ws value].
    rewrite skip_ws_stop by done.
    rewrite value_space.
    rewrite Hx; [|simpl in Hfuel |- *; lia|by apply ok_after_closer; right; left].
    cbn -[skip_ws]. rewrite skip_ws_closer by done.
    by rewrite dict_set_fresh.
  - cbn [map fst snd]. rewrite join_cons. unfold encode_str at 1.
    rewrite Hsep. norm_app.
    rewrite skip_ws_stop by done.
    change (Ascii.eqb dquote dquote) with true. cbn match.
    rewrite scan_escape. cbn -[skip_ws value members join].
    rewrite skip_ws_stop by done.
    rewrite value_space.
    rewrite Hx; [|simpl in Hfuel |- *; lia|by vm_compute].
    cbn -[skip_ws members join]. rewrite skip_ws_stop by done.
    rewrite dict_set_fresh by done.
    specialize (IH ltac:(done) sp (acc ++ [(k, v)]) rest fuel Hsp).
    cbn [map] in IH. rewrite Hsep in IH.
    repeat (rewrite append_assoc in IH || rewrite append_cons in IH
            || rewrite append_nil_l in IH).
    rewrite IH.
    + by rewrite <- app_assoc.
    + simpl in *. lia.
    + by rewrite <- app_assoc.
Qed.

(** Every document with unique keys is read back from its encoding, at
    any indentation. *)
Lemma encode_parses_back j : unique_keys j → ∀ indent lvl, parses_back indent lvl j.
Proof.
  induction j as [|b|n|s|l IH|d IH] using json_ind';
    intros Hwf indent lvl rest fuel Hfuel Hrest;
    (destruct fuel as [|fuel]; [simpl in Hfuel; lia|]).
  - apply value_null.
  - destruct b; [apply value_true|apply value_false].
  - by apply value_int.
  - apply value_str.
  - apply unique_keys_list in Hwf.
    assert (Forall (parses_back indent (S lvl)) l) as Hall.
    { clear Hfuel. induction IH as [|x l Hx _ IHl]; [constructor|].
      apply Forall_cons in Hwf as [Hwx Hwl]. constructor; auto. }
    destruct l as [|x l]; [reflexivity|].
    cbn [encode]. norm_app. rewrite value_open_list.
    rewrite skip_ws_blank by apply blank_newline.
    pose proof (elements_encode indent lvl (x :: l) Hall ltac:(done) ""
                  [] rest fuel ltac:(done)) as He.
    rewrite append_nil_l in He. cbn [map] in He.
    assert (∃ c s, join (item_separator indent (S lvl))
                     (encode indent (S lvl) x :: map (encode indent (S lvl)) l)
                   +:+ newline indent lvl +:+ String "]" rest = String c s
                   ∧ opener c) as (c & s & Hcs & Hc).
    { destruct (encode_head indent (S lvl) x) as (c & s & Hcs & Hc).
      destruct l; cbn [map join]; rewrite Hcs; norm_app; eauto. }
    cbn [map]. rewrite Hcs in *. destruct Hc as (Hw & Hc1 & _).
    rewrite skip_ws_stop by done.
    assert (lsize (x :: l) ≤ fuel)%nat as Hf by (unfold lsize; simpl in *; lia).
    specialize (He Hf). rewrite app_nil_l in He.
    destruct c as [[] [] [] [] [] [] [] []]; try exact He. done.
  - apply unique_keys_dict in Hwf as [Hnd Hwf].
    assert (Forall (λ kv, parses_back indent (S lvl) kv.2) d) as Hall.
    { clear Hfuel Hnd. induction IH as [|x d Hx _ IHd]; [constructor|].
      apply Forall_cons in Hwf as [Hwx Hwd]. constructor; auto. }
    destruct d as [|x d]; [reflexivity|].
    cbn [encode]. norm_app. rewrite value_open_dict.
    rewrite skip_ws_blank by apply blank_newline.
    pose proof (members_encode indent lvl (x :: d) Hall ltac:(done) ""
                  [] rest fuel ltac:(done)) as He.
    rewrite append_nil_l in He. cbn [map] in He.
    assert (∃ s, join (item_separator indent (S lvl))
                   ((encode_str x.1 +:+ ": " +:+ encode indent (S lvl) x.2)
                    :: map (λ kv, encode_str kv.1 +:+ ": "
                                    +:+ encode indent (S lvl) kv.2) d)
                 +:+ newline indent lvl +:+ String "}" rest = String dquote s)
      as (s & Hcs).
    { unfold encode_str at 1. destruct d; cbn [map join]; norm_app; eauto. }
    cbn [map]. rewrite Hcs in *.
    rewrite skip_ws_stop by done.
    assert (dsize (x :: d) ≤ fuel)%nat as Hf by (unfold dsize; simpl in *; lia).
    specialize (He Hf Hnd). rewrite app_nil_l in He. exact He.
Qed.

(** *** What the decoder returns has unique keys *)

Lemma dict_set_keys k v acc :
  NoDup acc.*1 → NoDup (dict_set k v acc).*1
  ∧ ∀ k', k' ∈ (dict_set k v acc).*1 ↔ k' = k ∨ k' ∈ acc.*1.
Proof.
  induction acc as [|[k0 v0] acc IH]; simpl.
  - intros _. split; [apply NoDup_singleton|]. intros k'.
    rewrite list_elem_of_singleton, elem_of_nil. tauto.
  - rewrite NoDup_cons. intros [Hk0 Hnd].
    destruct (String.eqb_spec k k0) as [->|Hne]; simpl.
    + split; [by apply NoDup_cons|]. intros k'. rewrite !elem_of_cons. tauto.
    + destruct (IH Hnd) as [Hnd' Hin]. split.
      * apply NoDup_cons. split; [|done]. rewrite Hin. intros [->|?]; done.
      * intros k'. rewrite !elem_of_cons, Hin. tauto.
Qed.

Lemma dict_set_unique_keys k v acc :
  unique_keys v → Forall (λ kv, unique_keys kv.2) acc →
  Forall (λ kv, unique_keys kv.2) (dict_set k v acc).
Proof.
  intros Hv. induction 1 as [|[k0 v0] acc H0 Hacc IH]; simpl.
  - by constructor.
  - destruct (String.eqb k k0); constructor; auto.
Qed.

Lemma literal_unique_keys word v s j r :
  unique_keys v → literal word v s = Some (j, r) → unique_keys j.
Proof. unfold literal. intros Hv. case_match; [|done]. by intros [= <- _]. Qed.

Lemma scan_number_unique_keys s j r : scan_number s = Some (j, r) → unique_keys j.
Proof.
  unfold scan_number. intros H. apply bind_Some in H as ([n rest] & _ & H).
  case_match; [done|]. by injection H as <- _.
Qed.

Lemma decoder_unique_keys fuel :
  (∀ s j r, value fuel s = Some (j, r) → unique_keys j)
  ∧ (∀ s acc j r, Forall unique_keys acc →
       elements fuel s acc = Some (j, r) → unique_keys j)
  ∧ (∀ s acc j r, NoDup acc.*1 → Forall (λ kv, unique_keys kv.2) acc →
       members fuel s acc = Some (j, r) → unique_keys j).
Proof.
  induction fuel as [|fuel (IHv & IHe & IHm)]; [by repeat split|].
  split; [|split].
  - intros s j r. cbn [value]. destruct (skip_ws s) as [|c t]; [done|].
    destruct (Ascii.eqb c dquote).
    { intros H. apply bind_Some in H as ([str rest] & _ & H).
      by injection H as <- _. }
    destruct (Ascii.eqb c "[").
    { assert (Forall unique_keys []) as Hw by constructor.
      destruct (skip_ws t) as [|c' t'] eqn:Ht; [by apply IHe|].
      destruct c' as [[] [] [] [] [] [] [] []];
        first [by apply IHe | by intros [= <- _]]. }
    destruct (Ascii.eqb c "{").
    { assert (NoDup (@nil (string * json)).*1) as Hn by apply NoDup_nil_2.
      assert (Forall (λ kv : string * json, unique_keys kv.2) []) as Hw by constructor.
      destruct (skip_ws t) as [|c' t'] eqn:Ht; [by apply IHm|].
      destruct c' as [[] [] [] [] [] [] [] []];
        first [by apply IHm | by intros [= <- _]]. }
    destruct (Ascii.eqb c "n"); [by apply literal_unique_keys|].
    destruct (Ascii.eqb c "t"); [by apply literal_unique_keys|].
    destruct (Ascii.eqb c "f"); [by apply literal_unique_keys|].
    apply scan_number_unique_keys.
  - intros s acc j r Hacc. cbn [elements]. intros H.
    apply bind_Some in H as ([v t] & Hv & H). apply IHv in Hv.
    destruct (skip_ws t) as [|c' t'] eqn:Ht; [done|].
    destruct c' as [[] [] [] [] [] [] [] []]; try done.
    + injection H as <- _. apply unique_keys_list.
      change (Forall unique_keys (rev (v :: acc))). apply Forall_rev. by constructor.
    + revert H. apply IHe. by constructor.
  - intros s acc j r Hnd Hacc. cbn [members].
    destruct (skip_ws s) as [|q t]; [done|].
    destruct (Ascii.eqb q dquote); [|done]. intros H.
    apply bind_Some in H as ([k r1] & _ & H).
    destruct (skip_ws r1) as [|c1 r2]; [done|].
    assert (∃ v r3, value fuel r2 = Some (v, r3) ∧
              match skip_ws r3 with
              | String "," rest => members fuel rest (dict_set k v acc)
              | String "}" rest => Some (JDict (dict_set k v acc), rest)
              | _ => None
              end = Some (j, r)) as (v & r3 & Hv & H').
    { destruct c1 as [[] [] [] [] [] [] [] []]; try done.
      apply bind_Some in H as ([v r3] & Hv & H). eauto. }
    clear H. apply IHv in Hv.
    destruct (dict_set_keys k v acc Hnd) as [Hnd' _].
    pose proof (dict_set_unique_keys k v acc Hv Hacc) as Hacc'.
    destruct (skip_ws r3) as [|c3 r4]; [done|].
    destruct c3 as [[] [] [] [] [] [] [] []]; try done.
    + injection H' as <- _. by apply unique_keys_dict.
    + revert H'. by apply IHm.
Qed.

Lemma loads_unique_keys s j : loads s = Some j → unique_keys j.
Proof.
  unfold loads. intros H. apply bind_Some in H as ([j' rest] & Hv & H).
  apply (proj1 (decoder_unique_keys _)) in Hv. case_match; [|done]. by injection H as <-.
Qed.

(** *** The decoder's fuel covers every encoded value *)

Lemma length_append s t :
  String.length (s +:+ t) = (String.length s + String.length t)%nat.
Proof. induction s as [|c s IH]; [done|]. rewrite append_cons. simpl. by rewrite IH. Qed.

Lemma encode_nonempty indent lvl j : (1 ≤ String.length (encode indent lvl j))%nat.
Proof.
  destruct (encode_head indent lvl j) as (c & s & -> & _). simpl. lia.
Qed.

Lemma item_separator_nonempty indent lvl :
  (1 ≤ String.length (item_separator indent lvl))%nat.
Proof.
  destruct indent; [|simpl; lia].
  unfold item_separator. rewrite length_append. simpl. lia.
Qed.

Lemma join_length {A} (sep : string) (f : A → string) (w : A → nat) (l : list A) :
  (1 ≤ String.length sep)%nat →
  Forall (λ x, S (w x) ≤ 2 * String.length (f x))%nat l →
  (foldr (λ x n, S (w x) + n) 0 l ≤ 2 * String.length (join sep (map f l)) + 1)%nat.
Proof.
  intros Hsep. induction 1 as [|x l Hx Hl IH]; [simpl; lia|].
  destruct l as [|y l]; [simpl in *; lia|].
  change (map f (x :: y :: l)) with (f x :: f y :: map f l).
  rewrite join_cons, !length_append.
  change (f y :: map f l) with (map f (y :: l)).
  cbn [foldr] in *. lia.
Qed.

Lemma size_encode j : ∀ indent lvl,
  (S (size j) ≤ 2 * String.length (encode indent lvl j))%nat.
Proof.
  induction j as [|b|n|s|l IH|d IH] using json_ind'; intros indent lvl.
  - simpl. lia.
  - destruct b; simpl; lia.
  - pose proof (encode_nonempty indent lvl (JInt n)). simpl in *. lia.
  - pose proof (encode_nonempty indent lvl (JStr s)) as H.
    cbn [encode] in *. unfold encode_str in *. simpl String.length in *.
    rewrite length_append. simpl. lia.
  - destruct l as [|x l]; [simpl; lia|].
    cbn [encode size]. fold (lsize (x :: l)).
    rewrite !length_append.
    pose proof (join_length (item_separator indent (S lvl))
                  (encode indent (S lvl)) size (x :: l)
                  (item_separator_nonempty _ _)) as Hj.
    unfold lsize.
    assert (Forall (λ x, S (size x) ≤ 2 * String.length (encode indent (S lvl) x))%nat
              (x :: l)) as Hall.
    { eapply Forall_impl; [exact IH|]. intros y Hy. apply Hy. }
    specialize (Hj Hall).
    set (J := String.length (join _ _)) in *.
    set (F := foldr _ _ _) in *. simpl String.length. lia.
  - destruct d as [|x d]; [simpl; lia|].
    cbn [encode size].
    rewrite !length_append.
    pose proof (join_length (item_separator indent (S lvl))
                  (λ kv, encode_str kv.1 +:+ ": " +:+ encode indent (S lvl) kv.2)
                  (λ kv, size kv.2) (x :: d)
                  (item_separator_nonempty _ _)) as Hj.
    assert (Forall (λ kv : string * json, S (size kv.2) ≤
              2 * String.length (encode_str kv.1 +:+ ": " +:+ encode indent (S lvl) kv.2))%nat
              (x :: d)) as Hall.
    { eapply Forall_impl; [exact IH|]. intros y Hy. simpl.
      rewrite !length_append. specialize (Hy indent (S lvl)). lia. }
    specialize (Hj Hall).
    set (J := String.length (join _ _)) in *.
    set (F := foldr _ _ _) in *. simpl String.length. lia.
Qed.

(** *** Round trip *)

Lemma ok_after_number_end : ok_after_number "".
Proof. by split. Qed.

Lemma loads_encode indent j : unique_keys j → loads (encode indent 0 j) = Some j.
Proof.
  intros Hwf. unfold loads.
  pose proof (encode_parses_back j Hwf indent 0%nat "" 
                (2 * String.length (encode indent 0 j) + 2)%nat) as H.
  rewrite append_nil_r in H. rewrite H; [done| |apply ok_after_number_end].
  pose proof (size_encode j indent 0%nat). lia.
Qed.


Lemma loads_dumps_indent w j : unique_keys j → loads (dumps_indent w j) = Some j.
Proof. apply loads_encode. Qed.

(** What [json.loads] returned once, it returns again from the text
    [json.dumps] writes for it. *)
Lemma loads_round_trip w text j :
  loads text = Some j → loads (dumps_indent w j) = Some j.
Proof. intros H. apply loads_dumps_indent. by apply loads_unique_keys in H. Qed.

End JsonFacts.

(** ** Running the programs *)

Lemma bind_eval {St A B} (m : M St A) (k : A → M St B) s :
  (m ≫= k) s =
    match m s with
    | (Ok a, s') => k a s'
    | (Raise e, s') => (Raise e, s')
    | (Hang, s') => (Hang, s')
    end.
Proof. reflexivity. Qed.

Lemma retrying_unfold {St A} zoom remaining n retry_if wait (body : M St A) s :
  retrying zoom remaining n retry_if wait body s =
    match body s with
    | (Raise e, s') =>
      if retry_if e then
        match remaining with
        | O => (Raise (RetryError e), s')
        | S remaining' =>
          (zoom (sleep (seconds (wait n)));;
           retrying zoom remaining' (n + 1) retry_if wait body) s'
        end
      else (Raise e, s')
    | r => r
    end.
Proof.
  destruct remaining; simpl; unfold catch;
    destruct (body s) as [[a|e|] s']; try done; by destruct (retry_if e).
Qed.

(** ** [EnhancedCoreSignalClient] *)

Section EnhancedFacts.
Import Json EnhancedCoreSignalClient.

Lemma frame_refl s : frame s s.
Proof. by split. Qed.

Lemma frame_trans s1 s2 s3 : frame s1 s2 → frame s2 s3 → frame s1 s3.
Proof. intros [] []. split; try congruence. lia. Qed.

Lemma acquire_frame s :
  frame s (acquire s).2 ∧ calls (env (acquire s).2) = calls (env s).
Proof.
  unfold acquire.
  destruct (RateLimiter.acquire 2 _ _) as [rl|rl|[] rl|]; simpl; repeat split; done.
Qed.

Lemma on_status_error_state code s : (on_status_error code s).2 = s.
Proof. unfold on_status_error. repeat case_match; done. Qed.

(** One attempt sends at most one HTTP call and leaves the files alone; it
    returns only after a call. *)
Lemma attempt_frame method endpoint s :
  let '(r, s') := attempt method endpoint s in
  frame s s' ∧ (calls (env s') ≤ S (calls (env s)))%nat
  ∧ (∀ v, r = Ok v → calls (env s') = S (calls (env s))).
Proof.
  unfold attempt. rewrite bind_eval.
  pose proof (acquire_frame s) as (Hf & Hc).
  destruct (acquire s) as [[[]|e|] s1]; simpl in *;
    [|split; [done|split; [lia|done]]..].
  rewrite bind_eval. unfold lift, send. simpl.
  set (s2 := mkstate _ _).
  assert (frame s s2) as Hf2.
  { destruct Hf. split; simpl; try done. lia. }
  assert (calls (env s2) = S (calls (env s))) as Hc2 by (simpl; lia).
  destruct (upstream (env s1) (calls (env s1))) as [code hs body|]; simpl.
  2:{ split; [done|split; [lia|done]]. }
  destruct (code =? 404); simpl; [split; [done|split; [lia|done]]|].
  destruct (code =? 429).
  { rewrite bind_eval. simpl.
    pose proof (on_status_error_state code
      (mkstate (client s2)
         (log_event (Slept (seconds 60))
            (set_clock (clock (env s2) + seconds 60) (env s2))))) as Hs.
    destruct (on_status_error _ _) as [r s3]. simpl in Hs. subst s3. simpl.
    split; [|split; [lia|intros; lia]].
    destruct Hf2. split; simpl in *; try done. }
  destruct (is_success code).
  { destruct (loads body); simpl; (split; [done|split; [lia|done]]). }
  pose proof (on_status_error_state code s2) as Hs.
  destruct (on_status_error _ _) as [r s3]. simpl in Hs. subst s3.
  split; [done|split; [lia|done]].
Qed.

Lemma retrying_frame method endpoint wait remaining : ∀ n s,
  let '(r, s') :=
    retrying lift remaining n retry_if wait (attempt method endpoint) s in
  frame s s' ∧ (calls (env s') ≤ calls (env s) + S remaining)%nat
  ∧ (∀ v, r = Ok v → (S (calls (env s)) ≤ calls (env s'))%nat).
Proof.
  induction remaining as [|remaining IH]; intros n s; rewrite retrying_unfold;
    pose proof (attempt_frame method endpoint s) as Ha;
    destruct (attempt method endpoint s) as [[v|e|] s1];
    destruct Ha as (Hf & Hc & Hv);
    try (split; [done|split; [lia|intros v' Hv'; try done; rewrite (Hv _ Hv'); lia]]).
  - destruct (retry_if e); (split; [done|split; [lia|done]]).
  - destruct (retry_if e); [|split; [done|split; [lia|done]]].
    rewrite bind_eval. simpl.
    set (s2 := mkstate _ _).
    assert (frame s1 s2) as Hf2 by (by split).
    specialize (IH (n + 1) s2).
    destruct (retrying _ _ _ _ _ _ s2) as [r3 s3].
    destruct IH as (Hf3 & Hc3 & Hv3).
    split; [eauto using frame_trans|]. simpl in Hc3. split; [lia|].
    intros v Hv'. specialize (Hv3 v Hv'). pose proof (f_calls _ _ Hf).
    simpl in Hv3. lia.
Qed.

Lemma make_request_frame method endpoint s :
  let '(r, s') := _make_request method endpoint s in
  frame s s' ∧ (calls (env s') ≤ calls (env s) + 3)%nat
  ∧ (∀ v, r = Ok v → (S (calls (env s)) ≤ calls (env s'))%nat).
Proof. apply (retrying_frame method endpoint _ 2 1 s). Qed.

Lemma acquire_granted s rl :
  granted s rl → acquire s = (Ok tt, set_rate_limiter rl s).
Proof. unfold granted, acquire. by intros ->. Qed.

Lemma acquire_refused s :
  (∀ rl, ¬ granted s rl) →
  ∃ r s', acquire s = (r, s') ∧ calls (env s') = calls (env s)
          ∧ (r = Hang ∨ r = Raise IndexError ∨ r = Raise RuntimeError).
Proof.
  unfold granted, acquire. intros Hn.
  destruct (RateLimiter.acquire 2 _ _) as [rl|rl|[] rl|]; simpl; eauto 10.
  by destruct (Hn rl).
Qed.

(** An attempt the limiter holds back sends nothing, and is not repeated. *)
Lemma make_request_refused method endpoint s :
  (∀ rl, ¬ granted s rl) →
  ∃ r s', _make_request method endpoint s = (r, s')
          ∧ calls (env s') = calls (env s) ∧ (∀ v, r ≠ Ok v).
Proof.
  intros Hn. destruct (acquire_refused s Hn) as (r & s' & Ha & Hc & Hr).
  unfold _make_request, retry. rewrite retrying_unfold.
  unfold attempt. rewrite bind_eval, Ha.
  destruct Hr as [-> | [-> | ->]]; simpl; eauto.
Qed.



(** The attempt that is let through and answered by 404, 401 or 403 returns
    [None] at once. *)
Lemma attempt_refusal_status method endpoint s rl code hs body :
  granted s rl →
  upstream (env s) (calls (env s)) = Response code hs body →
  code = 404 ∨ code = 401 ∨ code = 403 →
  attempt method endpoint s
  = (Ok JNull, sent_state method (API_BASE_URL +:+ endpoint) (set_rate_limiter rl s)).
Proof.
  intros Hg Hr Hc. unfold attempt. rewrite bind_eval, (acquire_granted s rl Hg).
  rewrite bind_eval. unfold lift, send. simpl. rewrite Hr.
  destruct Hc as [-> | [-> | ->]]; reflexivity.
Qed.

Lemma make_request_ok method endpoint s v s' :
  attempt method endpoint s = (Ok v, s') →
  _make_request method endpoint s = (Ok v, s').
Proof. intros H. unfold _make_request, retry. by rewrite retrying_unfold, H. Qed.

(** A call that reaches the network and is answered by 404, 401 or 403. *)
Lemma make_request_refusal_status method endpoint s code hs body :
  calls (env (_make_request method endpoint s).2) ≠ calls (env s) →
  upstream (env s) (calls (env s)) = Response code hs body →
  code = 404 ∨ code = 401 ∨ code = 403 →
  ∃ rl, _make_request method endpoint s
        = (Ok JNull, sent_state method (API_BASE_URL +:+ endpoint)
                       (set_rate_limiter rl s)).
Proof.
  intros Hsent Hr Hc.
  destruct (RateLimiter.acquire 2 (rate_limiter (client s)) (clock (env s)))
    as [rl| | |] eqn:Ha.
  { exists rl. eapply make_request_ok, attempt_refusal_status; eauto. }
  all: destruct (make_request_refused method endpoint s) as (r & s' & He & Hc' & _);
    [intros rl; unfold granted; congruence|];
    rewrite He in Hsent; simpl in Hsent; congruence.
Qed.

(** [get] and [post]: a cache hit, or the network path. *)
Lemma cached_eval method endpoint params s :
  cached method endpoint params s =
    let path := _get_cache_path (client s) (_get_cache_key endpoint params) in
    match files (env s) !! path with
    | Some f =>
      if bool_decide (clock (env s) - st_mtime f < cache_ttl (client s)) then
        match loads (content f) with
        | Some data =>
          if truthy data then (Ok data, s) else fetch method endpoint path s
        | None => fetch method endpoint path s
        end
      else fetch method endpoint path s
    | None => fetch method endpoint path s
    end.
Proof.
  unfold cached, _is_cache_valid, _load_from_cache,
    mbind, M_bind, gets, mret, M_ret. simpl.
  destruct (files (env s) !! _) as [f|] eqn:Hf; simpl; [|done].
  destruct (bool_decide _); [|done].
  rewrite Hf.
  destruct (loads (content f)) as [data|]; simpl; [|done].
  by destruct (truthy data).
Qed.

Lemma perform_eval c s :
  perform c s = cached (method_of c) (endpoint_of c) (params_of c) s.
Proof. by destruct c. Qed.

(** The state a cache write leaves. *)
Lemma fetch_eval method endpoint path s :
  fetch method endpoint path s =
    match _make_request method endpoint s with
    | (Ok data, s') =>
      if truthy data then
        (Ok data,
         if writable (env s') path
         then mkstate (client s')
                (log_event (Wrote path)
                   (set_files
                      (<[path := mkfile (clock (env s')) (dumps_indent 2 data)]>
                         (files (env s'))) (env s')))
         else s')
      else (Ok data, s')
    | (Raise e, s') => (Raise e, s')
    | (Hang, s') => (Hang, s')
    end.
Proof.
  unfold fetch. rewrite bind_eval.
  destruct (_make_request method endpoint s) as [[data|e|] s']; try done.
  destruct (truthy data); [|done].
  unfold _save_to_cache, lift, write_text, mbind, M_bind, mret, M_ret.
  destruct s' as [c w]. simpl. by destruct (writable w path).
Qed.

Lemma fetch_calls method endpoint path s :
  calls (env (fetch method endpoint path s).2)
  = calls (env (_make_request method endpoint s).2).
Proof.
  rewrite fetch_eval.
  destruct (_make_request method endpoint s) as [[data|e|] s']; try done.
  destruct (truthy data); [|done]. simpl. by destruct (writable _ _).
Qed.

(** A call that is not answered from the cache is the network path. *)
Lemma perform_sent c s :
  calls (env (perform c s).2) ≠ calls (env s) →
  perform c s = fetch (method_of c) (endpoint_of c) (cache_path_of (client s) c) s.
Proof.
  rewrite perform_eval, cached_eval. cbn zeta. unfold cache_path_of.
  repeat case_match; done.
Qed.

(** The enhanced client, answered by 404, 401 or 403. *)
Lemma perform_refusal_status c s code hs body :
  calls (env (perform c s).2) ≠ calls (env s) →
  upstream (env s) (calls (env s)) = Response code hs body →
  code = 404 ∨ code = 401 ∨ code = 403 →
  (perform c s).1 = Ok JNull
  ∧ calls (env (perform c s).2) = S (calls (env s))
  ∧ files (env (perform c s).2) = files (env s).
Proof.
  intros Hsent Hr Hc. pose proof (perform_sent c s Hsent) as He.
  rewrite He in Hsent |- *. clear He. rewrite fetch_calls in Hsent.
  destruct (make_request_refusal_status _ _ s code hs body Hsent Hr Hc) as [rl Hm].
  rewrite fetch_eval, Hm. simpl. done.
Qed.

End EnhancedFacts.

(** ** The client of core_sig *)

Section CoreSigFacts.
Import Json core_sig_client.

Lemma core_sig_fetch_eval method endpoint path w :
  fetch method endpoint path w =
    let w1 := sent_world method (api_url endpoint) w in
    match upstream w (calls w) with
    | NoResponse => (Raise RequestError, w1)
    | Response code _ body =>
      if is_success code then
        match loads body with
        | Some data => (Ok data, written path (dumps data) w1)
        | None => (Raise JSONDecodeError, w1)
        end
      else (Raise (HTTPStatusError code), w1)
    end.
Proof.
  unfold fetch, send, mbind, M_bind, written, sent_world, api_url. simpl.
  destruct (upstream w (calls w)) as [code hs body|]; [|done].
  destruct (is_success code); [|done].
  destruct (loads body) as [data|]; [|done].
  unfold write_text. simpl. by destruct (writable w _).
Qed.

Lemma request_once_eval self method endpoint cache_key w :
  request_once self method endpoint cache_key w =
    let path := _cache_path self endpoint cache_key in
    match files w !! path with
    | Some f =>
      if bool_decide (clock w - st_mtime f < cache_ttl self) then
        match loads (content f) with
        | Some data => (Ok data, w)
        | None => fetch method endpoint path w
        end
      else fetch method endpoint path w
    | None => fetch method endpoint path w
    end.
Proof.
  unfold request_once, _is_fresh, read_cache, mbind, M_bind, gets, mret, M_ret, id.
  simpl.
  destruct (files w !! _) as [f|] eqn:Hf; simpl; [|done].
  destruct (bool_decide _); [|done].
  rewrite Hf. simpl. by destruct (loads (content f)).
Qed.




(** The client of core_sig, answered by an error status. *)
Lemma core_sig_error_status self method endpoint cache_key w code hs body :
  let r := retry id 4 retry_if (wait_exponential 1 1 10)
             (request_once self method endpoint cache_key) w in
  calls r.2 ≠ calls w →
  upstream w (calls w) = Response code hs body →
  is_success code = false →
  r = (Raise (HTTPStatusError code), sent_world method (api_url endpoint) w).
Proof.
  intros r Hsent Hr Hc. subst r. revert Hsent.
  unfold retry. rewrite retrying_unfold, request_once_eval. cbn zeta.
  assert (fetch method endpoint (_cache_path self endpoint cache_key) w
          = (Raise (HTTPStatusError code), sent_world method (api_url endpoint) w))
    as Hf.
  { rewrite core_sig_fetch_eval. cbn zeta. by rewrite Hr, Hc. }
  destruct (files w !! _) as [f|]; [|by rewrite Hf].
  destruct (bool_decide _); [|by rewrite Hf].
  destruct (loads (content f)); [|by rewrite Hf].
  simpl. done.
Qed.

End CoreSigFacts.

(** ** The requests client *)

Section RequestsFacts.
Import coresignal_client.

Lemma rate_limit_eval cfg s : _rate_limit cfg s = (Ok tt, rate_limited cfg s).
Proof.
  unfold _rate_limit, rate_limited, mbind, M_bind, gets, modify, mret, M_ret,
    id, lift, sleep.
  simpl. destruct (_ <? _); simpl; [done|]. by destruct s.
Qed.

(** One iteration of the loop. *)
Lemma attempts_step cfg method url remaining attempt s :
  attempts cfg method url (S remaining) attempt s =
    let s1 := requested method url (rate_limited cfg s) in
    match upstream (env s) (calls (env s)) with
    | NoResponse => backoff cfg method url remaining attempt s1
    | Response code hs text =>
      let s2 := counted s1 in
      if code =? 200 then (Ok (Received code hs text), s2)
      else if code =? 422 then (Ok Empty, failed s2)
      else if code =? 429 then
        match header "Retry-After" hs with
        | Some v =>
          match int v with
          | Some retry_after =>
            if retry_after <? 0 then (Raise ValueError, s2)
            else attempts cfg method url remaining (attempt + 1)
                   (slept (seconds retry_after) s2)
          | None => (Raise ValueError, s2)
          end
        | None =>
          attempts cfg method url remaining (attempt + 1) (slept (seconds 60) s2)
        end
      else if code =? 401 then (Ok Empty, failed s2)
      else backoff cfg method url remaining attempt s2
    end.
Proof.
  cbn [attempts]. rewrite bind_eval, rate_limit_eval. rewrite bind_eval.
  unfold lift at 1, send. cbn -[attempts Z.pow rate_limited].
  assert (upstream (env (rate_limited cfg s)) (calls (env (rate_limited cfg s)))
          = upstream (env s) (calls (env s))) as ->.
  { unfold rate_limited. simpl. by destruct (_ <? _). }
  unfold backoff.
  destruct (upstream (env s) (calls (env s))) as [code hs text|].
  2:{ destruct (_ <? _); [|done]. reflexivity. }
  rewrite bind_eval. cbn -[attempts Z.pow rate_limited header int].
  destruct (code =? 200); [done|].
  destruct (code =? 422); [done|].
  destruct (code =? 429).
  { destruct (header _ hs) as [v|].
    - destruct (int v) as [k|]; [|done]. unfold time_sleep.
      destruct (k <? 0); [done|]. reflexivity.
    - reflexivity. }
  destruct (code =? 401); [done|].
  destruct (_ <? _); [|done]. reflexivity.
Qed.

Lemma rate_limited_observables cfg s :
  let s' := rate_limited cfg s in
  calls (env s') = calls (env s)
  ∧ files (env s') = files (env s)
  ∧ clock (env s) <= clock (env s')
  ∧ stats (client s') = stats (client s)
  ∧ company_cache (client s') = company_cache (client s)
  ∧ member_cache (client s') = member_cache (client s).
Proof.
  unfold rate_limited. simpl.
  destruct (_ <? _) eqn:Hlt; simpl; repeat split; try done; lia.
Qed.

Lemma make_request_401 cfg method endpoint s hs body :
  (0 < MAX_RETRIES cfg)%nat →
  upstream (env s) (calls (env s)) = Response 401 hs body →
  _make_request cfg method endpoint s
  = (Ok Empty,
     failed (counted (requested method (base_url (client s) +:+ endpoint)
                        (rate_limited cfg s)))).
Proof.
  intros Hmax Hr. unfold _make_request.
  rewrite bind_eval. simpl.
  destruct (MAX_RETRIES cfg) as [|n] eqn:Hn; [lia|].
  rewrite attempts_step. cbn zeta. by rewrite Hr.
Qed.


End RequestsFacts.

(** ** The claims about the clients *)

Section ClientClaims.
Import Json EnhancedCoreSignalClient.

(** C5, as the code has it.  A [get] or [post] of [EnhancedCoreSignalClient]
    that reaches the network and is answered by 404 returns [None], Python's
    absent value, after that one call and with the cache files untouched.  A
    [get] or [post] of the client of core_sig that is answered by 404 does
    not return: [raise_for_status()] raises [HTTPStatusError] to the caller,
    also after one call and with no file written. *)
Theorem not_found_outcome :
  (∀ c s hs body,
     let r := EnhancedCoreSignalClient.perform c s in
     calls (env r.2) ≠ calls (env s) →
     upstream (env s) (calls (env s)) = Response 404 hs body →
     r.1 = Ok JNull
     ∧ calls (env r.2) = S (calls (env s))
     ∧ files (env r.2) = files (env s))
  ∧ (∀ self endpoint cache_key w hs body,
       let r := core_sig_client.get self endpoint cache_key w in
       calls r.2 ≠ calls w →
       upstream w (calls w) = Response 404 hs body →
       r.1 = Raise (HTTPStatusError 404)
       ∧ calls r.2 = S (calls w) ∧ files r.2 = files w)
  ∧ (∀ self endpoint json_body cache_key w hs body,
       let r := core_sig_client.post self endpoint json_body cache_key w in
       calls r.2 ≠ calls w →
       upstream w (calls w) = Response 404 hs body →
       r.1 = Raise (HTTPStatusError 404)
       ∧ calls r.2 = S (calls w) ∧ files r.2 = files w).
Proof.
  split; [|split].
  - intros c s hs body r Hsent Hr.
    eapply perform_refusal_status; eauto.
  - intros self endpoint cache_key w hs body r Hsent Hr. subst r.
    unfold core_sig_client.get in *.
    rewrite (core_sig_error_status self "get" endpoint cache_key w 404 hs body);
      done.
  - intros self endpoint json_body cache_key w hs body r Hsent Hr. subst r.
    unfold core_sig_client.post in *.
    rewrite (core_sig_error_status self "post" endpoint cache_key w 404 hs body);
      done.
Qed.

Lemma not_found_outcome_witness :
  let s := with_replies (λ _, Response 404 [] "") example_client in
  let r := EnhancedCoreSignalClient.perform
             (EnhancedCoreSignalClient.Get "/v1/people/42" None) s in
  calls (env r.2) ≠ calls (env s)
  ∧ upstream (env s) (calls (env s)) = Response 404 [] ""
  ∧ r.1 = Ok JNull
  ∧ calls (env r.2) = S (calls (env s))
  ∧ files (env r.2) = files (env s).
Proof.
  intros s r.
  assert (calls (env r.2) ≠ calls (env s)) as Hsent by (vm_compute; lia).
  split; [exact Hsent|]. split; [reflexivity|].
  exact (proj1 not_found_outcome
           (EnhancedCoreSignalClient.Get "/v1/people/42" None) s [] ""%string
           Hsent eq_refl).
Defined.

(** A 404 makes [get] of the client of core_sig raise. *)
Lemma core_sig_get_raises_on_404 :
  let self := core_sig_client.__init__ (Some "key"%string) None ".cache" 7 in
  let w := example_world (λ _, Response 404 [] "") in
  (core_sig_client.get self "/v1/people/42" "42" w).1 = Raise (HTTPStatusError 404).
Proof. vm_compute. reflexivity. Qed.

(** C6, as the code has it.  A call answered by 401 (for
    [EnhancedCoreSignalClient] also by 403) is not repeated, whatever the
    retry limit, and nothing is cached; no error reaches the caller:
    [EnhancedCoreSignalClient] returns [None] as for a 404, the requests
    client counts one error and hands back the empty [Response]. *)
Theorem authentication_failure_outcome :
  (∀ c s code hs body,
     let r := EnhancedCoreSignalClient.perform c s in
     calls (env r.2) ≠ calls (env s) →
     upstream (env s) (calls (env s)) = Response code hs body →
     code = 401 ∨ code = 403 →
     r.1 = Ok JNull
     ∧ calls (env r.2) = S (calls (env s))
     ∧ files (env r.2) = files (env s))
  ∧ (∀ cfg method endpoint s hs body,
       let r := coresignal_client._make_request cfg method endpoint s in
       (0 < coresignal_client.MAX_RETRIES cfg)%nat →
       upstream (coresignal_client.env s) (calls (coresignal_client.env s))
         = Response 401 hs body →
       r.1 = Ok coresignal_client.Empty
       ∧ calls (coresignal_client.env r.2) = S (calls (coresignal_client.env s))
       ∧ coresignal_client.errors (coresignal_client.stats (coresignal_client.client r.2))
         = coresignal_client.errors (coresignal_client.stats (coresignal_client.client s)) + 1
       ∧ coresignal_client.company_cache (coresignal_client.client r.2)
         = coresignal_client.company_cache (coresignal_client.client s)
       ∧ coresignal_client.member_cache (coresignal_client.client r.2)
         = coresignal_client.member_cache (coresignal_client.client s)
       ∧ files (coresignal_client.env r.2) = files (coresignal_client.env s)).
Proof.
  split.
  - intros c s code hs body r Hsent Hr Hc.
    eapply perform_refusal_status; eauto.
  - intros cfg method endpoint s hs body r Hmax Hr. subst r.
    rewrite (make_request_401 cfg method endpoint s hs body Hmax Hr).
    pose proof (rate_limited_observables cfg s) as Ho. cbn zeta in Ho.
    destruct Ho as (Hc & Hf & _ & Hs & Hcc & Hmc).
    cbn -[coresignal_client.rate_limited]. rewrite Hc, Hf, Hs, Hcc, Hmc. done.
Qed.

Lemma authentication_failure_outcome_witness :
  let cfg := coresignal_client.default_config "key" in
  let s := requests_with_replies (λ _, Response 401 [] "") requests_client in
  let r := coresignal_client._make_request cfg "GET" "/member/collect/42" s in
  (0 < coresignal_client.MAX_RETRIES cfg)%nat
  ∧ upstream (coresignal_client.env s) (calls (coresignal_client.env s))
    = Response 401 [] ""
  ∧ r.1 = Ok coresignal_client.Empty
  ∧ calls (coresignal_client.env r.2) = S (calls (coresignal_client.env s)).
Proof.
  intros cfg s r.
  assert (0 < coresignal_client.MAX_RETRIES cfg)%nat as Hmax by (simpl; lia).
  split; [exact Hmax|]. split; [reflexivity|].
  destruct (proj2 authentication_failure_outcome cfg "GET"%string
              "/member/collect/42"%string s [] ""%string Hmax eq_refl)
    as (Hr & Hc & _).
  split; [exact Hr|exact Hc].
Defined.

(** A 401 does not surface as an error: [get] returns [None], as it does for
    a 404. *)
Lemma enhanced_get_returns_none_on_401 :
  let s401 := with_replies (λ _, Response 401 [] "") example_client in
  let s404 := with_replies (λ _, Response 404 [] "") example_client in
  (EnhancedCoreSignalClient.get "/v1/people/42" None s401).1 = Ok JNull
  ∧ (EnhancedCoreSignalClient.get "/v1/people/42" None s404).1 = Ok JNull.
Proof. vm_compute. done. Qed.




End ClientClaims.

Section CacheClaims.
Import Json EnhancedCoreSignalClient.

Lemma success_not_special code :
  is_success code = true → (code =? 404) = false ∧ (code =? 429) = false.
Proof. unfold is_success. lia. Qed.

(** The attempt that is let through and answered by a 2xx status with a
    JSON body returns the parsed body. *)
Lemma attempt_success method endpoint s rl code hs body data :
  granted s rl →
  upstream (env s) (calls (env s)) = Response code hs body →
  is_success code = true → loads body = Some data →
  attempt method endpoint s
  = (Ok data, sent_state method (API_BASE_URL +:+ endpoint) (set_rate_limiter rl s)).
Proof.
  intros Hg Hr Hc Hl. destruct (success_not_special code Hc) as [H404 H429].
  unfold attempt. rewrite bind_eval, (acquire_granted s rl Hg).
  rewrite bind_eval. unfold lift, send. simpl.
  by rewrite Hr, H404, H429, Hc, Hl.
Qed.

Lemma perform_corrupt c s f :
  files (env s) !! cache_path_of (client s) c = Some f →
  loads (content f) = None →
  perform c s = fetch (method_of c) (endpoint_of c) (cache_path_of (client s) c) s.
Proof.
  intros Hf Hl. rewrite perform_eval, cached_eval. cbn zeta.
  unfold cache_path_of in Hf. rewrite Hf, Hl. by destruct (bool_decide _).
Qed.


(** C8, as the code has it.  A cache file that does not parse never makes
    [get] or [post] raise: the call takes the network path.  A successful
    answer overwrites the file when the client of core_sig made the call, and
    when [EnhancedCoreSignalClient] made it and the answer is truthy; a
    falsy answer ([{}], [[]], [0], ...) is returned by
    [EnhancedCoreSignalClient] without touching the file. *)
Theorem corrupt_cache_fallback :
  (∀ c s f,
     files (env s) !! cache_path_of (client s) c = Some f →
     loads (content f) = None →
     perform c s
     = fetch (method_of c) (endpoint_of c) (cache_path_of (client s) c) s)
  ∧ (∀ c s f rl code hs body data,
       files (env s) !! cache_path_of (client s) c = Some f →
       loads (content f) = None →
       granted s rl →
       upstream (env s) (calls (env s)) = Response code hs body →
       is_success code = true → loads body = Some data →
       writable (env s) (cache_path_of (client s) c) = true →
       (perform c s).1 = Ok data
       ∧ if truthy data
         then files (env (perform c s).2) !! cache_path_of (client s) c
              = Some (mkfile (clock (env s)) (dumps_indent 2 data))
         else files (env (perform c s).2) = files (env s))
  ∧ (∀ self endpoint cache_key w f code hs body data,
       let path := core_sig_client._cache_path self endpoint cache_key in
       files w !! path = Some f →
       loads (content f) = None →
       upstream w (calls w) = Response code hs body →
       is_success code = true → loads body = Some data →
       writable w path = true →
       (core_sig_client.get self endpoint cache_key w).1 = Ok data
       ∧ files (core_sig_client.get self endpoint cache_key w).2 !! path
         = Some (mkfile (clock w) (dumps data)))
  ∧ (∀ self endpoint json_body cache_key w f code hs body data,
       let path := core_sig_client._cache_path self endpoint cache_key in
       files w !! path = Some f →
       loads (content f) = None →
       upstream w (calls w) = Response code hs body →
       is_success code = true → loads body = Some data →
       writable w path = true →
       (core_sig_client.post self endpoint json_body cache_key w).1 = Ok data
       ∧ files (core_sig_client.post self endpoint json_body cache_key w).2 !! path
         = Some (mkfile (clock w) (dumps data))).
Proof.
  assert (∀ self method endpoint cache_key w f code hs body data,
    let path := core_sig_client._cache_path self endpoint cache_key in
    files w !! path = Some f → loads (content f) = None →
    upstream w (calls w) = Response code hs body →
    is_success code = true → loads body = Some data →
    writable w path = true →
    let r := retry id 4 core_sig_client.retry_if (wait_exponential 1 1 10)
               (core_sig_client.request_once self method endpoint cache_key) w in
    r.1 = Ok data ∧ files r.2 !! path = Some (mkfile (clock w) (dumps data)))
    as Hcore.
  { intros self method endpoint cache_key w f code hs body data path
      Hf Hl Hr Hc Hb Hw r. subst r.
    unfold retry. rewrite retrying_unfold, request_once_eval. cbn zeta.
    fold path. rewrite Hf, Hl.
    assert (core_sig_client.fetch method endpoint path w
            = (Ok data, core_sig_client.written path (dumps data)
                          (core_sig_client.sent_world method
                             (core_sig_client.api_url endpoint) w))) as ->.
    { rewrite core_sig_fetch_eval. cbn zeta. by rewrite Hr, Hc, Hb. }
    destruct (bool_decide _); simpl; (split; [done|]);
      unfold core_sig_client.written; simpl; rewrite Hw; simpl;
      by rewrite lookup_insert_eq. }
  split; [|split; [|split]].
  - apply perform_corrupt.
  - intros c s f rl code hs body data Hf Hl Hg Hr Hc Hb Hw.
    rewrite (perform_corrupt c s f Hf Hl), fetch_eval.
    rewrite (make_request_ok _ _ _ _ _
               (attempt_success _ _ s rl code hs body data Hg Hr Hc Hb)).
    destruct (truthy data); [|done].
    simpl. rewrite Hw. simpl. split; [done|]. by rewrite lookup_insert_eq.
  - intros. by eapply Hcore.
  - intros. by eapply Hcore.
Qed.

Lemma corrupt_cache_fallback_witness :
  let c := Get "/v1/people/42" None in
  let body := dumps (JDict [("id", JInt 1)]%string) in
  let s0 := with_replies (λ _, Response 200 [] body) example_client in
  let s := with_file (cache_path_of (client s0) c) corrupt_file s0 in
  files (env s) !! cache_path_of (client s) c = Some corrupt_file
  ∧ loads (content corrupt_file) = None
  ∧ perform c s
    = fetch (method_of c) (endpoint_of c) (cache_path_of (client s) c) s.
Proof.
  intros c body s0 s.
  assert (files (env s) !! cache_path_of (client s) c = Some corrupt_file) as Hf.
  { apply lookup_insert_eq. }
  split; [exact Hf|]. split; [reflexivity|].
  exact (proj1 corrupt_cache_fallback c s corrupt_file Hf eq_refl).
Defined.

(** A successful answer with an empty body leaves the corrupt file in
    place. *)
Lemma corrupt_file_survives_empty_answer :
  let c := Get "/v1/people/42" None in
  let s0 := with_replies (λ _, Response 200 [] "{}") example_client in
  let s := with_file (cache_path_of (client s0) c) corrupt_file s0 in
  loads (content corrupt_file) = None
  ∧ (perform c s).1 = Ok (JDict [])
  ∧ calls (env (perform c s).2) = 1%nat
  ∧ files (env (perform c s).2) !! cache_path_of (client s) c = Some corrupt_file.
Proof. vm_compute. done. Qed.

End CacheClaims.

(** ** What the client returns is a document *)

Section DocumentFacts.
Import Json JsonDocument EnhancedCoreSignalClient.






End DocumentFacts.

Section FreshnessClaims.
Import Json EnhancedCoreSignalClient.








(** C10, as the code has it.  The requests client refuses to be built
    without a key: with the argument empty or missing and no key configured
    it raises [ValueError], whatever the rest of the configuration, and
    every instance it builds has a key that is not empty.
    [EnhancedCoreSignalClient] takes any key, the empty one included. *)
Theorem credential_check :
  (∀ cfg api_key,
     api_key = None ∨ api_key = Some ""%string →
     coresignal_client.CORESIGNAL_API_KEY cfg = ""%string →
     coresignal_client.__init__ cfg api_key = inl ValueError)
  ∧ (∀ cfg api_key self,
       coresignal_client.__init__ cfg api_key = inr self →
       coresignal_client.api_key self ≠ ""%string)
  ∧ (∀ key cache_dir cache_ttl_days max_concurrent,
       api_key (__init__ key cache_dir cache_ttl_days max_concurrent) = key).
Proof.
  split; [|split].
  - intros cfg api_key [-> | ->] Hk; unfold coresignal_client.__init__;
      simpl; by rewrite Hk.
  - intros cfg api_key self. unfold coresignal_client.__init__.
    set (key := match api_key with Some s => _ | None => _ end).
    destruct (String.eqb_spec key ""); [done|].
    by intros [= <-].
  - done.
Qed.

Lemma credential_check_witness :
  let cfg := coresignal_client.default_config "" in
  let api_key : option string := None in
  (api_key = None ∨ api_key = Some ""%string)
  ∧ coresignal_client.CORESIGNAL_API_KEY cfg = ""%string
  ∧ coresignal_client.__init__ cfg api_key = inl ValueError.
Proof.
  intros cfg api_key.
  assert (api_key = None ∨ api_key = Some ""%string) as H by (by left).
  split; [exact H|]. split; [reflexivity|].
  exact (proj1 credential_check cfg api_key H eq_refl).
Defined.

(** [EnhancedCoreSignalClient] is built with an empty key and sends its
    request with it. *)
Lemma enhanced_client_accepts_empty_key :
  let self := __init__ "" ["cache"%string] 7 5 in
  let s := mkstate self (example_world (λ _, Response 200 [] sample_body)) in
  api_key self = ""%string
  ∧ headers self = [("Authorization", "Bearer ")]%string
  ∧ (get "/v1/people/42" None s).1 = Ok (JDict [("id", JInt 1)]%string)
  ∧ calls (env (get "/v1/people/42" None s).2) = 1%nat.
Proof. vm_compute. done. Qed.

End FreshnessClaims.

(** ** The models of the libraries, tried on known values *)

Example md5_test_vectors :
  Md5.hexdigest "" = "d41d8cd98f00b204e9800998ecf8427e"%string
  ∧ Md5.hexdigest "abc" = "900150983cd24fb0d6963f7d28e17f72"%string
  ∧ EnhancedCoreSignalClient._get_cache_key "/v1/x" (Json.JDict [])
    = "0b88187cac1d0a72753596d5c5b38396"%string.
Proof. vm_compute. done. Qed.

Example json_round_trip :
  let j := Json.JDict [("b", Json.JList [Json.JInt 1; Json.JNull; Json.JBool true]);
                       ("a", Json.JStr "x y"); ("n", Json.JInt (-120))]%string in
  Json.loads (Json.dumps_indent 2 j) = Some j
  ∧ Json.loads (Json.dumps j) = Some j
  ∧ Json.loads (Json.dumps_sorted j) = Some (Json.sort_keys j)
  ∧ Json.loads "{not json" = None.
Proof. vm_compute. done. Qed.

Example core_sig_cache_path_example :
  core_sig_client._cache_path
    (core_sig_client.__init__ None (Some "key"%string) ".cache" 7)
    "/v1/people/search?email=jane@acme.com" "jane@acme.com"
  = [".cache"; "v1_people_search_email_jane_acme.com"; "jane_acme.com.json"]%string.
Proof. vm_compute. reflexivity. Qed.

(** * Further properties of the code *)

(** ** [RateLimiter] below and at its limits *)

Section LimiterCapacity.
Import RateLimiter.

Lemma prune_length self now : (length (prune self now) ≤ length (requests self))%nat.
Proof. apply length_filter. Qed.

(** With room for one more the call is let through at once. *)
Lemma acquire_room fuel k self now :
  room (S k) self →
  acquire (S (S fuel)) self now
  = Acquired (mk (max_requests self) (time_window self) (prune self now ++ [now]) false)
  ∧ room k (mk (max_requests self) (time_window self) (prune self now ++ [now]) false).
Proof.
  intros [Hl Hr]. pose proof (prune_length self now) as Hp.
  rewrite acquire_unlocked by done. cbn zeta.
  destruct (Z.of_nat _ >=? _) eqn:Hg.
  { rewrite Z.geb_leb in Hg. apply Z.leb_le in Hg. lia. }
  split; [done|]. split; [done|]. simpl. rewrite length_app. simpl. lia.
Qed.

Lemma run_room fuel times : ∀ self,
  room (length times) self →
  (run (S (S fuel)) self times).2 = times
  ∧ room 0 (run (S (S fuel)) self times).1.
Proof.
  induction times as [|now times IH]; intros self Hr; [done|].
  destruct (acquire_room fuel (length times) self now Hr) as [Ha Hr'].
  cbn [run]. rewrite Ha. specialize (IH _ Hr').
  destruct (run (S (S fuel)) _ times) as [final sent]. simpl in *.
  destruct IH as [-> ?]. done.
Qed.

End LimiterCapacity.

(** X1.  A limiter with a free lock and room for [k] more timestamps lets the
    next [k] calls through, whatever their clock readings: every one of them
    is granted, none is held back and none raises, and the lock is free
    afterwards.  In particular the first [N] calls on a new limiter for [N]
    requests per window are all granted. *)
Theorem limiter_lets_calls_through_while_room :
  (∀ fuel self times,
     RateLimiter.room (length times) self →
     (RateLimiter.run (S (S fuel)) self times).2 = times
     ∧ RateLimiter._lock (RateLimiter.run (S (S fuel)) self times).1 = false)
  ∧ (∀ fuel N T times,
       Z.of_nat (length times) <= N →
       (RateLimiter.run (S (S fuel)) (RateLimiter.__init__ N T) times).2 = times).
Proof.
  split.
  - intros fuel self times Hr.
    destruct (run_room fuel times self Hr) as [Hs [Hl _]]. done.
  - intros fuel N T times Hn.
    apply (run_room fuel times). split; [done|]. simpl. lia.
Qed.

Lemma limiter_lets_calls_through_while_room_witness :
  let times := [0; 5; 5; 900000; 100] in
  Z.of_nat (length times) <= 5
  ∧ (RateLimiter.run 2 (RateLimiter.__init__ 5 (seconds 1)) times).2 = times.
Proof.
  intros times. split; [simpl; lia|].
  apply (proj2 limiter_lets_calls_through_while_room 0%nat 5 (seconds 1) times).
  simpl. lia.
Defined.

(** X2.  A limiter for no requests at all ([max_requests <= 0]) whose window
    holds no fresh timestamp does not wait: [self.requests[0]] raises
    [IndexError] on the empty list, and the lock is released.  A client built
    with [max_concurrent <= 0] therefore answers every call that is not a
    cache hit with [IndexError], which the retry decorator does not repeat,
    sends nothing, and is left as it was. *)
Theorem zero_capacity_raises_index_error :
  (∀ fuel self now,
     RateLimiter._lock self = false →
     RateLimiter.max_requests self <= 0 →
     RateLimiter.prune self now = [] →
     RateLimiter.acquire (S (S fuel)) self now
     = RateLimiter.Raised RateLimiter.IndexError
         (RateLimiter.mk (RateLimiter.max_requests self)
            (RateLimiter.time_window self) [] false))
  ∧ (∀ c s N,
       N <= 0 →
       EnhancedCoreSignalClient.rate_limiter (EnhancedCoreSignalClient.client s)
       = RateLimiter.__init__ N (seconds 1) →
       files (EnhancedCoreSignalClient.env s)
         !! EnhancedCoreSignalClient.cache_path_of (EnhancedCoreSignalClient.client s) c
       = None →
       EnhancedCoreSignalClient.perform c s = (Raise IndexError, s)).
Proof.
  split.
  - intros fuel self now Hl Hm Hp. rewrite acquire_unlocked by done. cbn zeta.
    rewrite Hp. cbn [length].
    destruct (_ >=? _) eqn:Hg; [done|].
    rewrite Z.geb_leb in Hg. apply Z.leb_gt in Hg. lia.
  - intros c s N HN Hrl Hf.
    assert (EnhancedCoreSignalClient.acquire s = (Raise IndexError, s)) as Ha.
    { unfold EnhancedCoreSignalClient.acquire. rewrite Hrl.
      change (RateLimiter.acquire 2 (RateLimiter.__init__ N (seconds 1)) _)
        with (if Z.of_nat 0 >=? N
              then RateLimiter.Raised RateLimiter.IndexError
                     (RateLimiter.__init__ N (seconds 1))
              else RateLimiter.Acquired
                     (RateLimiter.mk N (seconds 1)
                        [clock (EnhancedCoreSignalClient.env s)] false)).
      destruct (_ >=? _) eqn:Hg.
      2:{ rewrite Z.geb_leb in Hg. apply Z.leb_gt in Hg. lia. }
      destruct s as [[] w]. simpl in *. by rewrite Hrl. }
    rewrite perform_eval, cached_eval. cbn zeta.
    unfold EnhancedCoreSignalClient.cache_path_of in Hf. rewrite Hf.
    rewrite fetch_eval.
    unfold EnhancedCoreSignalClient._make_request, retry.
    rewrite retrying_unfold. unfold EnhancedCoreSignalClient.attempt.
    by rewrite bind_eval, Ha.
Qed.

Lemma zero_capacity_raises_index_error_witness :
  let s := EnhancedCoreSignalClient.mkstate
             (EnhancedCoreSignalClient.__init__ "key" ["cache"%string] 7 0)
             (example_world (λ _, Response 200 [] "{}")) in
  let c := EnhancedCoreSignalClient.Get "/v1/people/42" None in
  0 <= 0
  ∧ EnhancedCoreSignalClient.perform c s = (Raise IndexError, s).
Proof.
  intros s c. split; [lia|].
  apply (proj2 zero_capacity_raises_index_error c s 0); [lia|reflexivity|reflexivity].
Defined.

(** ** [EnhancedCoreSignalClient]: cache files, retries, searches *)

Section EnhancedExtras.
Import Json JsonDocument EnhancedCoreSignalClient.

(** Room in the limiter is room for the next call of the client. *)
Lemma granted_room s k :
  RateLimiter.room (S k) (rate_limiter (client s)) →
  ∃ rl, granted s rl ∧ RateLimiter.room k rl.
Proof.
  intros Hr. destruct (acquire_room 0 k _ (clock (env s)) Hr) as [Ha Hr'].
  eexists. split; [exact Ha|exact Hr'].
Qed.

Lemma attempt_transient method endpoint s rl e :
  granted s rl →
  transient (upstream (env s) (calls (env s))) = Some e →
  attempt method endpoint s
  = (Raise e, sent_state method (API_BASE_URL +:+ endpoint) (set_rate_limiter rl s)).
Proof.
  intros Hg Ht. unfold attempt. rewrite bind_eval, (acquire_granted s rl Hg).
  rewrite bind_eval. unfold lift, send. simpl.
  destruct (upstream (env s) (calls (env s))) as [code hs body|]; simpl in *.
  2:{ by injection Ht as <-. }
  destruct (is_success code) eqn:Hs; [done|].
  destruct (code =? 404) eqn:H404; [done|].
  destruct (code =? 401) eqn:H401; [done|].
  destruct (code =? 403) eqn:H403; [done|].
  destruct (code =? 429) eqn:H429; [done|].
  simpl in Ht. injection Ht as <-.
  unfold on_status_error. by rewrite H401, H403, H404.
Qed.

Lemma attempt_refusal method endpoint s rl :
  granted s rl →
  refusal (upstream (env s) (calls (env s))) = true →
  attempt method endpoint s
  = (Ok JNull, sent_state method (API_BASE_URL +:+ endpoint) (set_rate_limiter rl s)).
Proof.
  intros Hg Hr.
  destruct (upstream (env s) (calls (env s))) as [code hs body|] eqn:Hu; [|done].
  apply (attempt_refusal_status method endpoint s rl code hs body Hg Hu).
  simpl in Hr. lia.
Qed.


(** The retries of [_make_request], unfolded once. *)
Lemma retry_step method endpoint wait remaining n s e s1 :
  attempt method endpoint s = (Raise e, s1) →
  retry_if e = true →
  retrying lift (S remaining) n retry_if wait (attempt method endpoint) s
  = retrying lift remaining (n + 1) retry_if wait (attempt method endpoint)
      (mkstate (client s1)
         (log_event (Slept (seconds (wait n)))
            (set_clock (clock (env s1) + seconds (wait n)) (env s1)))).
Proof.
  intros Ha Hr. rewrite retrying_unfold, Ha, Hr. by rewrite bind_eval.
Qed.

Lemma transient_retried r e : transient r = Some e → retry_if e = true.
Proof.
  destruct r as [code hs body|]; simpl; [|by intros [= <-]].
  case_match; [done|]. by intros [= <-].
Qed.

(** A search is its [get], followed by its [post] when there is one and the
    [get] came back empty. *)
Lemma run_query_eval q s :
  run_query q s =
    match perform (first_call q) s with
    | (Ok d, s1) =>
      if truthy d then (Ok (results_of d), s1)
      else
        match fallback q with
        | Some c =>
          match perform c s1 with
          | (Ok d2, s2) => (Ok (results_of d2), s2)
          | (Raise e, s2) => (Raise e, s2)
          | (Hang, s2) => (Hang, s2)
          end
        | None => (Ok (results_of d), s1)
        end
    | (Raise e, s1) => (Raise e, s1)
    | (Hang, s1) => (Hang, s1)
    end.
Proof.
  destruct q; cbn [run_query first_call fallback perform];
    unfold search_person_by_email, search_person_by_linkedin_url,
      search_person_by_shorthand, search_company_by_name, search_company_by_domain;
    rewrite bind_eval;
    match goal with |- context [get ?e ?p s] =>
      destruct (get e p s) as [[d|e0|] s1] end; try done;
    try (by destruct (truthy d));
    rewrite bind_eval; destruct (truthy d); try done;
    match goal with |- context [post ?e ?p ?s'] =>
      destruct (post e p s') as [[d2|e2|] s2] end; done.
Qed.


Lemma perform_calls c s :
  (calls (env s) ≤ calls (env (perform c s).2) ≤ calls (env s) + 3)%nat.
Proof.
  rewrite perform_eval, cached_eval. cbn zeta.
  assert (∀ path, calls (env s)
                  ≤ calls (env (fetch (method_of c) (endpoint_of c) path s).2)
                  ≤ calls (env s) + 3)%nat as Hfetch.
  { intros path. rewrite fetch_calls.
    pose proof (make_request_frame (method_of c) (endpoint_of c) s) as Hm.
    destruct (_make_request _ _ s) as [r s']. destruct Hm as ([] & Hc & _).
    simpl. lia. }
  repeat case_match; simpl; try apply Hfetch; lia.
Qed.

(** A call with no entry, let through and refused by the API. *)
Lemma perform_refused c s rl :
  files (env s) !! cache_path_of (client s) c = None →
  granted s rl →
  refusal (upstream (env s) (calls (env s))) = true →
  perform c s
  = (Ok JNull, sent_state (method_of c) (API_BASE_URL +:+ endpoint_of c)
                 (set_rate_limiter rl s)).
Proof.
  intros Hf Hg Hr. rewrite perform_eval, cached_eval. cbn zeta.
  unfold cache_path_of in Hf. rewrite Hf, fetch_eval.
  by rewrite (make_request_ok _ _ _ _ _ (attempt_refusal _ _ s rl Hg Hr)).
Qed.

End EnhancedExtras.



(** X4.  [_make_request] under failures that last: when the limiter has room
    for three calls and the next three answers are connection failures or
    error statuses other than 404, 401, 403 and 429, the decorator makes
    exactly three calls, sleeps one second after the first and two after the
    second, and raises [RetryError] around the last exception; no file is
    touched. *)
Theorem make_request_retry_schedule :
  ∀ method endpoint s e0 e1 e2,
    RateLimiter.room 3 (EnhancedCoreSignalClient.rate_limiter
                          (EnhancedCoreSignalClient.client s)) →
    let w := EnhancedCoreSignalClient.env s in
    EnhancedCoreSignalClient.transient (upstream w (calls w)) = Some e0 →
    EnhancedCoreSignalClient.transient (upstream w (S (calls w))) = Some e1 →
    EnhancedCoreSignalClient.transient (upstream w (S (S (calls w)))) = Some e2 →
    let r := EnhancedCoreSignalClient._make_request method endpoint s in
    let w' := EnhancedCoreSignalClient.env r.2 in
    let url := EnhancedCoreSignalClient.API_BASE_URL +:+ endpoint in
    r.1 = Raise (RetryError e2)
    ∧ calls w' = (calls w + 3)%nat
    ∧ clock w' = clock w + seconds 3
    ∧ trace w' = trace w ++ [Sent method url; Slept (seconds 1);
                             Sent method url; Slept (seconds 2);
                             Sent method url]
    ∧ files w' = files w.
Proof.
  intros method endpoint s e0 e1 e2 Hroom w H0 H1 H2. subst w.
  destruct (granted_room s 2 Hroom) as (rl0 & Hg0 & Hr0).
  pose proof (attempt_transient method endpoint s rl0 e0 Hg0 H0) as Ha0.
  unfold EnhancedCoreSignalClient._make_request, retry.
  change (3 - 1)%nat with 2%nat.
  rewrite (retry_step _ _ _ _ _ _ _ _ Ha0 (transient_retried _ _ H0)).
  set (s1 := EnhancedCoreSignalClient.mkstate _ _).
  assert (RateLimiter.room 2 (EnhancedCoreSignalClient.rate_limiter
                                (EnhancedCoreSignalClient.client s1))) as Hroom1
    by exact Hr0.
  destruct (granted_room s1 1 Hroom1) as (rl1 & Hg1 & Hr1).
  pose proof (attempt_transient method endpoint s1 rl1 e1 Hg1 H1) as Ha1.
  rewrite (retry_step _ _ _ _ _ _ _ _ Ha1 (transient_retried _ _ H1)).
  set (s2 := EnhancedCoreSignalClient.mkstate _ _).
  assert (RateLimiter.room 1 (EnhancedCoreSignalClient.rate_limiter
                                (EnhancedCoreSignalClient.client s2))) as Hroom2
    by exact Hr1.
  destruct (granted_room s2 0 Hroom2) as (rl2 & Hg2 & Hr2).
  pose proof (attempt_transient method endpoint s2 rl2 e2 Hg2 H2) as Ha2.
  rewrite retrying_unfold, Ha2, (transient_retried _ _ H2).
  subst s2 s1. cbn.
  change (wait_exponential 1 1 10 1) with 1.
  change (wait_exponential 1 1 10 (1 + 1)) with 2.
  repeat split; try done; try lia.
  - unfold seconds. lia.
  - by rewrite <- !app_assoc.
Qed.

Lemma make_request_retry_schedule_witness :
  let s := with_replies (λ k, match k with
                              | 0%nat => NoResponse
                              | 1%nat => Response 500 [] ""
                              | _ => Response 503 [] ""
                              end) example_client in
  let r := EnhancedCoreSignalClient._make_request "get" "/v1/people/42" s in
  RateLimiter.room 3 (EnhancedCoreSignalClient.rate_limiter
                        (EnhancedCoreSignalClient.client s))
  ∧ r.1 = Raise (RetryError (HTTPStatusError 503))
  ∧ calls (EnhancedCoreSignalClient.env r.2) = 3%nat
  ∧ clock (EnhancedCoreSignalClient.env r.2) = seconds 3.
Proof.
  intros s r.
  assert (RateLimiter.room 3 (EnhancedCoreSignalClient.rate_limiter
                                (EnhancedCoreSignalClient.client s))) as Hroom.
  { split; [reflexivity|]. simpl. lia. }
  split; [exact Hroom|].
  destruct (make_request_retry_schedule "get" "/v1/people/42" s
              RequestError (HTTPStatusError 500) (HTTPStatusError 503)
              Hroom eq_refl eq_refl eq_refl) as (H1 & H2 & H3 & _).
  split; [exact H1|]. split; [exact H2|exact H3].
Defined.



(** X6.  A search the API refuses (404, 401 or 403 to every call) returns
    the empty list: with no cache entry for its calls and room in the limiter
    it sends its [get], then its [post] when it has one, each once, caches
    nothing and raises nothing. *)
Theorem search_refused_returns_empty_list :
  ∀ q s,
    let w := EnhancedCoreSignalClient.env s in
    let cs := EnhancedCoreSignalClient.calls_of q in
    RateLimiter.room (length cs)
      (EnhancedCoreSignalClient.rate_limiter (EnhancedCoreSignalClient.client s)) →
    (∀ c, c ∈ cs →
          files w !! EnhancedCoreSignalClient.cache_path_of
                       (EnhancedCoreSignalClient.client s) c = None) →
    (∀ k, (k < length cs)%nat →
          EnhancedCoreSignalClient.refusal (upstream w (calls w + k)) = true) →
    let r := EnhancedCoreSignalClient.run_query q s in
    r.1 = Ok (inr (Json.JList []))
    ∧ calls (EnhancedCoreSignalClient.env r.2) = (calls w + length cs)%nat
    ∧ files (EnhancedCoreSignalClient.env r.2) = files w
    ∧ trace (EnhancedCoreSignalClient.env r.2)
      = trace w ++ map (λ c, Sent (EnhancedCoreSignalClient.method_of c)
                               (EnhancedCoreSignalClient.API_BASE_URL
                                +:+ EnhancedCoreSignalClient.endpoint_of c)) cs.
Proof.
  intros q s w cs Hroom Hfiles Hrefused r. subst r.
  rewrite run_query_eval.
  assert (∃ k, length cs = S k) as [k Hk] by (by eexists).
  rewrite Hk in Hroom.
  destruct (granted_room s k Hroom) as (rl & Hg & Hroom1).
  assert (EnhancedCoreSignalClient.refusal (upstream w (calls w)) = true) as Hr0.
  { rewrite <- (Nat.add_0_r (calls w)). apply Hrefused. lia. }
  rewrite (perform_refused _ s rl); [|apply Hfiles; left|done|done].
  cbn [Json.truthy].
  subst cs. unfold EnhancedCoreSignalClient.calls_of in *.
  destruct (EnhancedCoreSignalClient.fallback q) as [c2|] eqn:Hfb.
  - set (s1 := EnhancedCoreSignalClient.sent_state _ _ _).
    injection Hk as <-.
    destruct (granted_room s1 0 Hroom1) as (rl2 & Hg2 & _).
    rewrite (perform_refused c2 s1 rl2); [| |done|].
    + cbn. subst w. repeat split; try done; try lia.
      by rewrite <- app_assoc.
    + apply (Hfiles c2). right. left.
    + replace (calls (EnhancedCoreSignalClient.env s1)) with (calls w + 1)%nat
        by (simpl; subst w; lia).
      apply Hrefused. simpl. lia.
  - cbn. subst w. repeat split; try done; lia.
Qed.

Lemma search_refused_returns_empty_list_witness :
  let q := EnhancedCoreSignalClient.PersonByEmail "jane@acme.com" in
  let s := with_replies (λ _, Response 404 [] "") example_client in
  let r := EnhancedCoreSignalClient.run_query q s in
  r.1 = Ok (inr (Json.JList []))
  ∧ calls (EnhancedCoreSignalClient.env r.2) = 2%nat
  ∧ trace (EnhancedCoreSignalClient.env r.2)
    = [Sent "get" "https://api.coresignal.com/v1/people/search?email=jane@acme.com";
       Sent "post" "https://api.coresignal.com/v2/person/search"].
Proof.
  intros q s r.
  assert (RateLimiter.room 2
            (EnhancedCoreSignalClient.rate_limiter
               (EnhancedCoreSignalClient.client s))) as Hroom.
  { split; [reflexivity|]. simpl. lia. }
  destruct (search_refused_returns_empty_list q s Hroom) as (H1 & H2 & _ & H4).
  - intros c _. reflexivity.
  - intros k _. reflexivity.
  - split; [exact H1|]. split; [exact H2|exact H4].
Defined.

(** X7.  No search sends more than three HTTP calls for each of the calls it
    can issue: six at most for the two searches with a fallback, three for
    the others; the count of calls never goes down. *)
Theorem search_call_budget :
  ∀ q s,
    let n := calls (EnhancedCoreSignalClient.env s) in
    let n' := calls (EnhancedCoreSignalClient.env
                       (EnhancedCoreSignalClient.run_query q s).2) in
    (n ≤ n' ≤ n + 3 * length (EnhancedCoreSignalClient.calls_of q))%nat
    ∧ (length (EnhancedCoreSignalClient.calls_of q) ≤ 2)%nat.
Proof.
  intros q s n n'. subst n n'. split; [|destruct q; simpl; lia].
  rewrite run_query_eval.
  pose proof (perform_calls (EnhancedCoreSignalClient.first_call q) s) as H1.
  unfold EnhancedCoreSignalClient.calls_of.
  destruct (EnhancedCoreSignalClient.perform _ s) as [[d|e|] s1];
    cbn [fst snd length] in *; try lia.
  destruct (Json.truthy d); cbn [fst snd length]; [lia|].
  destruct (EnhancedCoreSignalClient.fallback q) as [c2|];
    cbn [fst snd length]; [|lia].
  pose proof (perform_calls c2 s1) as H2.
  destruct (EnhancedCoreSignalClient.perform c2 s1) as [[d2|e2|] s2];
    cbn [fst snd] in *; lia.
Qed.

(** ** The client of core_sig: cache hits, collisions, retries *)

Section CoreSigExtras.
Import Json JsonDocument core_sig_client.

Lemma request_once_outcome self method endpoint cache_key w :
  let r := request_once self method endpoint cache_key w in
  r.1 ≠ Hang
  ∧ (calls w ≤ calls r.2 ≤ S (calls w))%nat
  ∧ writable r.2 = writable w
  ∧ upstream r.2 = upstream w
  ∧ clock r.2 = clock w.
Proof.
  cbn zeta. rewrite request_once_eval. cbn zeta.
  assert (∀ path,
    let r := fetch method endpoint path w in
    r.1 ≠ Hang ∧ (calls w ≤ calls r.2 ≤ S (calls w))%nat
    ∧ writable r.2 = writable w ∧ upstream r.2 = upstream w
    ∧ clock r.2 = clock w) as Hfetch.
  { intros path. cbn zeta. rewrite core_sig_fetch_eval. cbn zeta.
    destruct (upstream w (calls w)) as [code hs body|]; [|simpl; auto 10].
    destruct (is_success code); [|simpl; auto 10].
    destruct (loads body); [|simpl; auto 10].
    unfold written. simpl. destruct (writable w path); simpl; auto 10. }
  destruct (files w !! _) as [f|]; [|apply Hfetch].
  destruct (bool_decide _); [|apply Hfetch].
  destruct (loads (content f)); [|apply Hfetch].
  simpl. auto 10.
Qed.

(** The decorator of [get] and [post]: at most one call for each attempt, and
    the call comes back. *)
Lemma core_sig_retrying_outcome self method endpoint cache_key wait remaining :
  ∀ n w,
    let r := retrying id remaining n retry_if wait
               (request_once self method endpoint cache_key) w in
    r.1 ≠ Hang ∧ (calls w ≤ calls r.2 ≤ calls w + S remaining)%nat.
Proof.
  induction remaining as [|remaining IH]; intros n w; cbn zeta;
    rewrite retrying_unfold;
    pose proof (request_once_outcome self method endpoint cache_key w) as Ho;
    cbn zeta in Ho;
    destruct (request_once self method endpoint cache_key w) as [[v|e|] w1];
    destruct Ho as (Hh & Hc & _); cbn [fst snd] in *; try done;
    try (split; [done|lia]).
  - destruct (retry_if e); cbn [fst snd]; (split; [done|lia]).
  - destruct (retry_if e); cbn [fst snd]; [|split; [done|lia]].
    rewrite bind_eval. cbn -[retrying].
    set (w2 := log_event _ _).
    specialize (IH (n + 1) w2). cbn zeta in IH. destruct IH as [IH1 IH2].
    split; [done|]. change (calls w2) with (calls w1) in IH2. lia.
Qed.







Lemma sanitize_idempotent s : _sanitize (_sanitize s) = _sanitize s.
Proof.
  unfold _sanitize. induction s as [|c s IH]; [done|]. cbn [map_string].
  fold (map_string (λ c, if safe_char c then c else "_"%char)).
  rewrite IH. f_equal. destruct (safe_char c) eqn:Hc; [by rewrite Hc|done].
Qed.



Lemma request_once_no_response self method endpoint cache_key w :
  files w !! _cache_path self endpoint cache_key = None →
  upstream w (calls w) = NoResponse →
  request_once self method endpoint cache_key w
  = (Raise RequestError, sent_world method (api_url endpoint) w).
Proof.
  intros Hf Hu. rewrite request_once_eval. cbn zeta. rewrite Hf.
  rewrite core_sig_fetch_eval. cbn zeta. by rewrite Hu.
Qed.

Lemma core_sig_retry_step self method endpoint cache_key wait remaining n w :
  files w !! _cache_path self endpoint cache_key = None →
  upstream w (calls w) = NoResponse →
  retrying id (S remaining) n retry_if wait
    (request_once self method endpoint cache_key) w
  = retrying id remaining (n + 1) retry_if wait
      (request_once self method endpoint cache_key)
      (log_event (Slept (seconds (wait n)))
         (set_clock (clock w + seconds (wait n))
            (sent_world method (api_url endpoint) w))).
Proof.
  intros Hf Hu.
  rewrite retrying_unfold, (request_once_no_response _ _ _ _ _ Hf Hu).
  cbn [retry_if]. by rewrite bind_eval.
Qed.

(** The retries of [get] and [post] when no call gets through. *)
Lemma core_sig_no_response self method endpoint cache_key w :
  let url := api_url endpoint in
  let r := retry id 4 retry_if (wait_exponential 1 1 10)
             (request_once self method endpoint cache_key) w in
  files w !! _cache_path self endpoint cache_key = None →
  (∀ k, (k < 4)%nat → upstream w (calls w + k) = NoResponse) →
  r.1 = Raise (RetryError RequestError)
  ∧ calls r.2 = (calls w + 4)%nat
  ∧ clock r.2 = clock w + seconds 7
  ∧ trace r.2 = trace w ++ [Sent method url; Slept (seconds 1);
                             Sent method url; Slept (seconds 2);
                             Sent method url; Slept (seconds 4);
                             Sent method url]
  ∧ files r.2 = files w.
Proof.
  intros url r Hf Hu. subst r. unfold retry. change (4 - 1)%nat with 3%nat.
  assert (upstream w (calls w) = NoResponse) as H0.
  { rewrite <- (Nat.add_0_r (calls w)). apply Hu. lia. }
  rewrite core_sig_retry_step by done.
  set (w1 := log_event _ _).
  rewrite (core_sig_retry_step _ _ _ _ _ _ _ w1);
    [|done|replace (calls w1) with (calls w + 1)%nat by (simpl; lia);
       apply Hu; lia].
  set (w2 := log_event _ _).
  rewrite (core_sig_retry_step _ _ _ _ _ _ _ w2);
    [|done|replace (calls w2) with (calls w + 2)%nat by (simpl; lia);
       apply Hu; lia].
  set (w3 := log_event _ _).
  rewrite retrying_unfold, (request_once_no_response _ _ _ _ w3);
    [|done|replace (calls w3) with (calls w + 3)%nat by (simpl; lia);
       apply Hu; lia].
  subst w3 w2 w1. cbn.
  change (wait_exponential 1 1 10 1) with 1.
  change (wait_exponential 1 1 10 (1 + 1)) with 2.
  change (wait_exponential 1 1 10 (1 + 1 + 1)) with 4.
  repeat split; try done; try lia.
  - unfold seconds. lia.
  - by rewrite <- !app_assoc.
Qed.

End CoreSigExtras.





(** X10.  The retry decorator of the client of core_sig repeats connection
    failures only.  With no cache entry and no answer to four calls in a row
    [get] and [post] make exactly those four calls, sleep 1, 2 and 4 seconds
    between them and raise [RetryError]; answered by any status outside
    200..299 they raise [HTTPStatusError] after the one call, without a
    retry.  No file is written either way. *)
Theorem core_sig_retries_connection_failures_only :
  (∀ self endpoint cache_key json_body w,
     files w !! core_sig_client._cache_path self endpoint cache_key = None →
     (∀ k, (k < 4)%nat → upstream w (calls w + k) = NoResponse) →
     let url := core_sig_client.api_url endpoint in
     let g := core_sig_client.get self endpoint cache_key w in
     let p := core_sig_client.post self endpoint json_body cache_key w in
     g.1 = Raise (RetryError RequestError)
     ∧ p.1 = Raise (RetryError RequestError)
     ∧ calls g.2 = (calls w + 4)%nat
     ∧ clock g.2 = clock w + seconds 7
     ∧ trace g.2 = trace w ++ [Sent "get" url; Slept (seconds 1);
                               Sent "get" url; Slept (seconds 2);
                               Sent "get" url; Slept (seconds 4);
                               Sent "get" url]
     ∧ files g.2 = files w ∧ files p.2 = files w)
  ∧ (∀ self endpoint cache_key json_body w code hs body,
       files w !! core_sig_client._cache_path self endpoint cache_key = None →
       upstream w (calls w) = Response code hs body →
       is_success code = false →
       core_sig_client.get self endpoint cache_key w
       = (Raise (HTTPStatusError code),
          core_sig_client.sent_world "get" (core_sig_client.api_url endpoint) w)
       ∧ core_sig_client.post self endpoint json_body cache_key w
         = (Raise (HTTPStatusError code),
            core_sig_client.sent_world "post" (core_sig_client.api_url endpoint) w)).
Proof.
  split.
  - intros self endpoint cache_key json_body w Hf Hu url g p.
    destruct (core_sig_no_response self "get" endpoint cache_key w Hf Hu)
      as (G1 & G2 & G3 & G4 & G5).
    destruct (core_sig_no_response self "post" endpoint cache_key w Hf Hu)
      as (P1 & _ & _ & _ & P5).
    repeat split; done.
  - intros self endpoint cache_key json_body w code hs body Hf Hu Hc.
    assert (∀ method,
      retry id 4 core_sig_client.retry_if (wait_exponential 1 1 10)
        (core_sig_client.request_once self method endpoint cache_key) w
      = (Raise (HTTPStatusError code),
         core_sig_client.sent_world method (core_sig_client.api_url endpoint) w))
      as H.
    { intros method. unfold retry.
      rewrite retrying_unfold, request_once_eval. cbn zeta. rewrite Hf.
      rewrite core_sig_fetch_eval. cbn zeta. by rewrite Hu, Hc. }
    split; apply H.
Qed.

Lemma core_sig_retries_connection_failures_only_witness :
  let self := core_sig_client.__init__ None (Some "key"%string) ".cache" 7 in
  let w := example_world (λ _, NoResponse) in
  let w500 := example_world (λ _, Response 500 [] "") in
  let g := core_sig_client.get self "/v1/people/42" "42" w in
  g.1 = Raise (RetryError RequestError)
  ∧ calls g.2 = 4%nat
  ∧ clock g.2 = seconds 7
  ∧ (core_sig_client.get self "/v1/people/42" "42" w500).1
    = Raise (HTTPStatusError 500).
Proof.
  intros self w w500 g.
  destruct (proj1 core_sig_retries_connection_failures_only self "/v1/people/42"
              "42" Json.JNull w eq_refl (λ k _, eq_refl))
    as (H1 & _ & H3 & H4 & _).
  destruct (proj2 core_sig_retries_connection_failures_only self "/v1/people/42"
              "42" Json.JNull w500 500 [] ""%string eq_refl eq_refl eq_refl)
    as [H5 _].
  split; [exact H1|]. split; [exact H3|]. split; [exact H4|].
  by rewrite H5.
Defined.

(** X11.  [collect_company] never raises and never hangs: it returns what
    [org_core] returns, or [{}] for every exception, after at most four HTTP
    calls.  With no cache entry, an error status gives [{}] after one call
    and four connection failures give [{}] after four. *)
Theorem collect_company_never_raises :
  (∀ self company_id w,
     let r := core_sig_client.collect_company self company_id w in
     (∃ v, r.1 = Ok v) ∧ (calls w ≤ calls r.2 ≤ calls w + 4)%nat)
  ∧ (∀ self company_id w code hs body,
       files w !! core_sig_client._cache_path self
                    ("/v1/organizations/" +:+ company_id) ("org_" +:+ company_id)
       = None →
       upstream w (calls w) = Response code hs body →
       is_success code = false →
       let r := core_sig_client.collect_company self company_id w in
       r.1 = Ok (Json.JDict []) ∧ calls r.2 = S (calls w) ∧ files r.2 = files w)
  ∧ (∀ self company_id w,
       files w !! core_sig_client._cache_path self
                    ("/v1/organizations/" +:+ company_id) ("org_" +:+ company_id)
       = None →
       (∀ k, (k < 4)%nat → upstream w (calls w + k) = NoResponse) →
       let r := core_sig_client.collect_company self company_id w in
       r.1 = Ok (Json.JDict []) ∧ calls r.2 = (calls w + 4)%nat
       ∧ files r.2 = files w).
Proof.
  split; [|split].
  - intros self company_id w r. subst r.
    unfold core_sig_client.collect_company, catch.
    pose proof (core_sig_retrying_outcome self "get"
                  ("/v1/organizations/" +:+ company_id) ("org_" +:+ company_id)
                  (wait_exponential 1 1 10) 3 1 w) as Ho.
    cbn zeta in Ho.
    change (retrying id 3 1 core_sig_client.retry_if (wait_exponential 1 1 10)
              (core_sig_client.request_once self "get"
                 ("/v1/organizations/" +:+ company_id) ("org_" +:+ company_id)) w)
      with (core_sig_client.org_core self company_id w) in Ho.
    destruct (core_sig_client.org_core self company_id w) as [[v|e|] w'];
      cbn [fst snd] in *; destruct Ho as [Hh Hc]; [eauto|eauto|done].
  - intros self company_id w code hs body Hf Hu Hc r. subst r.
    unfold core_sig_client.collect_company, catch, core_sig_client.org_core,
      core_sig_client.get, retry.
    rewrite retrying_unfold, request_once_eval. cbn zeta. rewrite Hf.
    rewrite core_sig_fetch_eval. cbn zeta. rewrite Hu, Hc. done.
  - intros self company_id w Hf Hu r. subst r.
    destruct (core_sig_no_response self "get" _ _ w Hf Hu)
      as (H1 & H2 & _ & _ & H5).
    unfold core_sig_client.collect_company, catch, core_sig_client.org_core,
      core_sig_client.get.
    destruct (retry id 4 _ _ _ w) as [[v|e|] w']; cbn [fst snd] in *; done.
Qed.

Lemma collect_company_never_raises_witness :
  let self := core_sig_client.__init__ None (Some "key"%string) ".cache" 7 in
  let w := example_world (λ _, Response 503 [] "") in
  let r := core_sig_client.collect_company self "77" w in
  is_success 503 = false
  ∧ r.1 = Ok (Json.JDict []) ∧ calls r.2 = 1%nat.
Proof.
  intros self w r. split; [reflexivity|].
  destruct (proj1 (proj2 collect_company_never_raises) self "77"%string w 503 []
              ""%string eq_refl eq_refl eq_refl) as (H1 & H2 & _).
  split; [exact H1|exact H2].
Defined.

Section CoreSigPaths.
Import Json core_sig_client.

Lemma run_eval self c :
  run self c = retry id 4 retry_if (wait_exponential 1 1 10)
                 (request_once self (method_of c) (endpoint_of c) (cache_key_of c)).
Proof. by destruct c. Qed.

(** Every endpoint of a wrapper starts with a slash and a letter. *)
Lemma wrapper_endpoint c :
  ∃ a r, endpoint_of c = String "/" (String a r)
         ∧ (a = "v"%char ∨ a = "c"%char).
Proof. destruct c; eexists _, _; (split; [reflexivity|]); auto. Qed.

Lemma rstrip_slash_head a r :
  a ≠ "/"%char → rstrip_slash (String a r) = String a (rstrip_slash r).
Proof.
  intros Ha. cbn [rstrip_slash].
  destruct (Ascii.eqb_spec a "/") as [->|_]; done.
Qed.

Lemma wrapper_directory c :
  plain_name (_sanitize (replace_slash (strip_slash (endpoint_of c)))).
Proof.
  split; [apply sanitize_safe|].
  destruct (wrapper_endpoint c) as (a & r & -> & Ha).
  assert (a ≠ "/"%char) as Hs by (by destruct Ha as [-> | ->]).
  assert (strip_slash (String "/" (String a r)) = String a (rstrip_slash r)) as ->.
  { unfold strip_slash. cbn [lstrip_slash].
    change (Ascii.eqb "/" "/") with true. cbn match.
    destruct (Ascii.eqb_spec a "/") as [?|_]; [done|].
    by apply rstrip_slash_head. }
  unfold replace_slash, _sanitize. cbn [map_string].
  destruct (Ascii.eqb_spec a "/") as [?|_]; [done|].
  destruct Ha as [-> | ->]; cbn; repeat split; discriminate.
Qed.

Lemma json_file_name s : plain_name (_sanitize s +:+ ".json").
Proof.
  split.
  - rewrite string_forall_app, sanitize_safe. done.
  - destruct (_sanitize s) as [|a [|b [|c r]]]; repeat split;
      rewrite ?append_nil_l, ?append_cons; try discriminate.
Qed.

End CoreSigPaths.

(** X12.  No argument of an endpoint wrapper can move its cache file out of
    the cache directory.  Whatever the email, ids and dates are (slashes and
    dot-dot segments included) the wrapper reads and writes the one file
    [cache_dir / directory / file], two levels below the cache directory,
    where both names consist of characters of [[A-Za-z0-9_.-]] and neither is
    empty, [.] or [..]. *)
Theorem wrapper_cache_file_stays_in_cache_dir :
  ∀ self c,
    let endpoint := core_sig_client.endpoint_of c in
    let cache_key := core_sig_client.cache_key_of c in
    core_sig_client.run self c
    = retry id 4 core_sig_client.retry_if (wait_exponential 1 1 10)
        (core_sig_client.request_once self (core_sig_client.method_of c)
           endpoint cache_key)
    ∧ ∃ directory file,
        core_sig_client._cache_path self endpoint cache_key
        = core_sig_client.cache_dir self ++ [directory; file]
        ∧ core_sig_client.plain_name directory
        ∧ core_sig_client.plain_name file.
Proof.
  intros self c endpoint cache_key. split; [apply run_eval|].
  exists (_sanitize (replace_slash (strip_slash endpoint))),
         (_sanitize cache_key +:+ ".json").
  pose proof (wrapper_directory c) as Hd. fold endpoint in Hd.
  split; [|split; [done|apply json_file_name]].
  rewrite core_sig_cache_path. cbn zeta.
  destruct Hd as (_ & H1 & H2 & _).
  destruct (decide _) as [[?|?]|_]; done.
Qed.

(** ** The requests client: spacing, accounting, memory caches *)

Section RequestsExtras.
Import Json JsonDocument coresignal_client.

Lemma untouched_refl s : untouched s s.
Proof. by split. Qed.

Lemma untouched_trans s1 s2 s3 : untouched s1 s2 → untouched s2 s3 → untouched s1 s3.
Proof. intros [] []. split; congruence. Qed.

Lemma untouched_rate_limited cfg s : untouched s (rate_limited cfg s).
Proof. unfold rate_limited. destruct (_ <? _); by split. Qed.


Lemma stepped_requested cfg method url s :
  stepped s (requested method url (rate_limited cfg s)).
Proof.
  pose proof (rate_limited_observables cfg s) as Ho. cbn zeta in Ho.
  destruct Ho as (Hc & Hf & Hcl & Hs & Hcc & Hmc).
  pose proof (untouched_rate_limited cfg s) as [].
  split; [split|..]; cbn -[rate_limited]; try done; try congruence.
  all: by rewrite Hs.
Qed.

Lemma pow2_nonneg a : 0 <= seconds (2 ^ a).
Proof. unfold seconds, second. pose proof (Z.pow_nonneg 2 a). lia. Qed.

Lemma fail_request_eval s : fail_request s = (Ok Empty, failed s).
Proof. reflexivity. Qed.

(** The loop of [_make_request]: what it returns, what it counts and what it
    leaves alone. *)
Lemma attempts_outcome cfg method url remaining : ∀ attempt s,
  let r := attempts cfg method url remaining attempt s in
  untouched s r.2
  ∧ (calls (env s) ≤ calls (env r.2) ≤ calls (env s) + remaining)%nat
  ∧ 0 <= total_calls (stats (client r.2)) - total_calls (stats (client s))
      <= Z.of_nat (calls (env r.2)) - Z.of_nat (calls (env s))
  ∧ clock (env s) <= clock (env r.2)
  ∧ ((∃ hs text, r.1 = Ok (Received 200 hs text))
       ∧ errors (stats (client r.2)) = errors (stats (client s))
     ∨ r.1 = Ok Empty
       ∧ errors (stats (client r.2)) = errors (stats (client s)) + 1
     ∨ r.1 = Raise ValueError
       ∧ errors (stats (client r.2)) = errors (stats (client s))).
Proof.
  induction remaining as [|remaining IH]; intros attempt s; cbn zeta.
  { cbn [attempts]. rewrite fail_request_eval. cbn.
    split; [by split|]. repeat split; try lia. right. left. done. }
  rewrite attempts_step. cbn zeta.
  pose proof (stepped_requested cfg method url s) as Hst.
  set (s1 := requested method url (rate_limited cfg s)) in *.
  destruct Hst as [Hu Hc Hcl He Ht].
  (* the ways an iteration ends *)
  assert (∀ s2, untouched s s2 → calls (env s2) = S (calls (env s)) →
            clock (env s) <= clock (env s2) →
            errors (stats (client s2)) = errors (stats (client s)) →
            0 <= total_calls (stats (client s2)) - total_calls (stats (client s)) <= 1 →
            let r := (Ok Empty, failed s2) in
            untouched s r.2
            ∧ (calls (env s) ≤ calls (env r.2) ≤ calls (env s) + S remaining)%nat
            ∧ 0 <= total_calls (stats (client r.2)) - total_calls (stats (client s))
                <= Z.of_nat (calls (env r.2)) - Z.of_nat (calls (env s))
            ∧ clock (env s) <= clock (env r.2)
            ∧ ((∃ hs text, r.1 = Ok (Received 200 hs text))
                 ∧ errors (stats (client r.2)) = errors (stats (client s))
               ∨ r.1 = Ok Empty
                 ∧ errors (stats (client r.2)) = errors (stats (client s)) + 1
               ∨ r.1 = Raise ValueError
                 ∧ errors (stats (client r.2)) = errors (stats (client s))))
    as Hfail.
  { intros s2 [] Hc2 Hcl2 He2 Ht2. cbn. split; [by split|].
    repeat split; try lia. right. left. split; [done|]. lia. }
  assert (∀ s2 d, untouched s s2 → calls (env s2) = S (calls (env s)) →
            clock (env s) <= clock (env s2) → 0 <= d →
            errors (stats (client s2)) = errors (stats (client s)) →
            0 <= total_calls (stats (client s2)) - total_calls (stats (client s)) <= 1 →
            let r := attempts cfg method url remaining (attempt + 1) (slept d s2) in
            untouched s r.2
            ∧ (calls (env s) ≤ calls (env r.2) ≤ calls (env s) + S remaining)%nat
            ∧ 0 <= total_calls (stats (client r.2)) - total_calls (stats (client s))
                <= Z.of_nat (calls (env r.2)) - Z.of_nat (calls (env s))
            ∧ clock (env s) <= clock (env r.2)
            ∧ ((∃ hs text, r.1 = Ok (Received 200 hs text))
                 ∧ errors (stats (client r.2)) = errors (stats (client s))
               ∨ r.1 = Ok Empty
                 ∧ errors (stats (client r.2)) = errors (stats (client s)) + 1
               ∨ r.1 = Raise ValueError
                 ∧ errors (stats (client r.2)) = errors (stats (client s))))
    as Hnext.
  { intros s2 d Hu2 Hc2 Hcl2 Hd He2 Ht2. cbn zeta.
    specialize (IH (attempt + 1) (slept d s2)). cbn zeta in IH.
    destruct (attempts cfg method url remaining (attempt + 1) (slept d s2))
      as [r s3].
    destruct IH as (Hu3 & Hc3 & Ht3 & Hcl3 & Hr3). cbn [fst snd] in *.
    assert (untouched s2 (slept d s2)) as Hsl by (by split).
    split; [eauto using untouched_trans|].
    cbn in Hc3, Ht3, Hcl3, Hr3. repeat split; try lia.
    destruct Hr3 as [[? ?]|[[? ?]|[? ?]]]; [left|right; left|right; right];
      (split; [done|lia]). }
  assert (untouched s (counted s1)
          ∧ calls (env (counted s1)) = S (calls (env s))
          ∧ clock (env s) <= clock (env (counted s1))
          ∧ errors (stats (client (counted s1))) = errors (stats (client s))
          ∧ total_calls (stats (client (counted s1)))
            = total_calls (stats (client s)) + 1) as (Hu1 & Hc1 & Hcl1 & He1 & Ht1).
  { destruct Hu. split; [by split|]. cbn -[s1]. repeat split; try done; lia. }
  set (s2 := counted s1) in *. clearbody s2 s1.
  destruct (upstream (env s) (calls (env s))) as [code hs text|].
  2:{ unfold backoff. destruct (_ <? _).
      - apply Hnext; try done; [apply pow2_nonneg|lia].
      - apply Hfail; try done. lia. }
  destruct (code =? 200) eqn:H200.
  { cbn [fst snd]. split; [done|]. apply Z.eqb_eq in H200. subst code.
    repeat split; try lia. left. split; [eauto|done]. }
  destruct (code =? 422).
  { apply Hfail; try done; lia. }
  destruct (code =? 429).
  { destruct (header _ hs) as [v|].
    - destruct (int v) as [k|].
      + destruct (k <? 0) eqn:Hk.
        * cbn [fst snd]. split; [done|]. repeat split; try lia.
          right. right. done.
        * apply Hnext; try done; try lia.
          unfold seconds, second. lia.
      + cbn [fst snd]. split; [done|]. repeat split; try lia.
        right. right. done.
    - apply Hnext; try done; try lia. }
  destruct (code =? 401).
  { apply Hfail; try done; lia. }
  unfold backoff. destruct (_ <? _).
  - apply Hnext; try done; try lia. apply pow2_nonneg.
  - apply Hfail; try done; lia.
Qed.

Lemma make_request_eval cfg method endpoint s :
  _make_request cfg method endpoint s
  = attempts cfg method (base_url (client s) +:+ endpoint) (MAX_RETRIES cfg) 0 s.
Proof. unfold _make_request. by rewrite bind_eval. Qed.

Lemma rate_limited_clock cfg s :
  clock (env (rate_limited cfg s))
  = Z.max (clock (env s)) (last_request_time (client s) + RATE_LIMIT_DELAY cfg)
  ∧ last_request_time (client (rate_limited cfg s)) = clock (env (rate_limited cfg s)).
Proof.
  unfold rate_limited. destruct (_ <? _) eqn:Hlt; simpl; split; try done; lia.
Qed.

(** Every pass through the loop moves [last_request_time] on by the delay at
    least, and never past the clock. *)
Lemma attempts_spacing cfg method url remaining : ∀ attempt s,
  0 <= RATE_LIMIT_DELAY cfg →
  let s' := (attempts cfg method url remaining attempt s).2 in
  (last_request_time (client s) <= clock (env s) →
   last_request_time (client s) <= last_request_time (client s') <= clock (env s'))
  ∧ ((0 < remaining)%nat →
     last_request_time (client s) + RATE_LIMIT_DELAY cfg
     <= last_request_time (client s') <= clock (env s')).
Proof.
  induction remaining as [|remaining IH]; intros attempt s Hd; cbn zeta.
  { cbn [attempts]. rewrite fail_request_eval. cbn. split; [lia|lia]. }
  rewrite attempts_step. cbn zeta.
  destruct (rate_limited_clock cfg s) as [Hcl Hl].
  set (s0 := rate_limited cfg s) in *.
  assert (∀ s2, last_request_time (client s2) = last_request_time (client s0) →
                clock (env s0) <= clock (env s2) →
                last_request_time (client s) + RATE_LIMIT_DELAY cfg
                <= last_request_time (client (failed s2)) <= clock (env (failed s2)))
    as Hfail.
  { intros s2 H1 H2. cbn. lia. }
  assert (∀ s2 d, last_request_time (client s2) = last_request_time (client s0) →
                  clock (env s0) <= clock (env s2) → 0 <= d →
                  let s' := (attempts cfg method url remaining (attempt + 1)
                               (slept d s2)).2 in
                  last_request_time (client s) + RATE_LIMIT_DELAY cfg
                  <= last_request_time (client s') <= clock (env s'))
    as Hnext.
  { intros s2 d H1 H2 H3. cbn zeta.
    destruct (IH (attempt + 1) (slept d s2) Hd) as [IH1 _].
    cbn in IH1. lia. }
  assert (∀ s2, last_request_time (client s2) = last_request_time (client s0) →
                clock (env s0) <= clock (env s2) →
                last_request_time (client s) + RATE_LIMIT_DELAY cfg
                <= last_request_time (client s2) <= clock (env s2)) as Hnow.
  { intros s2 H1 H2. lia. }
  set (s1 := requested method url s0).
  assert (last_request_time (client s1) = last_request_time (client s0)
          ∧ clock (env s0) <= clock (env s1)
          ∧ last_request_time (client (counted s1)) = last_request_time (client s0)
          ∧ clock (env s0) <= clock (env (counted s1))) as (A1 & A2 & A3 & A4).
  { cbn -[s0]. repeat split; lia. }
  set (s2 := counted s1) in *. clearbody s2 s1 s0.
  match goal with |- (_ → _ <= last_request_time (client ?x) <= _) ∧ _ =>
    enough (last_request_time (client s) + RATE_LIMIT_DELAY cfg
            <= last_request_time (client x) <= clock (env x))
      by (split; intros; lia)
  end.
  destruct (upstream (env s) (calls (env s))) as [code hs text|].
  2:{ unfold backoff. destruct (_ <? _); [|by apply Hfail].
      apply Hnext; try done. apply pow2_nonneg. }
  destruct (code =? 200); [by apply Hnow|].
  destruct (code =? 422); [by apply Hfail|].
  destruct (code =? 429).
  { destruct (header _ hs) as [v|].
    - destruct (int v) as [k|]; [|by apply Hnow].
      destruct (k <? 0) eqn:Hk; [by apply Hnow|].
      apply Hnext; try done. unfold seconds, second. lia.
    - apply Hnext; try done. }
  destruct (code =? 401); [by apply Hfail|].
  unfold backoff. destruct (_ <? _); [|by apply Hfail].
  apply Hnext; try done. apply pow2_nonneg.
Qed.

Lemma pow2_ge_1 a : 0 <= a → 1 <= 2 ^ a.
Proof. intros Ha. pose proof (Z.pow_pos_nonneg 2 a). lia. Qed.

(** An iteration that ends in the backoff. *)
Lemma attempts_retried cfg method url remaining attempt s :
  retried (upstream (env s) (calls (env s))) = true →
  ∃ sx,
    attempts cfg method url (S remaining) attempt s
    = backoff cfg method url remaining attempt sx
    ∧ untouched s sx ∧ calls (env sx) = S (calls (env s))
    ∧ clock (env sx)
      = Z.max (clock (env s)) (last_request_time (client s) + RATE_LIMIT_DELAY cfg)
    ∧ last_request_time (client sx) = clock (env sx)
    ∧ errors (stats (client sx)) = errors (stats (client s)).
Proof.
  intros H0. rewrite attempts_step. cbn zeta.
  destruct (rate_limited_clock cfg s) as [Hcl Hl].
  pose proof (stepped_requested cfg method url s) as [Hun Hc _ He _].
  set (s1 := requested method url (rate_limited cfg s)) in *.
  destruct (upstream (env s) (calls (env s))) as [code hs text|].
  - simpl in H0.
    destruct (code =? 200); [done|]. destruct (code =? 422); [done|].
    destruct (code =? 429); [done|]. destruct (code =? 401); [done|].
    exists (counted s1). split; [done|].
    destruct Hun. split; [by split|]. cbn -[rate_limited].
    rewrite Hcl. repeat split; try done; by rewrite Hl.
  - exists s1. split; [done|]. split; [done|]. cbn -[rate_limited].
    rewrite Hcl. repeat split; try done; by rewrite Hl.
Qed.

(** The loop when every answer is a failure it tries again. *)
Lemma attempts_backoff cfg method url remaining : ∀ attempt s,
  0 <= RATE_LIMIT_DELAY cfg <= seconds 1 → 0 <= attempt →
  Z.of_nat (MAX_RETRIES cfg) = attempt + Z.of_nat (S remaining) →
  (∀ k, (k ≤ remaining)%nat →
        retried (upstream (env s) (calls (env s) + k)) = true) →
  let r := attempts cfg method url (S remaining) attempt s in
  r.1 = Ok Empty
  ∧ calls (env r.2) = (calls (env s) + S remaining)%nat
  ∧ clock (env r.2)
    = Z.max (clock (env s)) (last_request_time (client s) + RATE_LIMIT_DELAY cfg)
      + seconds (2 ^ (attempt + Z.of_nat remaining) - 2 ^ attempt)
  ∧ errors (stats (client r.2)) = errors (stats (client s)) + 1
  ∧ untouched s r.2.
Proof.
  induction remaining as [|remaining IH]; intros attempt s Hd Ha Hn Hu; cbn zeta;
    pose proof (Hu 0%nat ltac:(lia)) as H0; rewrite Nat.add_0_r in H0;
    match goal with |- context [attempts cfg method url (S ?r) attempt s] =>
      destruct (attempts_retried cfg method url r attempt s H0)
        as (sx & -> & Hux & Hcx & Hclx & Hlx & Hex)
    end;
    unfold backoff.
  - destruct (_ <? _) eqn:Hlt; [lia|]. cbn.
    rewrite Z.add_0_r, Z.sub_diag. unfold seconds.
    destruct Hux. repeat split; try done; lia.
  - destruct (_ <? _) eqn:Hlt; [|lia].
    set (sy := slept (seconds (2 ^ attempt)) sx).
    assert (untouched s sy ∧ calls (env sy) = S (calls (env s))
            ∧ clock (env sy) = clock (env sx) + seconds (2 ^ attempt)
            ∧ last_request_time (client sy) = clock (env sx)
            ∧ errors (stats (client sy)) = errors (stats (client s))
            ∧ upstream (env sy) = upstream (env s))
      as (Hus & Hcy & Hcly & Hly & Hey & Huy).
    { destruct Hux. split; [by split|]. by cbn. }
    clearbody sy.
    destruct (IH (attempt + 1) sy) as (I1 & I2 & I3 & I4 & I5); [done|lia|lia| |].
    + intros k Hk. rewrite Huy, Hcy.
      replace (S (calls (env s)) + k)%nat with (calls (env s) + S k)%nat by lia.
      apply Hu. lia.
    + split; [done|]. rewrite I2, I3, I4.
      split; [lia|]. split; [|split; [lia|eauto using untouched_trans]].
      pose proof (pow2_ge_1 attempt Ha) as Hp.
      rewrite Hly, Hcly, Hclx.
      replace (attempt + 1 + Z.of_nat remaining)
        with (attempt + Z.of_nat (S remaining)) by lia.
      replace (2 ^ (attempt + 1)) with (2 * 2 ^ attempt)
        by (rewrite Z.pow_add_r by lia; lia).
      unfold seconds, second in *. lia.
Qed.

End RequestsExtras.

(** X13.  [_rate_limit] spaces the requests of one client: it returns with
    the clock at the later of its reading on entry and [last_request_time]
    plus the delay, and records that reading.  With a delay that is not
    negative and at least one pass through the loop, every call of
    [_make_request] therefore leaves [last_request_time] at least the delay
    later than it found it, and not later than the clock. *)
Theorem requests_are_spaced_by_the_delay :
  (∀ cfg s,
     let r := coresignal_client._rate_limit cfg s in
     let lrt s := coresignal_client.last_request_time (coresignal_client.client s) in
     let now s := clock (coresignal_client.env s) in
     r.1 = Ok tt
     ∧ now r.2 = Z.max (now s) (lrt s + coresignal_client.RATE_LIMIT_DELAY cfg)
     ∧ lrt r.2 = now r.2
     ∧ calls (coresignal_client.env r.2) = calls (coresignal_client.env s))
  ∧ (∀ cfg method endpoint s,
       0 <= coresignal_client.RATE_LIMIT_DELAY cfg →
       (0 < coresignal_client.MAX_RETRIES cfg)%nat →
       let s' := (coresignal_client._make_request cfg method endpoint s).2 in
       let lrt s := coresignal_client.last_request_time (coresignal_client.client s) in
       lrt s + coresignal_client.RATE_LIMIT_DELAY cfg <= lrt s'
       ∧ lrt s' <= clock (coresignal_client.env s')).
Proof.
  split.
  - intros cfg s r lrt now. subst r lrt now. rewrite rate_limit_eval.
    cbn [fst snd].
    destruct (rate_limited_clock cfg s) as [H1 H2].
    pose proof (rate_limited_observables cfg s) as Ho. cbn zeta in Ho.
    destruct Ho as (Hc & _). done.
  - intros cfg method endpoint s Hd Hn s' lrt. subst s' lrt.
    rewrite make_request_eval.
    destruct (attempts_spacing cfg method
                (coresignal_client.base_url (coresignal_client.client s) +:+ endpoint)
                (coresignal_client.MAX_RETRIES cfg) 0 s Hd) as [_ H].
    cbn zeta in H. specialize (H Hn). lia.
Qed.

Lemma requests_are_spaced_by_the_delay_witness :
  let cfg := coresignal_client.default_config "key" in
  let s := requests_with_replies (λ _, Response 200 [] "{}") requests_client in
  let s1 := (coresignal_client._make_request cfg "GET" "/member/collect/1" s).2 in
  let s2 := (coresignal_client._make_request cfg "GET" "/member/collect/2" s1).2 in
  let lrt s := coresignal_client.last_request_time (coresignal_client.client s) in
  0 <= coresignal_client.RATE_LIMIT_DELAY cfg
  ∧ (0 < coresignal_client.MAX_RETRIES cfg)%nat
  ∧ lrt s1 + seconds 1 <= lrt s2.
Proof.
  intros cfg s s1 s2 lrt.
  assert (0 <= coresignal_client.RATE_LIMIT_DELAY cfg) as Hd by (vm_compute; discriminate).
  assert (0 < coresignal_client.MAX_RETRIES cfg)%nat as Hn by (simpl; lia).
  split; [exact Hd|]. split; [exact Hn|].
  exact (proj1 (proj2 requests_are_spaced_by_the_delay cfg "GET"%string
                  "/member/collect/2"%string s1 Hd Hn)).
Defined.


(** X15.  [_make_request] under failures that last.  When each of the
    [MAX_RETRIES] answers is no response or a status other than 200, 422, 429
    and 401, and the delay between requests is a second at most, the loop
    sends exactly [MAX_RETRIES] requests, sleeps 1, 2, 4, ... seconds between
    them ([2 ** attempt], [2 ** (MAX_RETRIES - 1) - 1] seconds in all after
    the first request), then counts one error and returns the empty
    [Response]: no exception reaches the caller. *)
Theorem make_request_backoff_schedule :
  ∀ cfg method endpoint s,
    let n := coresignal_client.MAX_RETRIES cfg in
    let w := coresignal_client.env s in
    0 <= coresignal_client.RATE_LIMIT_DELAY cfg <= seconds 1 →
    (0 < n)%nat →
    (∀ k, (k < n)%nat →
          coresignal_client.retried (upstream w (calls w + k)) = true) →
    let r := coresignal_client._make_request cfg method endpoint s in
    r.1 = Ok coresignal_client.Empty
    ∧ calls (coresignal_client.env r.2) = (calls w + n)%nat
    ∧ clock (coresignal_client.env r.2)
      = Z.max (clock w)
          (coresignal_client.last_request_time (coresignal_client.client s)
           + coresignal_client.RATE_LIMIT_DELAY cfg)
        + seconds (2 ^ (Z.of_nat n - 1) - 1)
    ∧ coresignal_client.errors (coresignal_client.stats (coresignal_client.client r.2))
      = coresignal_client.errors (coresignal_client.stats (coresignal_client.client s)) + 1.
Proof.
  intros cfg method endpoint s n w Hd Hn Hu r. subst r.
  rewrite make_request_eval. fold n.
  destruct n as [|m] eqn:Hm; [lia|].
  destruct (attempts_backoff cfg method
              (coresignal_client.base_url (coresignal_client.client s) +:+ endpoint)
              m 0 s Hd ltac:(lia)) as (H1 & H2 & H3 & H4 & _).
  - fold n. lia.
  - intros k Hk. apply Hu. lia.
  - split; [done|]. split; [done|]. split; [|done].
    rewrite H3. do 2 f_equal. rewrite Z.add_0_l.
    replace (Z.of_nat (S m) - 1) with (Z.of_nat m) by lia. done.
Qed.

Lemma make_request_backoff_schedule_witness :
  let cfg := coresignal_client.default_config "key" in
  let s := requests_with_replies (λ _, Response 500 [] "") requests_client in
  let r := coresignal_client._make_request cfg "GET" "/member/collect/42" s in
  0 <= coresignal_client.RATE_LIMIT_DELAY cfg <= seconds 1
  ∧ r.1 = Ok coresignal_client.Empty
  ∧ calls (coresignal_client.env r.2) = 3%nat
  ∧ clock (coresignal_client.env r.2) = seconds 1 + seconds 3.
Proof.
  intros cfg s r.
  assert (0 <= coresignal_client.RATE_LIMIT_DELAY cfg <= seconds 1) as Hd
    by (vm_compute; split; discriminate).
  split; [exact Hd|].
  destruct (make_request_backoff_schedule cfg "GET"%string
              "/member/collect/42"%string s Hd) as (H1 & H2 & H3 & _).
  - simpl. lia.
  - intros k _. reflexivity.
  - split; [exact H1|]. split; [exact H2|exact H3].
Defined.

Section RequestsMemory.
Import Json JsonDocument coresignal_client.

Lemma get_details_eval k cfg id s :
  get_details k cfg id s =
    if ident_falsy id then (Ok JNull, s)
    else
      match cache_of k (client s) !! str id with
      | Some v => (Ok v, hit s)
      | None =>
        match _make_request cfg "GET" (collect_endpoint k +:+ "/" +:+ str id) s with
        | (Ok response, s1) =>
          let s2 := with_stats (count_collect k) s1 in
          if is_200 response then
            match response_json response with
            | Some data =>
              if writable (env s2) (details_file k (str id))
              then (Ok data,
                    cache_insert k (str id) data
                      (wrote (details_file k (str id)) (dumps_indent 2 data) s2))
              else (Ok JNull, s2)
            | None => (Ok JNull, s2)
            end
          else (Ok JNull, s2)
        | (Raise e, s1) => (Raise e, s1)
        | (Hang, s1) => (Hang, s1)
        end
      end.
Proof.
  unfold get_details. destruct (ident_falsy id); [done|].
  rewrite bind_eval. cbn [gets].
  destruct (cache_of k (client s) !! str id) as [v|]; [done|].
  rewrite bind_eval.
  destruct (_make_request cfg "GET" _ s) as [[response|e|] s1]; try done.
  rewrite bind_eval. cbn [modify]. cbn zeta.
  destruct (is_200 response); [|done].
  destruct (response_json response) as [data|]; [|done].
  rewrite bind_eval. unfold lift, write_text.
  destruct (writable (env (with_stats (count_collect k) s1)) _); reflexivity.
Qed.

Lemma search_eval k cfg cache_key s :
  search k cfg cache_key s =
    match cache_of k (client s) !! cache_key with
    | Some v => (Ok v, hit s)
    | None =>
      match _make_request cfg "POST" (search_endpoint k) s with
      | (Ok response, s1) =>
        let s2 := with_stats (count_search k) s1 in
        if is_200 response then
          match response_json response with
          | Some data =>
            match raw_results data with
            | Some raw =>
              match resolve k cfg raw [] s2 with
              | (Ok results, s3) =>
                (Ok (JList results), cache_insert k cache_key (JList results) s3)
              | (Raise e, s3) => (Ok (JList []), s3)
              | (Hang, s3) => (Hang, s3)
              end
            | None => (Ok (JList []), s2)
            end
          | None => (Ok (JList []), s2)
          end
        else (Ok (JList []), s2)
      | (Raise e, s1) => (Raise e, s1)
      | (Hang, s1) => (Hang, s1)
      end
    end.
Proof.
  unfold search. rewrite bind_eval. cbn [gets].
  destruct (cache_of k (client s) !! cache_key) as [v|]; [done|].
  rewrite bind_eval.
  destruct (_make_request cfg "POST" _ s) as [[response|e|] s1]; try done.
  rewrite bind_eval. cbn [modify]. cbn zeta.
  destruct (is_200 response); [|done].
  unfold catch.
  destruct (response_json response) as [data|]; [|done].
  destruct (raw_results data) as [raw|]; [|done].
  rewrite bind_eval.
  destruct (resolve k cfg raw [] _) as [[results|e|] s3]; done.
Qed.

(** [_make_request], as its callers see it. *)
Lemma make_request_summary cfg method endpoint s :
  let r := _make_request cfg method endpoint s in
  untouched s r.2
  ∧ (calls (env s) ≤ calls (env r.2) ≤ calls (env s) + MAX_RETRIES cfg)%nat
  ∧ ((∃ response, r.1 = Ok response) ∨ r.1 = Raise ValueError).
Proof.
  cbn zeta. rewrite make_request_eval.
  pose proof (attempts_outcome cfg method (base_url (client s) +:+ endpoint)
                (MAX_RETRIES cfg) 0 s) as H.
  cbn zeta in H. destruct H as (Hu & Hc & _ & _ & Hr).
  split; [done|]. split; [done|].
  destruct Hr as [[(hs & text & ->) _]|[[-> _]|[-> _]]]; eauto.
Qed.

Lemma get_details_outcome k cfg id s :
  let r := get_details k cfg id s in
  (calls (env s) ≤ calls (env r.2) ≤ calls (env s) + MAX_RETRIES cfg)%nat
  ∧ ((∃ v, r.1 = Ok v) ∨ r.1 = Raise ValueError).
Proof.
  cbn zeta. rewrite get_details_eval.
  destruct (ident_falsy id); [cbn; split; [lia|eauto]|].
  destruct (cache_of k (client s) !! str id) as [v|]; [cbn; split; [lia|eauto]|].
  pose proof (make_request_summary cfg "GET" (collect_endpoint k +:+ "/" +:+ str id) s)
    as H.
  cbn zeta in H.
  destruct (_make_request cfg "GET" _ s) as [[response|e|] s1];
    destruct H as (_ & Hc & Hr); cbn [fst snd] in *.
  - assert (calls (env (with_stats (count_collect k) s1)) = calls (env s1)) as Hs
      by done.
    destruct (is_200 response); [|cbn [fst snd]; rewrite Hs; eauto].
    destruct (response_json response); [|cbn [fst snd]; rewrite Hs; eauto].
    destruct (writable _ _); cbn [fst snd]; [|rewrite Hs; eauto].
    split; [|eauto]. destruct k; cbn; cbn in Hs; lia.
  - split; [done|]. destruct Hr as [[? ?]|[= ->]]; [done|by right].
  - destruct Hr as [[? ?]|?]; done.
Qed.

Lemma resolve_outcome k cfg raw : ∀ results s,
  Forall (λ x, Builtins.is_dict x = true) results →
  let r := resolve k cfg raw results s in
  (calls (env s) ≤ calls (env r.2) ≤ calls (env s) + length raw * MAX_RETRIES cfg)%nat
  ∧ (r.1 = Raise ValueError
     ∨ ∃ l, r.1 = Ok l ∧ Forall (λ x, Builtins.is_dict x = true) l
            ∧ (length l ≤ length results + length raw)%nat).
Proof.
  induction raw as [|entry raw IH]; intros results s Hres; cbn zeta.
  { cbn. split; [lia|]. right. exists results. split; [done|]. split; [done|lia]. }
  assert (∀ id,
    let r := (detailed ← get_details k cfg id;
              resolve k cfg raw
                (if Builtins.is_dict detailed then results ++ [detailed]
                 else results)) s in
    (calls (env s) ≤ calls (env r.2)
     ≤ calls (env s) + length (entry :: raw) * MAX_RETRIES cfg)%nat
    ∧ (r.1 = Raise ValueError
       ∨ ∃ l, r.1 = Ok l ∧ Forall (λ x, Builtins.is_dict x = true) l
              ∧ (length l ≤ length results + length (entry :: raw))%nat)) as Hint.
  { intros id. cbn zeta. rewrite bind_eval.
    pose proof (get_details_outcome k cfg id s) as Hd. cbn zeta in Hd.
    destruct (get_details k cfg id s) as [[detailed|e|] s1];
      destruct Hd as [Hc Hr]; cbn [fst snd length] in *.
    - destruct (Builtins.is_dict detailed) eqn:Hdict.
      + destruct (IH (results ++ [detailed]) s1) as [Hc' Hr'].
        { apply Forall_app. split; [done|]. by constructor. }
        split; [lia|]. destruct Hr' as [?|(l & ? & ? & Hl)]; [by left|].
        right. exists l. rewrite length_app in Hl. simpl in Hl.
        split; [done|]. split; [done|lia].
      + destruct (IH results s1 Hres) as [Hc' Hr'].
        split; [lia|]. destruct Hr' as [?|(l & ? & ? & Hl)]; [by left|].
        right. exists l. split; [done|]. split; [done|lia].
    - split; [nia|]. left. destruct Hr as [[? ?]|[= ->]]; done.
    - destruct Hr as [[? ?]|?]; done. }
  assert (∀ results', Forall (λ x, Builtins.is_dict x = true) results' →
    (length results' ≤ S (length results))%nat →
    let r := resolve k cfg raw results' s in
    (calls (env s) ≤ calls (env r.2)
     ≤ calls (env s) + length (entry :: raw) * MAX_RETRIES cfg)%nat
    ∧ (r.1 = Raise ValueError
       ∨ ∃ l, r.1 = Ok l ∧ Forall (λ x, Builtins.is_dict x = true) l
              ∧ (length l ≤ length results + length (entry :: raw))%nat)) as Hskip.
  { intros results' Hres' Hlen. cbn zeta.
    destruct (IH results' s Hres') as [Hc' Hr']. cbn [length].
    split; [lia|]. destruct Hr' as [?|(l & ? & ? & Hl)]; [by left|].
    right. exists l. split; [done|]. split; [done|lia]. }
  destruct entry; cbn [resolve]; try (apply Hskip; [done|lia]); try apply Hint.
  apply Hskip; [|rewrite length_app; simpl; lia].
  apply Forall_app. split; [done|]. by constructor.
Qed.

Lemma raw_results_length data raw :
  raw_results data = Some raw → (length raw ≤ 10)%nat.
Proof.
  unfold raw_results. destruct data; try (intros [= <-]; simpl; lia).
  - intros [= <-]. rewrite length_take. lia.
  - destruct (Builtins.dict_get "hits" d) as [hits|]; [|intros [= <-]; simpl; lia].
    unfold Builtins.slice_to. destruct hits; try done; intros [= <-].
    + rewrite length_map, length_take. lia.
    + rewrite length_take. lia.
Qed.

Lemma cache_of_hit k s : cache_of k (client (hit s)) = cache_of k (client s).
Proof. by destruct k. Qed.

Lemma cache_of_insert k key v s :
  cache_of k (client (cache_insert k key v s)) !! key = Some v.
Proof. destruct k; cbn; apply lookup_insert_eq. Qed.

(** What [search] returns and is not [[]], it has in its cache. *)
Lemma search_cached k cfg cache_key s r s1 :
  search k cfg cache_key s = (Ok r, s1) → r ≠ JList [] →
  cache_of k (client s1) !! cache_key = Some r.
Proof.
  rewrite search_eval.
  destruct (cache_of k (client s) !! cache_key) as [v|] eqn:Hc.
  { intros [= <- <-] _. by rewrite cache_of_hit. }
  destruct (_make_request cfg "POST" _ s) as [[response|e|] s0]; try done.
  cbn zeta. destruct (is_200 response); [|by intros [= <- <-]].
  destruct (response_json response) as [data|]; [|by intros [= <- <-]].
  destruct (raw_results data) as [raw|]; [|by intros [= <- <-]].
  destruct (resolve k cfg raw [] _) as [[results|e|] s3]; try done.
  - intros [= <- <-] _. apply cache_of_insert.
  - by intros [= <- <-].
Qed.

Lemma search_hit k cfg cache_key s v :
  cache_of k (client s) !! cache_key = Some v →
  search k cfg cache_key s = (Ok v, hit s).
Proof. intros H. by rewrite search_eval, H. Qed.


(** [str.strip] and blanks around a string. *)
Lemma lstrip_blank pre s :
  string_forall Builtins.isspace pre = true →
  Builtins.lstrip (pre +:+ s) = Builtins.lstrip s.
Proof.
  induction pre as [|c pre IH]; [by rewrite append_nil_l|].
  cbn [string_forall]. rewrite andb_true_iff. intros [Hc Hp].
  rewrite append_cons. cbn [Builtins.lstrip]. rewrite Hc. auto.
Qed.

Lemma rstrip_blank post :
  string_forall Builtins.isspace post = true → Builtins.rstrip post = ""%string.
Proof.
  induction post as [|c post IH]; [done|].
  cbn [string_forall]. rewrite andb_true_iff. intros [Hc Hp].
  cbn [Builtins.rstrip]. rewrite (IH Hp), Hc. done.
Qed.

Lemma rstrip_app_blank s post :
  string_forall Builtins.isspace post = true →
  Builtins.rstrip (s +:+ post) = Builtins.rstrip s.
Proof.
  intros Hp. induction s as [|c s IH].
  - rewrite append_nil_l. by apply rstrip_blank.
  - rewrite append_cons. cbn [Builtins.rstrip]. by rewrite IH.
Qed.

Lemma strip_padding pre s post :
  string_forall Builtins.isspace pre = true →
  string_forall Builtins.isspace post = true →
  Builtins.strip (pre +:+ s +:+ post) = Builtins.strip s.
Proof.
  intros Hpre Hpost. unfold Builtins.strip. rewrite lstrip_blank by done.
  induction s as [|c s IH].
  - rewrite append_nil_l.
    replace (Builtins.lstrip post) with ""%string; [done|].
    clear -Hpost. induction post as [|c post IH]; [done|].
    cbn [string_forall] in Hpost. apply andb_true_iff in Hpost as [Hc Hp].
    cbn [Builtins.lstrip]. rewrite Hc. auto.
  - rewrite append_cons. cbn [Builtins.lstrip].
    destruct (Builtins.isspace c); [done|].
    rewrite <- append_cons. by apply rstrip_app_blank.
Qed.

(** A search that is not answered from memory. *)
Lemma search_shape :
  ∀ k cfg cache_key s,
    cache_of k (client s) !! cache_key = None →
    let r := search k cfg cache_key s in
    (r.1 = Raise ValueError
     ∨ ∃ l, r.1 = Ok (JList l) ∧ (length l ≤ 10)%nat
            ∧ Forall (λ x, Builtins.is_dict x = true) l)
    ∧ (calls (env s) ≤ calls (env r.2)
       ≤ calls (env s) + 11 * MAX_RETRIES cfg)%nat.
Proof.
  intros k cfg cache_key s Hc r. subst r. rewrite search_eval, Hc.
  pose proof (make_request_summary cfg "POST" (search_endpoint k) s)
    as H.
  cbn zeta in H.
  destruct (_make_request cfg "POST" _ s) as [[response|e|] s1];
    destruct H as (_ & Hcalls & Hr); cbn [fst snd] in *.
  - set (s2 := with_stats _ s1).
    assert (calls (env s2) = calls (env s1)) as Hs2
      by done.
    assert ((Ok (JList []) : result json) = Raise ValueError
            ∨ ∃ l, (Ok (JList []) : result json) = Ok (JList l)
                   ∧ (length l ≤ 10)%nat
                   ∧ Forall (λ x, Builtins.is_dict x = true) l) as Hempty.
    { right. exists []. split; [done|]. split; [simpl; lia|constructor]. }
    destruct (is_200 response);
      [|cbn [fst snd]; split; [done|lia]].
    destruct (response_json response) as [data|];
      [|cbn [fst snd]; split; [done|lia]].
    destruct (raw_results data) as [raw|] eqn:Hraw;
      [|cbn [fst snd]; split; [done|lia]].
    pose proof (raw_results_length data raw Hraw) as Hlen.
    pose proof (resolve_outcome k cfg raw [] s2 (Forall_nil_2 _)) as Hres.
    cbn zeta in Hres. clearbody s2.
    destruct (resolve k cfg raw [] s2) as [[results|e|] s3];
      destruct Hres as [Hc3 Hr3]; cbn [fst snd] in *.
    + destruct Hr3 as [?|(l & [= <-] & Hd & Hl)]; [done|].
      split.
      * right. exists results. split; [done|]. split; [simpl in Hl; lia|done].
      * assert (calls (env
                         (cache_insert k cache_key
                            (JList results) s3))
                = calls (env s3)) as -> by (by destruct k).
        nia.
    + split; [done|]. nia.
    + destruct Hr3 as [?|(l & ? & _)]; done.
  - split; [|lia]. left. destruct Hr as [[? ?]|[= ->]]; done.
  - destruct Hr as [[? ?]|?]; done.
Qed.


End RequestsMemory.

(** X16.  The searches remember what they found.  [search_companies] and
    [search_members] return the empty list at once, untouched, when called
    with nothing to search for; and whatever they return that is not the
    empty list is in the memory cache afterwards, so that the same search
    asked again returns it with one more cache hit counted and no request
    sent.  A failed search is not remembered: it is tried again. *)
Theorem searches_are_memoised :
  (∀ cfg title location s,
     coresignal_client.search_companies cfg "" "" s = (Ok (Json.JList []), s)
     ∧ coresignal_client.search_members cfg "" "" title location s
       = (Ok (Json.JList []), s))
  ∧ (∀ cfg name website s r s1,
       coresignal_client.search_companies cfg name website s = (Ok r, s1) →
       r ≠ Json.JList [] →
       coresignal_client.search_companies cfg name website s1
       = (Ok r, coresignal_client.hit s1)
       ∧ calls (coresignal_client.env (coresignal_client.hit s1))
         = calls (coresignal_client.env s1))
  ∧ (∀ cfg name experience_company_name title location title' location' s r s1,
       coresignal_client.search_members cfg name experience_company_name
         title location s = (Ok r, s1) →
       r ≠ Json.JList [] →
       coresignal_client.search_members cfg name experience_company_name
         title' location' s1 = (Ok r, coresignal_client.hit s1)
       ∧ calls (coresignal_client.env (coresignal_client.hit s1))
         = calls (coresignal_client.env s1)).
Proof.
  split; [|split].
  - intros cfg title location s. split; reflexivity.
  - intros cfg name website s r s1.
    unfold coresignal_client.search_companies.
    destruct (String.eqb name "" && String.eqb website "").
    { by intros [= <- <-]. }
    intros Hs Hr. split; [|done].
    apply search_hit. by eapply search_cached.
  - intros cfg name ecn title location title' location' s r s1.
    unfold coresignal_client.search_members. cbn zeta.
    destruct (Json.truthy _).
    2:{ by intros [= <- <-]. }
    intros Hs Hr. split; [|done].
    apply search_hit. by eapply search_cached.
Qed.

Lemma searches_are_memoised_witness :
  let cfg := coresignal_client.default_config "key" in
  let body := Json.dumps (Json.JList [Json.JDict [("id", Json.JInt 5)]%string]) in
  let s := requests_with_replies (λ _, Response 200 [] body) requests_client in
  let r := coresignal_client.search_companies cfg "Acme" "" s in
  r.1 = Ok (Json.JList [Json.JDict [("id", Json.JInt 5)]%string])
  ∧ coresignal_client.search_companies cfg "Acme" "" r.2
    = (Ok (Json.JList [Json.JDict [("id", Json.JInt 5)]%string]),
       coresignal_client.hit r.2).
Proof.
  intros cfg body s r.
  assert (r = (Ok (Json.JList [Json.JDict [("id", Json.JInt 5)]%string]), r.2)) as Hr
    by (vm_compute; reflexivity).
  split; [by rewrite Hr|].
  exact (proj1 (proj1 (proj2 searches_are_memoised) cfg "Acme"%string ""%string s
                  _ r.2 Hr ltac:(discriminate))).
Defined.





(** X19.  [search_members] keys its memory by the payload it sends, and the
    payload holds the stripped name: a name with blanks around it asks for
    the same entry as the name itself, and [title] and [location] do not
    enter the key.  So after a search that found something, the search for
    the padded name is answered from memory. *)
Theorem member_search_ignores_blanks_around_the_name :
  ∀ cfg name experience_company_name pre post title location title' location'
    s r s1,
    string_forall Builtins.isspace pre = true →
    string_forall Builtins.isspace post = true →
    name ≠ ""%string →
    coresignal_client.search_members cfg name experience_company_name
      title location s = (Ok r, s1) →
    r ≠ Json.JList [] →
    coresignal_client.search_members cfg (pre +:+ name +:+ post)
      experience_company_name title' location' s1
    = (Ok r, coresignal_client.hit s1).
Proof.
  intros cfg name ecn pre post title location title' location' s r s1
    Hpre Hpost Hname.
  assert (coresignal_client.members_payload (pre +:+ name +:+ post) ecn
          = coresignal_client.members_payload name ecn) as Hp.
  { unfold coresignal_client.members_payload.
    rewrite strip_padding by done.
    destruct (String.eqb_spec name "") as [?|_]; [done|].
    destruct (String.eqb_spec (pre +:+ name +:+ post) "") as [He|_]; [|done].
    exfalso. destruct pre as [|c pre].
    - rewrite append_nil_l in He. destruct name; [done|].
      by rewrite append_cons in He.
    - by rewrite append_cons in He. }
  unfold coresignal_client.search_members. cbn zeta. rewrite Hp.
  destruct (Json.truthy _).
  2:{ by intros [= <- <-]. }
  intros Hs Hr. apply search_hit. by eapply search_cached.
Qed.

Lemma member_search_ignores_blanks_around_the_name_witness :
  let cfg := coresignal_client.default_config "key" in
  let body := Json.dumps (Json.JList [Json.JDict [("id", Json.JInt 9)]%string]) in
  let s := requests_with_replies (λ _, Response 200 [] body) requests_client in
  let v := Json.JList [Json.JDict [("id", Json.JInt 9)]%string] in
  let r := coresignal_client.search_members cfg "Ann Lee" "Acme" "" "" s in
  r.1 = Ok v
  ∧ coresignal_client.search_members cfg "  Ann Lee " "Acme" "CEO" "Oslo" r.2
    = (Ok v, coresignal_client.hit r.2).
Proof.
  intros cfg body s v r.
  assert (r = (Ok v, r.2)) as Hr by (vm_compute; reflexivity).
  split; [by rewrite Hr|].
  exact (member_search_ignores_blanks_around_the_name cfg "Ann Lee" "Acme"
           "  " " " "" "" "CEO" "Oslo" s v r.2 eq_refl eq_refl
           ltac:(discriminate) Hr ltac:(discriminate)).
Defined.

Section FirstResults.
Import Json JsonDocument coresignal_client.

(** A search, from memory or not: it comes back, at most with the
    [ValueError] of its own request, within its budget of requests. *)
Lemma search_outcome k cfg cache_key s :
  let r := search k cfg cache_key s in
  ((∃ v, r.1 = Ok v) ∨ r.1 = Raise ValueError)
  ∧ (calls (env s) ≤ calls (env r.2) ≤ calls (env s) + 11 * MAX_RETRIES cfg)%nat.
Proof.
  cbn zeta.
  destruct (cache_of k (client s) !! cache_key) as [v|] eqn:Hc.
  - rewrite (search_hit k cfg cache_key s v Hc). cbn. split; [eauto|lia].
  - destruct (search_shape k cfg cache_key s Hc) as [Hr Hcalls].
    split; [|done]. destruct Hr as [?|(l & ? & _)]; eauto.
Qed.


Lemma search_members_outcome cfg name ecn title location s :
  let r := search_members cfg name ecn title location s in
  ((∃ v, r.1 = Ok v) ∨ r.1 = Raise ValueError)
  ∧ (calls (env s) ≤ calls (env r.2) ≤ calls (env s) + 11 * MAX_RETRIES cfg)%nat.
Proof.
  cbn zeta. unfold search_members. cbn zeta.
  destruct (truthy _); [apply search_outcome|]. cbn. split; [eauto|lia].
Qed.

Lemma search_person_outcome cfg name ecn s :
  let r := search_person cfg name ecn s in
  ((∃ v, r.1 = Ok v) ∨ r.1 = Raise ValueError)
  ∧ (calls (env s) ≤ calls (env r.2) ≤ calls (env s) + 11 * MAX_RETRIES cfg)%nat.
Proof.
  cbn zeta. unfold search_person. rewrite bind_eval.
  pose proof (search_members_outcome cfg name ecn "" "" s) as H. cbn zeta in H.
  destruct (search_members cfg name ecn "" "" s) as [[v|e|] s1];
    cbn [fst snd] in *; destruct H as [Hr Hc]; split; try done; eauto.
  - destruct Hr as [[? ?]|[= ->]]; [done|by right].
  - destruct Hr as [[? ?]|?]; done.
Qed.

End FirstResults.

Section EmployeeMatch.
Import Json coresignal_client main.

Lemma try_search_outcome cfg name company s :
  let r := try_search cfg name company s in
  (∃ found, r.1 = Ok found)
  ∧ (calls (env s) ≤ calls (env r.2) ≤ calls (env s) + 11 * MAX_RETRIES cfg)%nat.
Proof.
  cbn zeta. unfold try_search, catch. rewrite bind_eval.
  pose proof (search_person_outcome cfg name company s) as H. cbn zeta in H.
  destruct (search_person cfg name company s) as [[v|e|] s1];
    cbn [fst snd] in *; destruct H as [Hr Hc].
  - split; [|by destruct v as [?|v]; [|destruct (truthy v)]].
    destruct v as [?|v]; [eauto|]. destruct (truthy v); eauto.
  - eauto.
  - destruct Hr as [[? ?]|?]; done.
Qed.

Lemma first_match_outcome cfg attempts : ∀ s,
  let r := first_match cfg attempts s in
  (∃ v, r.1 = Ok v)
  ∧ (calls (env s) ≤ calls (env r.2)
     ≤ calls (env s) + length attempts * (11 * MAX_RETRIES cfg))%nat.
Proof.
  induction attempts as [|[name company] rest IH]; intros s; cbn zeta.
  { cbn. split; [eauto|lia]. }
  cbn [first_match]. rewrite bind_eval.
  pose proof (try_search_outcome cfg name company s) as H. cbn zeta in H.
  destruct (try_search cfg name company s) as [[found|e|] s1];
    cbn [fst snd length] in *; destruct H as [[x Hx] Hc]; try done.
  destruct found as [result|].
  - cbn. split; [eauto|lia].
  - destruct (IH s1) as [Hr Hc']. split; [done|lia].
Qed.

End EmployeeMatch.



(** X21.  [find_best_employee_match] never raises: every exception of a
    search is answered by going on to the next attempt.  Without a name it
    returns [None] at once and sends nothing; otherwise it makes two searches
    at most, the name with the company and the name alone, and so sends at
    most [22 * MAX_RETRIES] requests. *)
Theorem employee_match_never_raises :
  (∀ cfg company_name s,
     main.find_best_employee_match cfg "" company_name s = (Ok Json.JNull, s))
  ∧ (∀ cfg full_name company_name s,
       let r := main.find_best_employee_match cfg full_name company_name s in
       (∃ v, r.1 = Ok v)
       ∧ (calls (coresignal_client.env s) ≤ calls (coresignal_client.env r.2)
          ≤ calls (coresignal_client.env s)
            + 22 * coresignal_client.MAX_RETRIES cfg)%nat).
Proof.
  split.
  - intros cfg company_name s. reflexivity.
  - intros cfg full_name company_name s r. subst r.
    unfold main.find_best_employee_match.
    pose proof (first_match_outcome cfg
                  (main.search_attempts full_name company_name) s) as H.
    cbn zeta in H. destruct H as [Hr Hc]. split; [done|].
    assert (length (main.search_attempts full_name company_name) ≤ 2)%nat as Hl.
    { unfold main.search_attempts. rewrite length_app.
      destruct (negb _ && negb _), (negb _); simpl; lia. }
    nia.
Qed.
